(** * BOinG configuration chooser of SMAC3: subspace extraction, switching, acquisition values

    Shallow embedding of
    - [smac/optimizer/configuration_chooser/boing_chooser.py]
      ([subspace_extraction], [BOinGChooser.choose_next],
       [BOinGChooser._collect_all_data_to_train_model]);
    - [smac/acquisition/functions/abstract_acquisition_function.py]
      ([AbstractAcquisitionFunction.__call__]).

    Numbers.  The Python code works on IEEE doubles.  The extractor only
    compares and copies them, so a double is modelled as a rational or one of
    the three special values ([NP.float]); the arithmetic of the switching
    heuristic is modelled exactly (no rounding). *)

From Stdlib Require Import List Bool Arith ZArith QArith Qabs Qround Lia.
Import ListNotations.

Set Implicit Arguments.

(* ================================================================== *)
(** ** Errors *)

(** What a Python call can do besides returning: raise, or (for a [while]
    loop run with fuel) not finish within the fuel. *)
Inductive exn : Type :=
  IndexError | ValueError | TypeError | ZeroDivisionError | OutOfFuel.

Inductive result (A : Type) : Type :=
| Ok (a : A)
| Raise (e : exn).
Arguments Ok {A} a.
Arguments Raise {A} e.

Definition bind {A B : Type} (m : result A) (k : A -> result B) : result B :=
  match m with
  | Ok a => k a
  | Raise e => Raise e
  end.

Notation "x <- m ;; k" := (bind m (fun x => k))
  (at level 61, m at next level, right associativity).
Notation "' p <- m ;; k" := (bind m (fun p => k))
  (at level 61, p pattern, m at next level, right associativity).

(** [l[i]] of Python: raises [IndexError] out of range. *)
Definition lookup {A : Type} (l : list A) (i : nat) : result A :=
  match nth_error l i with
  | Some a => Ok a
  | None => Raise IndexError
  end.

(** [l[i] = v] on an index known to be in range. *)
Fixpoint set_nth {A : Type} (i : nat) (v : A) (l : list A) : list A :=
  match l, i with
  | [], _ => []
  | _ :: l', O => v :: l'
  | a :: l', S i' => a :: set_nth i' v l'
  end.

Fixpoint mapM {A B : Type} (f : A -> result B) (l : list A) : result (list B) :=
  match l with
  | [] => Ok []
  | a :: l' => b <- f a ;; bs <- mapM f l' ;; Ok (b :: bs)
  end.

(* ================================================================== *)
(** ** numpy values *)

Module NP.

(** A double: not-a-number (the sentinel of an inactive hyperparameter),
    the two infinities, or a finite value. *)
Inductive float : Type :=
| NaN
| PInf
| NInf
| Fin (q : Q).

Definition isnan (x : float) : bool :=
  match x with NaN => true | _ => false end.

Definition isfinite (x : float) : bool :=
  match x with Fin _ => true | _ => false end.

(** [x <= y]; every comparison with NaN is false. *)
Definition le (x y : float) : bool :=
  match x, y with
  | NaN, _ => false
  | _, NaN => false
  | NInf, _ => true
  | _, PInf => true
  | Fin a, Fin b => Qle_bool a b
  | _, _ => false
  end.

Definition ge (x y : float) : bool := le y x.

(** [x < y]. *)
Definition lt (x y : float) : bool :=
  match x, y with
  | NaN, _ => false
  | _, NaN => false
  | Fin a, Fin b => negb (Qle_bool b a)
  | NInf, NInf => false
  | NInf, _ => true
  | PInf, _ => false
  | Fin _, PInf => true
  | Fin _, NInf => false
  end.

Definition neg (x : float) : float :=
  match x with
  | NaN => NaN
  | PInf => NInf
  | NInf => PInf
  | Fin a => Fin (- a)
  end.

Definition add (x y : float) : float :=
  match x, y with
  | NaN, _ => NaN
  | _, NaN => NaN
  | PInf, NInf => NaN
  | NInf, PInf => NaN
  | PInf, _ => PInf
  | _, PInf => PInf
  | NInf, _ => NInf
  | _, NInf => NInf
  | Fin a, Fin b => Fin (a + b)
  end.

Definition sub (x y : float) : float := add x (neg y).

Definition abs (x : float) : float :=
  match x with
  | NaN => NaN
  | PInf => PInf
  | NInf => PInf
  | Fin a => Fin (Qabs a)
  end.

(** sign of a finite value, used for the infinite products *)
Definition sgn (a : Q) : comparison := (0 ?= a)%Q.

Definition mul (x y : float) : float :=
  match x, y with
  | NaN, _ => NaN
  | _, NaN => NaN
  | Fin a, Fin b => Fin (a * b)
  | Fin a, PInf | PInf, Fin a =>
      match sgn a with Eq => NaN | Lt => PInf | Gt => NInf end
  | Fin a, NInf | NInf, Fin a =>
      match sgn a with Eq => NaN | Lt => NInf | Gt => PInf end
  | PInf, PInf => PInf
  | NInf, NInf => PInf
  | PInf, NInf => NInf
  | NInf, PInf => NInf
  end.

(** [np.product] of a vector. *)
Definition product (v : list float) : float :=
  fold_left mul v (Fin 1).

(** [np.finfo(float).max]: the largest finite double,
    (2^53 - 1) * 2^971. *)
Definition finfo_max : Q := inject_Z ((2 ^ 53 - 1) * 2 ^ 971).

(** [sum(mask)] of a boolean array. *)
Definition count (m : list bool) : Z :=
  Z.of_nat (length (filter (fun b => b) m)).

(** [a & b] on boolean arrays of one shape. *)
Definition band (a b : list bool) : list bool :=
  map (fun p => fst p && snd p) (combine a b).

(** membership of a value in an array, by numeric equality *)
Definition mem (v : Q) (l : list Q) : bool := existsb (Qeq_bool v) l.

(** [x in arr] for a double [x]: NaN and the infinities equal no
    category. *)
Definition contains (x : float) (l : list Q) : bool :=
  match x with Fin q => mem q l | _ => false end.

(** [np.intersect1d(a, b, assume_unique=True)] for [a] sorted and both
    duplicate-free: the elements of [a] that occur in [b]. *)
Definition intersect1d (a b : list Q) : list Q :=
  filter (fun v => mem v b) a.

(** [np.setdiff1d(a, b)] for [a] sorted and duplicate-free. *)
Definition setdiff1d (a b : list Q) : list Q :=
  filter (fun v => negb (mem v b)) a.

(** [np.in1d(col, s)]. *)
Definition in1d (col : list float) (s : list Q) : list bool :=
  map (fun x => contains x s) col.

(** [np.arange(n)] for a double [n]: 0, 1, ..., ceil(n) - 1. *)
Definition arange (n : Q) : list Q :=
  map (fun k => inject_Z (Z.of_nat k)) (seq 0 (Z.to_nat (Qceiling n))).

(** [np.where(f == dims)[0]]: the positions of [f] in [dims]. *)
Fixpoint where_from (k : nat) (f : nat) (dims : list nat) : list nat :=
  match dims with
  | [] => []
  | d :: dims' =>
      if Nat.eqb f d then k :: where_from (S k) f dims'
      else where_from (S k) f dims'
  end.

Definition where_eq (f : nat) (dims : list nat) : list nat :=
  where_from 0 f dims.

(** [X[:, f]] of a matrix given by its rows. *)
Definition column (f : nat) (X : list (list float)) : result (list float) :=
  mapM (fun row => lookup row f) X.

(** *** The generator behind [np.random] and [np.random.RandomState]

    The Mersenne twister itself is not modelled: a generator state is the
    stream of raw outputs it is going to produce and the position reached
    in it. *)
Record RandomState : Type := mkRandomState {
  raw : nat -> nat;
  pos : nat
}.

Definition next (g : RandomState) : RandomState :=
  {| raw := raw g; pos := S (pos g) |}.

(** a draw from [0, max], both ends included *)
Definition random_interval (max : nat) (g : RandomState) : nat * RandomState :=
  (raw g (pos g) mod S max, next g).

(** [RandomState.random()]: a double in [0, 1) with 53 random bits. *)
Definition random (g : RandomState) : Q * RandomState :=
  (inject_Z (Z.of_nat (raw g (pos g)) mod 2 ^ 53) / inject_Z (2 ^ 53), next g).

(** [x[i], x[j] = x[j], x[i]] *)
Definition swap (i j : nat) (l : list nat) : list nat :=
  map (fun k => if Nat.eqb k i then nth j l 0%nat
                else if Nat.eqb k j then nth i l 0%nat
                else nth k l 0%nat)
      (seq 0 (length l)).

(** [shuffle] of a one-dimensional array:
    [for i in reversed(range(1, n)): j = interval(i); swap x[i], x[j]]. *)
Fixpoint shuffle_from (i : nat) (l : list nat) (g : RandomState)
  : list nat * RandomState :=
  match i with
  | O => (l, g)
  | S i' =>
      let (j, g') := random_interval i g in
      shuffle_from i' (swap i j l) g'
  end.

Definition shuffle (l : list nat) (g : RandomState) : list nat * RandomState :=
  shuffle_from (length l - 1) l g.

(** What an array of integers keeps of a double stored into it: the cast
    truncates towards zero. *)
Definition astype_int (q : Q) : Z :=
  if Qle_bool 0 q then Qfloor q else Qceiling q.

End NP.

Import NP.

(* ================================================================== *)
(** ** The ensemble node view *)

(** A tree of the random forest as the extractor sees it through
    [is_a_leaf], [get_feature_index], [get_num_split_value], [get_cat_split]
    and [get_child_index]: child 0 is the left child, child 1 the right one.
    A cursor [node_indices[i]] is the subtree it points to. *)
Inductive tree : Type :=
| Leaf
| Node (feature_index : nat) (num_split_value : Q) (cat_split : list Q)
       (child0 child1 : tree).

Fixpoint height (t : tree) : nat :=
  match t with
  | Leaf => 0
  | Node _ _ _ l r => S (Nat.max (height l) (height r))
  end.

(* ================================================================== *)
(** ** [subspace_extraction] *)

(** The local variables of [subspace_extraction] that [traverse_forest]
    reads and writes. *)
Record state : Type := mkState {
  node_indices : list tree;
  stop_update : list bool;
  indices_trees : list nat;
  ss_indices : list bool;
  ss_bounds_cont : list (Q * Q);
  ss_bounds_cat : list (list Q)
}.

(** What [subspace_extraction] returns. *)
Record region : Type := mkRegion {
  union_bounds_cont : list (Q * Q);
  union_bounds_cat : list (list Q);
  in_ss_dims : list bool
}.

Definition freeze (i : nat) (st : state) : state :=
  {| node_indices := node_indices st;
     stop_update := set_nth i true (stop_update st);
     indices_trees := indices_trees st;
     ss_indices := ss_indices st;
     ss_bounds_cont := ss_bounds_cont st;
     ss_bounds_cat := ss_bounds_cat st |}.

Definition advance (i : nat) (child : tree) (st : state) : state :=
  {| node_indices := set_nth i child (node_indices st);
     stop_update := stop_update st;
     indices_trees := indices_trees st;
     ss_indices := ss_indices st;
     ss_bounds_cont := ss_bounds_cont st;
     ss_bounds_cat := ss_bounds_cat st |}.

Definition commit_cont (i : nat) (child : tree) (k : nat) (b : Q * Q)
  (m : list bool) (st : state) : state :=
  {| node_indices := set_nth i child (node_indices st);
     stop_update := stop_update st;
     indices_trees := indices_trees st;
     ss_indices := m;
     ss_bounds_cont := set_nth k b (ss_bounds_cont st);
     ss_bounds_cat := ss_bounds_cat st |}.

Definition commit_cat (i : nat) (child : tree) (k : nat) (s : list Q)
  (m : list bool) (st : state) : state :=
  {| node_indices := set_nth i child (node_indices st);
     stop_update := stop_update st;
     indices_trees := indices_trees st;
     ss_indices := m;
     ss_bounds_cont := ss_bounds_cont st;
     ss_bounds_cat := set_nth k s (ss_bounds_cat st) |}.

Definition reset_stop (st : state) : state :=
  {| node_indices := node_indices st;
     stop_update := repeat false (length (stop_update st));
     indices_trees := indices_trees st;
     ss_indices := ss_indices st;
     ss_bounds_cont := ss_bounds_cont st;
     ss_bounds_cat := ss_bounds_cat st |}.

Definition set_order (order : list nat) (st : state) : state :=
  {| node_indices := node_indices st;
     stop_update := stop_update st;
     indices_trees := order;
     ss_indices := ss_indices st;
     ss_bounds_cont := ss_bounds_cont st;
     ss_bounds_cat := ss_bounds_cat st |}.

(** [sum(stop_update) < num_trees] *)
Definition some_running (st : state) : bool :=
  (count (stop_update st) <? Z.of_nat (length (stop_update st)))%Z.

(** [np.array(bounds)]: an array of integers when [bounds] holds integers
    only (a list of tuples of Python ints, or an array of integers), an
    array of doubles otherwise. *)
Inductive bounds_array : Type :=
| IntBounds (rows : list (Z * Z))
| FloatBounds (rows : list (Q * Q)).

(** the rows of the array, by their values *)
Definition bound_rows (b : bounds_array) : list (Q * Q) :=
  match b with
  | IntBounds rows => map (fun p => (inject_Z (fst p), inject_Z (snd p))) rows
  | FloatBounds rows => rows
  end.

Coercion bound_rows : bounds_array >-> list.

(** The arguments of a call, in the order of the Python signature (the
    model is the list of its trees, [bounds] the array [np.array(bounds)]). *)
Record args : Type := mkArgs {
  X : list (list float);
  challenger : list float;
  model : list tree;
  num_min : Z;
  num_max : Z;
  bounds : bounds_array;
  cat_dims : list nat;
  cont_dims : list nat
}.

Section Extractor.

Variable a : args.

(** What [ss_bounds_cont[cont_feature_idx] = temp_bound_ss] leaves of the
    split value in [ss_bounds_cont], which has the type of
    [np.array(bounds)]: the value itself in an array of doubles, its integer
    part in an array of integers.  (The other entry of [temp_bound_ss] was
    read from the same array and is stored back as it is.) *)
Definition assigned (q : Q) : Q :=
  match bounds a with
  | IntBounds _ => inject_Z (astype_int q)
  | FloatBounds _ => q
  end.

(** The body of the [for i in indices_trees] loop of [traverse_forest]
    for one tree index. *)
Definition visit (check_num_min : bool) (i : nat) (st : state) : result state :=
  stop <- lookup (stop_update st) i ;;
  if stop : bool then Ok st else
  node <- lookup (node_indices st) i ;;
  match node with
  | Leaf => Ok (freeze i st)
  | Node feature_idx split_value cat_split_value c0 c1 =>
      match where_eq feature_idx (cont_dims a) with
      | [] =>
          (* a split on a categorical hyperparameter *)
          cat_feature_idx <- lookup (where_eq feature_idx (cat_dims a)) 0 ;;
          cur <- lookup (ss_bounds_cat st) cat_feature_idx ;;
          let intersect := intersect1d cur cat_split_value in
          if Nat.eqb (length intersect) (length cur) then
            Ok (advance i c0 st)
          else if Nat.eqb (length intersect) 0 then
            Ok (advance i c1 st)
          else
            c <- lookup (challenger a) feature_idx ;;
            col <- column feature_idx (X a) ;;
            let '(temp_child, temp_node_indices, temp_bound_ss) :=
              if contains c intersect then
                (c0, band (ss_indices st) (in1d col cat_split_value), intersect)
              else
                (c1, band (ss_indices st) (map negb (in1d col cat_split_value)),
                 setdiff1d cur cat_split_value) in
            if (num_min a <? count temp_node_indices)%Z then
              Ok (commit_cat i temp_child cat_feature_idx temp_bound_ss
                    temp_node_indices st)
            else if check_num_min then Ok (freeze i st)
            else Ok (advance i temp_child st)
      | [cont_feature_idx] =>
          (* a split on a continuous hyperparameter *)
          b <- lookup (ss_bounds_cont st) cont_feature_idx ;;
          if Qle_bool (fst b) split_value && Qle_bool split_value (snd b) then
            c <- lookup (challenger a) feature_idx ;;
            col <- column feature_idx (X a) ;;
            let '(temp_child, temp_node_indices, temp_bound_ss) :=
              if ge c (Fin split_value) then
                (c1,
                 band (ss_indices st) (map (fun x => ge x (Fin split_value)) col),
                 (assigned split_value, snd b))
              else
                (c0,
                 band (ss_indices st) (map (fun x => le x (Fin split_value)) col),
                 (fst b, assigned split_value)) in
            if (num_min a <? count temp_node_indices)%Z then
              Ok (commit_cont i temp_child cont_feature_idx temp_bound_ss
                    temp_node_indices st)
            else if check_num_min then Ok (freeze i st)
            else Ok (advance i temp_child st)
          else
            c <- lookup (challenger a) feature_idx ;;
            Ok (advance i (if ge c (Fin split_value) then c1 else c0) st)
      | _ :: _ :: _ =>
          (* [.item()] of an array with more than one element *)
          Raise ValueError
      end
  end.

Fixpoint visit_all (check_num_min : bool) (order : list nat) (st : state)
  : result state :=
  match order with
  | [] => Ok st
  | i :: order' =>
      st' <- visit check_num_min i st ;;
      visit_all check_num_min order' st'
  end.

(** [traverse_forest(check_num_min)]: reshuffle the visiting order with
    the module-level generator [np.random], then visit every tree. *)
Definition traverse_forest (check_num_min : bool) (st : state)
  (np_random : RandomState) : result state * RandomState :=
  let (order, g) := shuffle (indices_trees st) np_random in
  (visit_all check_num_min order (set_order order st), g).

(** [while sum(stop_update) < num_trees: traverse_forest(check_num_min)] *)
Fixpoint while_running (fuel : nat) (check_num_min : bool) (st : state)
  (np_random : RandomState) : result state * RandomState :=
  if some_running st then
    match fuel with
    | O => (Raise OutOfFuel, np_random)
    | S fuel' =>
        match traverse_forest check_num_min st np_random with
        | (Ok st', g) => while_running fuel' check_num_min st' g
        | (Raise e, g) => (Raise e, g)
        end
    end
  else (Ok st, np_random).

(** The statements before [traverse_forest] is defined. *)
Definition init_state (np_random : RandomState) : result state * RandomState :=
  let num_trees := length (model a) in
  let (order, g) := shuffle (seq 0 num_trees) np_random in
  (cat <- (if Nat.eqb (length (cat_dims a)) 0 then Ok [[]]
           else mapM (fun cat_dim => b <- lookup (bounds a) cat_dim ;;
                                     Ok (arange (fst b))) (cat_dims a)) ;;
   cont <- (if Nat.eqb (length (cont_dims a)) 0 then Ok []
            else mapM (lookup (bounds a)) (cont_dims a)) ;;
   Ok {| node_indices := model a;
         stop_update := repeat false num_trees;
         indices_trees := order;
         ss_indices := repeat true (length (X a));
         ss_bounds_cont := cont;
         ss_bounds_cat := cat |},
   g).

(** Enough passes for either loop: a pass moves every running tree one
    node down or stops it. *)
Definition enough_fuel : nat :=
  list_sum (map (fun t => S (S (height t))) (model a)).

(** Up to the end of the first [while] loop. *)
Definition first_pass (fuel : nat) (np_random : RandomState)
  : result state * RandomState :=
  match init_state np_random with
  | (Ok st, g) => while_running fuel true st g
  | (Raise e, g) => (Raise e, g)
  end.

(** From [if sum(ss_indices) > num_max] to the end of the second loop. *)
Definition second_pass (fuel : nat) (st : state) (np_random : RandomState)
  : result state * RandomState :=
  if (num_max a <? count (ss_indices st))%Z then
    while_running fuel false (reset_stop st) np_random
  else (Ok st, np_random).

Definition to_region (st : state) : region :=
  {| union_bounds_cont := ss_bounds_cont st;
     union_bounds_cat := ss_bounds_cat st;
     in_ss_dims := ss_indices st |}.

Definition subspace_extraction_fuel (fuel : nat) (np_random : RandomState)
  : result region * RandomState :=
  match first_pass fuel np_random with
  | (Ok st, g) =>
      match second_pass fuel st g with
      | (Ok st', g') => (Ok (to_region st'), g')
      | (Raise e, g') => (Raise e, g')
      end
  | (Raise e, g) => (Raise e, g)
  end.

(** [subspace_extraction(X, challenger, model, num_min, num_max, bounds,
    cat_dims, cont_dims)], run on the state of [np.random]. *)
Definition subspace_extraction (np_random : RandomState)
  : result region * RandomState :=
  subspace_extraction_fuel enough_fuel np_random.

End Extractor.

(* ================================================================== *)
(** ** Small numpy helpers of the chooser *)

(** [l[-1:]] *)
Definition last1 {A : Type} (l : list A) : list A := skipn (length l - 1) l.

(** [l[-1]] *)
Definition last_item {A : Type} (l : list A) : result A :=
  match l with
  | [] => Raise IndexError
  | _ => lookup l (length l - 1)
  end.

(** [X.shape[-1]] of a matrix given by its rows ([np.empty([0, 0])] has 0). *)
Definition ncols (M : list (list float)) : Z :=
  match M with
  | [] => 0%Z
  | row :: _ => Z.of_nat (length row)
  end.

(** index of the first least (greatest) element, from position [k] on,
    against the best [(i, v)] so far *)
Fixpoint arg_best (better : Q -> Q -> bool) (k i : nat) (v : Q) (l : list Q) : nat :=
  match l with
  | [] => i
  | x :: l' =>
      if better x v then arg_best better (S k) k x l'
      else arg_best better (S k) i v l'
  end.

(** [np.argmin(l)]; an empty array raises. *)
Definition argmin (l : list Q) : result nat :=
  match l with
  | [] => Raise ValueError
  | x :: l' => Ok (arg_best (fun p q => negb (Qle_bool q p)) 1 0 x l')
  end.

(** [np.argmax(l)] *)
Definition argmax (l : list Q) : result nat :=
  match l with
  | [] => Raise ValueError
  | x :: l' => Ok (arg_best (fun p q => negb (Qle_bool p q)) 1 0 x l')
  end.

(** [np.min(l)] *)
Definition np_min (l : list Q) : result Q :=
  i <- argmin l ;; lookup l i.

(** [x - y] on vectors of one shape *)
Definition vsub (x y : list float) : list float :=
  map (fun p => sub (fst p) (snd p)) (combine x y).

(** [M[mask]]: the rows selected by a boolean mask *)
Definition select {A : Type} (M : list A) (mask : list bool) : list A :=
  map fst (filter snd (combine M mask)).

(** [smac.utils.constants.MAXINT], a constant declared outside the files
    modelled here; nothing that is proved depends on its value. *)
Definition MAXINT : Z := (2 ^ 31 - 1)%Z.

(* ================================================================== *)
(** ** The trust-region optimizer, a collaborator *)

Module TuRBOSubSpace.

(** What [choose_next] and [restart_TuRBOinG] use of a [TuRBOSubSpace]
    held in a value of type [T]. *)
Record ops (T : Type) : Type := mkOps {
  (** the constructor, called with the stored keyword arguments,
      [bounds_ss_cont] and [initial_data] *)
  make : list (Q * Q) -> list (list float) * list Q -> T;
  (** [len(init_configs)] *)
  init_configs : T -> nat;
  length : T -> Q;
  length_min : T -> Q;
  ss_y : T -> list Q;
  add_new_observations : T -> list (list float) -> list Q -> T;
  adjust_length : T -> list Q -> T
}.

End TuRBOSubSpace.

(* ================================================================== *)
(** ** [BOinGChooser] *)

(** The calls on collaborators that the claims speak about, newest first. *)
Inductive event : Type :=
| Train            (* self.model.train(X, Y) *)
| RestartTuRBO.    (* a new TuRBOSubSpace built by restart_TuRBOinG *)

(** What a trial hands back to the optimization loop. *)
Inductive candidates : Type :=
| TurboChallengers    (* self.turbo_optimizer.generate_challengers() *)
| RandomSearch (num_points : nat)
                      (* self._random_search.maximize(..., num_points) *)
| RegionSearchTrial.  (* the trial goes on after the empty-data test, with
                         the global model and a BOinG subspace *)

(** The generators other than the chooser's own [rng]. *)
Record world : Type := mkWorld {
  np_random : RandomState;   (* the module-level generator of numpy *)
  cs_random : RandomState    (* the generator of the configuration space *)
}.

(** The arrays [X, Y, Y_raw, X_configurations]. *)
Record data : Type := mkData {
  dX : list (list float);
  dY : list Q;
  dY_raw : list Q;
  dX_configurations : list (list float)
}.

Record chooser (T : Type) : Type := mkChooser {
  rng : RandomState;
  min_samples_model : nat;
  min_configs_local : Z;
  ch_bounds : bounds_array;
  ch_cat_dims : list nat;
  ch_cont_dims : list nat;
  do_switching : bool;
  optimal_value : float;
  optimal_config : option (list float);
  ss_threshold : Q;
  run_TuRBO : bool;
  failcount_BOinG : Z;
  failcount_TurBO : Z;
  turbo_optimizer : T;
  model_trees : list tree;
  currently_considered_budgets : list Q;
  log : list event
}.

Section FieldUpdates.

Variable T : Type.

Definition set_rng (g : RandomState) (c : chooser T) : chooser T :=
  mkChooser g (min_samples_model c) (min_configs_local c) (ch_bounds c)
    (ch_cat_dims c) (ch_cont_dims c) (do_switching c) (optimal_value c)
    (optimal_config c) (ss_threshold c) (run_TuRBO c) (failcount_BOinG c)
    (failcount_TurBO c) (turbo_optimizer c) (model_trees c)
    (currently_considered_budgets c) (log c).

Definition set_optimal_value (v : float) (c : chooser T) : chooser T :=
  mkChooser (rng c) (min_samples_model c) (min_configs_local c) (ch_bounds c)
    (ch_cat_dims c) (ch_cont_dims c) (do_switching c) v
    (optimal_config c) (ss_threshold c) (run_TuRBO c) (failcount_BOinG c)
    (failcount_TurBO c) (turbo_optimizer c) (model_trees c)
    (currently_considered_budgets c) (log c).

Definition set_optimal_config (x : option (list float)) (c : chooser T) : chooser T :=
  mkChooser (rng c) (min_samples_model c) (min_configs_local c) (ch_bounds c)
    (ch_cat_dims c) (ch_cont_dims c) (do_switching c) (optimal_value c)
    x (ss_threshold c) (run_TuRBO c) (failcount_BOinG c)
    (failcount_TurBO c) (turbo_optimizer c) (model_trees c)
    (currently_considered_budgets c) (log c).

Definition set_run_TuRBO (b : bool) (c : chooser T) : chooser T :=
  mkChooser (rng c) (min_samples_model c) (min_configs_local c) (ch_bounds c)
    (ch_cat_dims c) (ch_cont_dims c) (do_switching c) (optimal_value c)
    (optimal_config c) (ss_threshold c) b (failcount_BOinG c)
    (failcount_TurBO c) (turbo_optimizer c) (model_trees c)
    (currently_considered_budgets c) (log c).

Definition set_failcount_BOinG (n : Z) (c : chooser T) : chooser T :=
  mkChooser (rng c) (min_samples_model c) (min_configs_local c) (ch_bounds c)
    (ch_cat_dims c) (ch_cont_dims c) (do_switching c) (optimal_value c)
    (optimal_config c) (ss_threshold c) (run_TuRBO c) n
    (failcount_TurBO c) (turbo_optimizer c) (model_trees c)
    (currently_considered_budgets c) (log c).

Definition set_failcount_TurBO (n : Z) (c : chooser T) : chooser T :=
  mkChooser (rng c) (min_samples_model c) (min_configs_local c) (ch_bounds c)
    (ch_cat_dims c) (ch_cont_dims c) (do_switching c) (optimal_value c)
    (optimal_config c) (ss_threshold c) (run_TuRBO c) (failcount_BOinG c)
    n (turbo_optimizer c) (model_trees c)
    (currently_considered_budgets c) (log c).

Definition set_turbo_optimizer (t : T) (c : chooser T) : chooser T :=
  mkChooser (rng c) (min_samples_model c) (min_configs_local c) (ch_bounds c)
    (ch_cat_dims c) (ch_cont_dims c) (do_switching c) (optimal_value c)
    (optimal_config c) (ss_threshold c) (run_TuRBO c) (failcount_BOinG c)
    (failcount_TurBO c) t (model_trees c)
    (currently_considered_budgets c) (log c).

Definition set_model_trees (m : list tree) (c : chooser T) : chooser T :=
  mkChooser (rng c) (min_samples_model c) (min_configs_local c) (ch_bounds c)
    (ch_cat_dims c) (ch_cont_dims c) (do_switching c) (optimal_value c)
    (optimal_config c) (ss_threshold c) (run_TuRBO c) (failcount_BOinG c)
    (failcount_TurBO c) (turbo_optimizer c) m
    (currently_considered_budgets c) (log c).

Definition set_budgets (bs : list Q) (c : chooser T) : chooser T :=
  mkChooser (rng c) (min_samples_model c) (min_configs_local c) (ch_bounds c)
    (ch_cat_dims c) (ch_cont_dims c) (do_switching c) (optimal_value c)
    (optimal_config c) (ss_threshold c) (run_TuRBO c) (failcount_BOinG c)
    (failcount_TurBO c) (turbo_optimizer c) (model_trees c)
    bs (log c).

Definition log_event (e : event) (c : chooser T) : chooser T :=
  mkChooser (rng c) (min_samples_model c) (min_configs_local c) (ch_bounds c)
    (ch_cat_dims c) (ch_cont_dims c) (do_switching c) (optimal_value c)
    (optimal_config c) (ss_threshold c) (run_TuRBO c) (failcount_BOinG c)
    (failcount_TurBO c) (turbo_optimizer c) (model_trees c)
    (currently_considered_budgets c) (e :: log c).

End FieldUpdates.

Definition Qlt_bool (x y : Q) : bool := negb (Qle_bool y x).

(** [sorted(list(set(l)), reverse=True)]: insertion into a descending list
    without duplicates. *)
Fixpoint insert_desc (b : Q) (l : list Q) : list Q :=
  match l with
  | [] => [b]
  | x :: l' =>
      if Qeq_bool b x then l
      else if Qle_bool x b then b :: l
      else x :: insert_desc b l'
  end.

Definition sorted_budgets (l : list Q) : list Q := fold_right insert_desc [] l.

Definition empty_data : data :=
  {| dX := []; dY := []; dY_raw := []; dX_configurations := [] |}.

(** product of the side lengths of a box:
    [np.product(union_ss[:, :, 1] - union_ss[:, :, 0], axis=1)] for one row *)
Definition volume (b : list (Q * Q)) : Q :=
  fold_left Qmult (map (fun p => snd p - fst p) b) 1.

Section Chooser.

(** *** Collaborators *)
Variable T : Type.
Variable turbo : TuRBOSubSpace.ops T.
(** [self.model.train(X, Y)] followed by [self.model.rf.get_all_trees()] *)
Variable train : list (list float) -> list Q -> list tree.
(** [self.config_space.sample_configuration(n)], arrays of the samples *)
Variable sample_configuration :
  nat -> RandomState -> list (list float) * RandomState.
Variable RunHistory : Type.
(** [run_key.budget for run_key in self.runhistory.data.keys()] *)
Variable run_budgets : RunHistory -> list Q.
(** [self.rh2EPM.transform_with_raw(self.runhistory, budget_subset)] *)
Variable transform_with_raw :
  RunHistory -> list Q -> list (list float) * list Q * list Q.
(** [self.rh2EPM.get_configurations(self.runhistory, budget_subset)] *)
Variable get_configurations : RunHistory -> list Q -> list (list float).

(** The [for b in available_budgets] loop. *)
Fixpoint first_budget (c : chooser T) (rh : RunHistory) (bs : list Q)
  : option (Q * data) :=
  match bs with
  | [] => None
  | b :: bs' =>
      let '(X, Y, Y_raw) := transform_with_raw rh [b] in
      if (min_samples_model c <=? length X)%nat then
        Some (b, {| dX := X; dY := Y; dY_raw := Y_raw;
                    dX_configurations := get_configurations rh [b] |})
      else first_budget c rh bs'
  end.

Definition _collect_all_data_to_train_model (c : chooser T) (rh : RunHistory)
  : chooser T * data :=
  match first_budget c rh (sorted_budgets (run_budgets rh)) with
  | Some (b, d) => (set_budgets [b] c, d)
  | None => (c, empty_data)
  end.

(** The [for sample in rand_samples] loop of [restart_TuRBOinG]. *)
Fixpoint probe (c : chooser T) (X : list (list float))
  (samples : list (list float)) (g : RandomState)
  : result (list region) * RandomState :=
  match samples with
  | [] => (Ok [], g)
  | sample_array :: samples' =>
      match subspace_extraction
              {| X := X; challenger := sample_array; model := model_trees c;
                 num_min := min_configs_local c; num_max := MAXINT;
                 bounds := ch_bounds c; cat_dims := ch_cat_dims c;
                 cont_dims := ch_cont_dims c |} g with
      | (Ok r, g') =>
          match probe c X samples' g' with
          | (Ok rs, g'') => (Ok (r :: rs), g'')
          | (Raise e, g'') => (Raise e, g'')
          end
      | (Raise e, g') => (Raise e, g')
      end
  end.

Definition restart_TuRBOinG (c : chooser T) (d : data) (train_model : bool)
  (w : world) : result (chooser T) * world :=
  let c1 := if train_model
            then log_event Train (set_model_trees (train (dX d) (dY d)) c)
            else c in
  let num_samples := 20%nat in
  let (rand_samples, cs) := sample_configuration num_samples (cs_random w) in
  match probe c1 (dX d) rand_samples (np_random w) with
  | (Ok union, g) =>
      (match ch_cont_dims c1 with
       | [] => Raise IndexError   (* union_ss[:, :, 1] on a 2-d array *)
       | _ :: _ =>
           ss_idx <- argmax (map (fun r => volume (union_bounds_cont r)) union) ;;
           r <- lookup union ss_idx ;;
           let ss_turbo := union_bounds_cont r in
           let ss_data_indices := in_ss_dims r in
           let Xs := select (dX d) ss_data_indices in
           let Ys := select (dY_raw d) ss_data_indices in
           let t := TuRBOSubSpace.make turbo ss_turbo (Xs, Ys) in
           let t := TuRBOSubSpace.add_new_observations turbo t Xs Ys in
           Ok (log_event RestartTuRBO (set_turbo_optimizer t c1))
       end,
       {| np_random := g; cs_random := cs |})
  | (Raise e, g) => (Raise e, {| np_random := g; cs_random := cs |})
  end.

(** The lines of [choose_next] from [increment = optimal_turbo -
    self.optimal_value] to [self.failcount_TurBO += 1]: the test for a
    qualifying improvement of an exhausted trust region. *)
Definition qualifying_improvement (c : chooser T) (d : data) (optimal_turbo : Q)
  : result (chooser T) :=
  let increment := sub (Fin optimal_turbo) (optimal_value c) in
  if lt increment (Fin 0) then
    min_idx <- argmin (dY_raw d) ;;
    y <- lookup (dY_raw d) min_idx ;;
    let c1 := set_optimal_value (Fin y) c in
    x <- lookup (dX d) min_idx ;;
    old <- match optimal_config c1 with
           | Some v => Ok v
           | None => Raise TypeError
           end ;;
    let cfg_diff := vsub x old in
    let c2 := set_optimal_config (Some x) c1 in
    if lt increment (mul (Fin (- (1 # 1000))) (abs (optimal_value c2)))
       || ge (abs (product cfg_diff)) (Fin (ss_threshold c2))
    then
      let c3 := set_failcount_TurBO (failcount_TurBO c2 - 1) c2 in
      let c4 := set_failcount_BOinG (failcount_BOinG c3 / 2) c3 in
      Ok (set_run_TuRBO false c4)
    else Ok c2
  else Ok (set_failcount_TurBO (failcount_TurBO c + 1) c).

(** [self.turbo_optimizer.add_new_observations(X[-1:], Y_raw[-1:])] *)
Definition add_latest (c : chooser T) (d : data) : chooser T :=
  set_turbo_optimizer
    (TuRBOSubSpace.add_new_observations turbo (turbo_optimizer c)
       (last1 (dX d)) (last1 (dY_raw d))) c.

(** The body of [if self.turbo_optimizer.length < self.turbo_optimizer.length_min]. *)
Definition exhausted_trial (c : chooser T) (d : data) (w : world)
  : result (chooser T * candidates) * world :=
  match (optimal_turbo <- np_min (TuRBOSubSpace.ss_y turbo (turbo_optimizer c)) ;;
         qualifying_improvement c d optimal_turbo) with
  | Raise e => (Raise e, w)
  | Ok c1 =>
      let prob_to_BOinG := (1 # 10) * inject_Z (failcount_TurBO c1) in
      let (rand_value, g) := random (rng c1) in
      let c2 := set_rng g c1 in
      if Qlt_bool rand_value prob_to_BOinG then
        let c3 := set_failcount_BOinG (failcount_BOinG c2 / 2) c2 in
        let c4 := set_run_TuRBO false c3 in
        (Ok (add_latest c4 d, TurboChallengers), w)
      else
        match restart_TuRBOinG c2 d true w with
        | (Ok c3, w') => (Ok (c3, TurboChallengers), w')
        | (Raise e, w') => (Raise e, w')
        end
  end.

(** The body of [if self.run_TuRBO]. *)
Definition turbo_trial (c0 : chooser T) (rh : RunHistory) (w : world)
  : result (chooser T * candidates) * world :=
  let (c, d) := _collect_all_data_to_train_model c0 rh in
  let new_observations := last1 (dY_raw d) in
  if (0 <? TuRBOSubSpace.init_configs turbo (turbo_optimizer c))%nat then
    (Ok (add_latest c d, TurboChallengers), w)
  else
    let c := set_turbo_optimizer
               (TuRBOSubSpace.adjust_length turbo (turbo_optimizer c)
                  new_observations) c in
    if Qlt_bool (TuRBOSubSpace.length turbo (turbo_optimizer c))
                (TuRBOSubSpace.length_min turbo (turbo_optimizer c))
    then exhausted_trial c d w
    else (Ok (add_latest c d, TurboChallengers), w).

(** [choose_next] up to the test [X.shape[0] == 0]; what follows that test
    is the region-search trial. *)
Definition choose_next (c0 : chooser T) (rh : RunHistory)
  (incumbent_value : option Q) (w : world)
  : result (chooser T * candidates) * world :=
  let (c, d) := _collect_all_data_to_train_model c0 rh in
  if do_switching c && run_TuRBO c then turbo_trial c rh w
  else if Nat.eqb (length (dX d)) 0 then (Ok (c, RandomSearch 1), w)
  else (Ok (c, RegionSearchTrial), w).

(** The block [if self.do_switching] of the region-search trial: the
    same improvement test, made before [optimal_value] is overwritten. *)
Definition region_search_switching (c : chooser T) (d : data) (w : world)
  : result (chooser T) * world :=
  let c := set_failcount_BOinG (failcount_BOinG c + 1) c in
  match
    (y_last <- last_item (dY_raw d) ;;
     let increment := sub (Fin y_last) (optimal_value c) in
     if lt increment (Fin 0) then
       match optimal_config c with
       | Some old =>
           x_last <- last_item (dX d) ;;
           let cfg_diff := vsub x_last old in
           let c1 :=
             if lt increment (mul (Fin (- (1 # 100))) (abs (optimal_value c)))
                || ge (abs (product cfg_diff)) (Fin (ss_threshold c))
             then set_failcount_BOinG (failcount_BOinG c - ncols (dX d)) c
             else c in
           Ok (set_optimal_config (Some x_last) (set_optimal_value (Fin y_last) c1))
       | None =>
           idx_min <- argmin (dY_raw d) ;;
           y <- lookup (dY_raw d) idx_min ;;
           x <- lookup (dX d) idx_min ;;
           Ok (set_failcount_BOinG 0
                 (set_optimal_config (Some x) (set_optimal_value (Fin y) c)))
       end
     else Ok c) with
  | Raise e => (Raise e, w)
  | Ok c =>
      if (ncols (dX d) =? 0)%Z then (Raise ZeroDivisionError, w)
      else
        let amplify_param := (failcount_BOinG c / ncols (dX d))%Z in
        if (failcount_BOinG c mod ncols (dX d) =? 0)%Z then
          let prob_to_TurBO := (1 # 10) * inject_Z amplify_param in
          let (rand_value, g) := random (rng c) in
          let c := set_rng g c in
          if Qlt_bool rand_value prob_to_TurBO then
            let c := set_run_TuRBO true c in
            let c := set_failcount_TurBO (failcount_TurBO c / 2) c in
            restart_TuRBOinG c d false w
          else (Ok c, w)
        else (Ok c, w)
  end.

End Chooser.

(* ================================================================== *)
(** ** [AbstractAcquisitionFunction] *)

Module AbstractAcquisitionFunction.

(** What [convert_configurations_to_array] can return: a vector or a
    matrix given by its rows. *)
Inductive ndarray : Type :=
| Array1 (v : list float)
| Array2 (rows : list (list float)).

Section Call.

Variable Configuration : Type.
Variable convert_configurations_to_array : list Configuration -> ndarray.
(** the abstract method: from the matrix of the points, shape [N, D], to
    the matrix of acquisition values, one row for each point *)
Variable _compute : list (list float) -> list (list float).

(** [np.where(np.isnan(acq))[0]] selects the rows that hold a NaN, and
    [acq[idx, :] = -np.finfo(float).max] overwrites them whole. *)
Definition __call__ (configurations : list Configuration)
  : list (list float) :=
  let X := match convert_configurations_to_array configurations with
           | Array1 v => [v]
           | Array2 rows => rows
           end in
  let acq := _compute X in
  if existsb (existsb isnan) acq then
    map (fun row => if existsb isnan row
                    then map (fun _ => Fin (- finfo_max)) row
                    else row) acq
  else acq.

End Call.

End AbstractAcquisitionFunction.

(* ================================================================== *)
(** ** Notions used to state the properties of the extractor *)

(** [lo <= x <= hi] *)
Definition in_interval (x : float) (b : Q * Q) : bool :=
  le (Fin (fst b)) x && le x (Fin (snd b)).

(** A row of [X] lies inside a region: on every continuous dimension inside
    the interval, on every categorical dimension in the retained set. *)
Definition row_in_region (a : args) (bcont : list (Q * Q))
  (bcat : list (list Q)) (row : list float) : bool :=
  forallb (fun p => in_interval (nth (fst p) row NaN) (snd p))
          (combine (cont_dims a) bcont)
  && forallb (fun p => contains (nth (fst p) row NaN) (snd p))
             (combine (cat_dims a) bcat).

(** The full-space bound of each continuous dimension: [bounds[cont_dims]]. *)
Definition full_bounds_cont (a : args) : list (Q * Q) :=
  map (fun d => nth d (bounds a) (0, 0)) (cont_dims a).

(** The full domain of each categorical dimension:
    [np.arange(bounds[cat_dim][0])]. *)
Definition full_bounds_cat (a : args) : list (list Q) :=
  map (fun d => arange (fst (nth d (bounds a) (0, 0)))) (cat_dims a).

Definition sub_interval (full b : Q * Q) : Prop :=
  fst full <= fst b /\ snd b <= snd full.

(** [np.array(bounds)] is an array of doubles. *)
Definition float_bounds (a : args) : bool :=
  match bounds a with
  | FloatBounds _ => true
  | IntBounds _ => false
  end.

(** A value that an array of the type of [np.array(bounds)] holds as it is:
    any value in an array of doubles, an integer in an array of integers. *)
Definition holds (a : args) (q : Q) : Prop := assigned a q = q.

(** [ss_bounds_cont] holds values of its type. *)
Definition typed (a : args) (st : state) : Prop :=
  Forall (fun b => holds a (fst b) /\ holds a (snd b)) (ss_bounds_cont st).

(** One execution of the loop body of [traverse_forest], by its effect. *)
Inductive step (a : args) (i : nat) (st : state) : state -> Prop :=
| step_skip
    (Hstop : nth_error (stop_update st) i = Some true) :
    step a i st st
| step_freeze t
    (Hstop : nth_error (stop_update st) i = Some false)
    (Hnode : nth_error (node_indices st) i = Some t) :
    step a i st (freeze i st)
| step_advance f s cs c0 c1 child
    (Hstop : nth_error (stop_update st) i = Some false)
    (Hnode : nth_error (node_indices st) i = Some (Node f s cs c0 c1))
    (Hchild : child = c0 \/ child = c1) :
    step a i st (advance i child st)
| step_cont f s cs c0 c1 child k lo hi b' cond
    (Hstop : nth_error (stop_update st) i = Some false)
    (Hnode : nth_error (node_indices st) i = Some (Node f s cs c0 c1))
    (Hchild : child = c0 \/ child = c1)
    (Hdim : nth_error (cont_dims a) k = Some f)
    (Hbound : nth_error (ss_bounds_cont st) k = Some (lo, hi))
    (Hlo : lo <= s) (Hhi : s <= hi)
    (Hside : (b' = (assigned a s, hi) /\ cond = (fun x => ge x (Fin s)))
             \/ (b' = (lo, assigned a s) /\ cond = (fun x => le x (Fin s))))
    (Hcount : (num_min a <
                 count (band (ss_indices st)
                          (map (fun row => cond (nth f row NaN)) (X a))))%Z) :
    step a i st
      (commit_cont i child k b'
         (band (ss_indices st) (map (fun row => cond (nth f row NaN)) (X a)))
         st)
| step_cat f s cs c0 c1 child k cur r' cond
    (Hstop : nth_error (stop_update st) i = Some false)
    (Hnode : nth_error (node_indices st) i = Some (Node f s cs c0 c1))
    (Hchild : child = c0 \/ child = c1)
    (Hdim : nth_error (cat_dims a) k = Some f)
    (Hbound : nth_error (ss_bounds_cat st) k = Some cur)
    (Hside : (r' = intersect1d cur cs /\ cond = (fun x => contains x cs))
             \/ (r' = setdiff1d cur cs
                 /\ cond = (fun x => negb (contains x cs))))
    (Hnonempty : r' <> [])
    (Hcount : (num_min a <
                 count (band (ss_indices st)
                          (map (fun row => cond (nth f row NaN)) (X a))))%Z) :
    step a i st
      (commit_cat i child k r'
         (band (ss_indices st) (map (fun row => cond (nth f row NaN)) (X a)))
         st).

(** A property of the extractor's variables that no part of the two loops
    breaks. *)
Record stable (a : args) (P : state -> Prop) : Prop := mkStable {
  stable_step : forall i st st', P st -> step a i st st' -> P st';
  stable_order : forall order st, P st -> P (set_order order st);
  stable_reset : forall st, P st -> P (reset_stop st)
}.

(** *** How the stored region and the mask change

    The stored region ([ss_bounds_cont], [ss_bounds_cat]) and the mask are
    as they were. *)
Definition unchanged (st st' : state) : Prop :=
  ss_bounds_cont st' = ss_bounds_cont st
  /\ ss_bounds_cat st' = ss_bounds_cat st
  /\ ss_indices st' = ss_indices st.

(** A committed shrink.  One interval is cut at a split value that lies
    inside it (what the array keeps of the split value becomes its lower or
    its upper end), or one retained set is cut by a split set; the mask is
    narrowed to its members on the side that is kept; and more than
    [num_min] members are left. *)
Inductive shrink (a : args) (st st' : state) : Prop :=
| shrink_cont k f s lo hi b' cond
    (Hdim : nth_error (cont_dims a) k = Some f)
    (Hbound : nth_error (ss_bounds_cont st) k = Some (lo, hi))
    (Hlo : lo <= s) (Hhi : s <= hi)
    (Hside : (b' = (assigned a s, hi) /\ cond = (fun x => ge x (Fin s)))
             \/ (b' = (lo, assigned a s) /\ cond = (fun x => le x (Fin s))))
    (Hcont : ss_bounds_cont st' = set_nth k b' (ss_bounds_cont st))
    (Hcat : ss_bounds_cat st' = ss_bounds_cat st)
    (Hmask : ss_indices st'
             = band (ss_indices st)
                 (map (fun row => cond (nth f row NaN)) (X a)))
    (Hcount : (num_min a < count (ss_indices st'))%Z)
| shrink_cat k f cs cur r' cond
    (Hdim : nth_error (cat_dims a) k = Some f)
    (Hbound : nth_error (ss_bounds_cat st) k = Some cur)
    (Hside : (r' = intersect1d cur cs /\ cond = (fun x => contains x cs))
             \/ (r' = setdiff1d cur cs
                 /\ cond = (fun x => negb (contains x cs))))
    (Hcont : ss_bounds_cont st' = ss_bounds_cont st)
    (Hcat : ss_bounds_cat st' = set_nth k r' (ss_bounds_cat st))
    (Hmask : ss_indices st'
             = band (ss_indices st)
                 (map (fun row => cond (nth f row NaN)) (X a)))
    (Hcount : (num_min a < count (ss_indices st'))%Z).

(** Region and mask change only together: they stay as they were, or one
    shrink is committed on both. *)
Definition together (a : args) (st st' : state) : Prop :=
  unchanged st st' \/ shrink a st st'.

(** what a sequence of such changes leads to *)
Inductive shrunk (a : args) (st : state) : state -> Prop :=
| shrunk_refl : shrunk a st st
| shrunk_step st1 st2 :
    shrunk a st st1 -> together a st1 st2 -> shrunk a st st2.

(** *** Well-formed calls

    Every split feature is a column of [X] and an entry of [challenger], and
    belongs to exactly one continuous dimension or to a categorical one; the
    dimensions are rows of [bounds]. *)
Definition feature_ok (a : args) (f : nat) : bool :=
  (f <? length (challenger a))%nat
  && forallb (fun row => (f <? length row)%nat) (X a)
  && match where_eq f (cont_dims a) with
     | [] => negb (Nat.eqb (length (where_eq f (cat_dims a))) 0)
     | [_] => true
     | _ :: _ :: _ => false
     end.

Fixpoint wf_tree (a : args) (t : tree) : bool :=
  match t with
  | Leaf => true
  | Node f _ _ c0 c1 => feature_ok a f && wf_tree a c0 && wf_tree a c1
  end.

Definition wf_args (a : args) : bool :=
  forallb (wf_tree a) (model a)
  && forallb (fun d => (d <? length (bounds a))%nat) (cont_dims a)
  && forallb (fun d => (d <? length (bounds a))%nat) (cat_dims a).

(** Every row of [X] lies in the full space. *)
Definition rows_in_full_space (a : args) : bool :=
  forallb (row_in_region a (full_bounds_cont a) (full_bounds_cat a)) (X a).

(** The shape of the extractor's variables. *)
Definition shaped (a : args) (st : state) : Prop :=
  length (node_indices st) = length (model a)
  /\ length (stop_update st) = length (model a)
  /\ Forall (fun t => wf_tree a t = true) (node_indices st)
  /\ length (ss_bounds_cont st) = length (cont_dims a)
  /\ (length (cat_dims a) <= length (ss_bounds_cat st))%nat.

(** [indices_trees] holds the indices of all the trees. *)
Definition covers (a : args) (st : state) : Prop :=
  forall i, In i (indices_trees st) <-> (i < length (model a))%nat.

(** Passes still to come are bounded by the nodes below the cursors plus
    the trees still running. *)
Definition below (st : state) : nat :=
  list_sum (map (fun t => S (height t)) (node_indices st)).

Definition running (st : state) : nat :=
  list_sum (map (fun b : bool => if b then 0 else 1)%nat (stop_update st)).

Definition retained_ok (dom r : list Q) : Prop :=
  incl r dom /\ (dom <> [] -> r <> []).

(* ================================================================== *)
(** ** Concrete calls *)

Module Examples.

(** Two states of a generator: one that always yields 0, one that counts. *)
Definition g0 : RandomState := {| raw := fun _ => 0%nat; pos := 0 |}.
Definition g1 : RandomState := {| raw := fun n => n; pos := 0 |}.

(** the double [n / d] *)
Definition F (n : Z) (d : positive) : float := Fin (n # d).

(** a tree with one split on a continuous feature and two leaves *)
Definition stump (f : nat) (s : Q) : tree := Node f s [] Leaf Leaf.

(** A categorical dimension with three values and a continuous one; every
    row lies in the full space. *)
Definition a_mixed : args :=
  {| X := [[F 0 1; F 1 10]; [F 1 1; F 9 10]; [F 2 1; F 1 10]; [F 2 1; F 9 10]];
     challenger := [F 2 1; F 9 10];
     model := [Node 0 0 [0; 1] Leaf Leaf; stump 1 (1 # 2)];
     num_min := 1; num_max := 100;
     bounds := FloatBounds [(3, 0); (0, 1)];
     cat_dims := [0%nat]; cont_dims := [1%nat] |}.

(** Two continuous dimensions; the first row has its second
    hyperparameter inactive, the second row lies outside the bounds. *)
Definition a_outside : args :=
  {| X := [[F 8 10; NaN]; [F 7 10; F 15 10]; [F 9 10; F 5 10];
           [F 2 10; F 3 10]];
     challenger := [F 9 10; F 4 10];
     model := [stump 0 (1 # 2)];
     num_min := 1; num_max := MAXINT;
     bounds := FloatBounds [(0, 1); (0, 1)];
     cat_dims := []; cont_dims := [0%nat; 1%nat] |}.

(** Five points on a line, one split with two points on the side of the
    challenger, [num_min = 2] and [num_max = 3]. *)
Definition a_max : args :=
  {| X := [[F 1 10]; [F 2 10]; [F 3 10]; [F 6 10]; [F 9 10]];
     challenger := [F 9 10];
     model := [stump 0 (1 # 2)];
     num_min := 2; num_max := 3;
     bounds := FloatBounds [(0, 1)];
     cat_dims := []; cont_dims := [0%nat] |}.

(** A tree whose root cannot be committed in the first pass and whose
    right child can be in the second. *)
Definition a_second : args :=
  {| X := [[F 1 10; F 9 10]; [F 2 10; F 8 10]; [F 3 10; F 7 10];
           [F 9 10; F 6 10]];
     challenger := [F 9 10; F 9 10];
     model := [Node 0 (1 # 2) [] Leaf (stump 1 (65 # 100))];
     num_min := 1; num_max := 2;
     bounds := FloatBounds [(0, 1); (0, 1)];
     cat_dims := []; cont_dims := [0%nat; 1%nat] |}.

(** [num_min = 1 > num_max = 0]. *)
Definition a_inverted : args :=
  {| X := [[F 1 10]; [F 2 10]; [F 6 10]; [F 9 10]];
     challenger := [F 9 10];
     model := [stump 0 (1 # 2)];
     num_min := 1; num_max := 0;
     bounds := FloatBounds [(0, 1)];
     cat_dims := []; cont_dims := [0%nat] |}.

(** More points asked for than there are. *)
Definition a_few : args :=
  {| X := [[F 1 10]; [F 2 10]; [F 6 10]; [F 9 10]];
     challenger := [F 9 10];
     model := [stump 0 (1 # 2)];
     num_min := 4; num_max := MAXINT;
     bounds := FloatBounds [(0, 1)];
     cat_dims := []; cont_dims := [0%nat] |}.

(** Two trees, each able to halve one dimension; only one of the two
    shrinks keeps more than [num_min] points. *)
Definition a_order : args :=
  {| X := [[F 1 10; F 1 10]; [F 1 10; F 9 10]; [F 9 10; F 1 10];
           [F 9 10; F 9 10]];
     challenger := [F 9 10; F 9 10];
     model := [stump 0 (1 # 2); stump 1 (1 # 2)];
     num_min := 1; num_max := 100;
     bounds := FloatBounds [(0, 1); (0, 1)];
     cat_dims := []; cont_dims := [0%nat; 1%nat] |}.

End Examples.

(* ================================================================== *)
(** ** The qualifying-improvement test in the words of the specification *)

(** From the specification: the improvement is negative and either the
    relative improvement exceeds a fixed fraction of the previous best (the
    value of [best_value_seen] held before this trial's update), or the new
    best point differs from the old one by at least [ss_threshold] in the
    absolute value of the product of the coordinate differences.  The
    fraction is the one of the code, one thousandth. *)
Definition spec_qualifying_test (previous_best : float) (ss_threshold : Q)
  (improvement : float) (old_point new_point : list float) : bool :=
  lt improvement (Fin 0)
  && (lt improvement (mul (Fin (- (1 # 1000))) (abs previous_best))
      || ge (abs (product (vsub new_point old_point))) (Fin ss_threshold)).

(* ================================================================== *)
(** ** Concrete collaborators and trials *)

Module Trials.

Import Examples.

(** A trust-region optimizer reduced to what the chooser reads: it halves
    its length at every adjustment and records the values it is given. *)
Record toy : Type := mkToy {
  toy_init_configs : nat;
  toy_length : Q;
  toy_length_min : Q;
  toy_ss_y : list Q
}.

Definition toy_ops : TuRBOSubSpace.ops toy :=
  {| TuRBOSubSpace.make := fun _ d =>
       {| toy_init_configs := 0; toy_length := 8 # 10;
          toy_length_min := 2 # 10000; toy_ss_y := snd d |};
     TuRBOSubSpace.init_configs := toy_init_configs;
     TuRBOSubSpace.length := toy_length;
     TuRBOSubSpace.length_min := toy_length_min;
     TuRBOSubSpace.ss_y := toy_ss_y;
     TuRBOSubSpace.add_new_observations := fun t _ ys =>
       {| toy_init_configs := toy_init_configs t; toy_length := toy_length t;
          toy_length_min := toy_length_min t; toy_ss_y := toy_ss_y t ++ ys |};
     TuRBOSubSpace.adjust_length := fun t _ =>
       {| toy_init_configs := toy_init_configs t;
          toy_length := toy_length t / 2;
          toy_length_min := toy_length_min t; toy_ss_y := toy_ss_y t |} |}.

(** a forest that does not depend on the data *)
Definition toy_train (_ : list (list float)) (_ : list Q) : list tree :=
  [stump 0 (1 # 2)].

(** a configuration space that always samples the same point *)
Definition toy_sample (n : nat) (g : RandomState)
  : list (list float) * RandomState :=
  (repeat [F 9 10; F 9 10] n, next g).

(** A run history as the list of its runs: array, cost, budget. *)
Definition toy_history : Type := list (list float * Q * Q).

Definition toy_budgets (rh : toy_history) : list Q := map snd rh.

Definition toy_runs (rh : toy_history) (budget_subset : list Q) : toy_history :=
  filter (fun run => mem (snd run) budget_subset) rh.

Definition toy_transform (rh : toy_history) (budget_subset : list Q)
  : list (list float) * list Q * list Q :=
  (map (fun run => fst (fst run)) (toy_runs rh budget_subset),
   map (fun run => snd (fst run)) (toy_runs rh budget_subset),
   map (fun run => snd (fst run)) (toy_runs rh budget_subset)).

Definition toy_configurations (rh : toy_history) (budget_subset : list Q)
  : list (list float) :=
  map (fun run => fst (fst run)) (toy_runs rh budget_subset).

(** Two runs at one budget; the second, the latest, is the best. *)
Definition rh_two : toy_history :=
  [([F 5 10; F 5 10], 2001 # 2, 0); ([F 5 10; F 6 10], 1999 # 2, 0)].

Definition d_two : data :=
  {| dX := [[F 5 10; F 5 10]; [F 5 10; F 6 10]];
     dY := [2001 # 2; 1999 # 2];
     dY_raw := [2001 # 2; 1999 # 2];
     dX_configurations := [[F 5 10; F 5 10]; [F 5 10; F 6 10]] |}.

(** A chooser in trust-region mode: best value seen 1000.5 at the first
    point, no failure counted for the trust region, four for the region
    search, and a trust region that the next adjustment exhausts; its
    optimizer has seen the value 999.5. *)
Definition c_turbo : chooser toy :=
  {| rng := g0;
     min_samples_model := 1;
     min_configs_local := 1;
     ch_bounds := FloatBounds [(0, 1); (0, 1)];
     ch_cat_dims := [];
     ch_cont_dims := [0%nat; 1%nat];
     do_switching := true;
     optimal_value := Fin (2001 # 2);
     optimal_config := Some [F 5 10; F 5 10];
     ss_threshold := 1 # 100;
     run_TuRBO := true;
     failcount_BOinG := 4;
     failcount_TurBO := 0;
     turbo_optimizer :=
       {| toy_init_configs := 0; toy_length := 3 # 10000;
          toy_length_min := 2 # 10000; toy_ss_y := [2001 # 2; 1999 # 2] |};
     model_trees := [stump 0 (1 # 2)];
     currently_considered_budgets := [];
     log := [] |}.

(** The same chooser with the trust-region optimizer already adjusted. *)
Definition c_exhausted : chooser toy :=
  set_turbo_optimizer
    (TuRBOSubSpace.adjust_length toy_ops (turbo_optimizer c_turbo) [1999 # 2])
    (set_budgets [0] c_turbo).

(** A chooser that does not switch and asks for two runs at a budget. *)
Definition c_plain : chooser toy :=
  {| rng := g0;
     min_samples_model := 2;
     min_configs_local := 1;
     ch_bounds := FloatBounds [(0, 1); (0, 1)];
     ch_cat_dims := [];
     ch_cont_dims := [0%nat; 1%nat];
     do_switching := false;
     optimal_value := PInf;
     optimal_config := None;
     ss_threshold := 1 # 100;
     run_TuRBO := false;
     failcount_BOinG := 0;
     failcount_TurBO := 0;
     turbo_optimizer :=
       {| toy_init_configs := 0; toy_length := 8 # 10;
          toy_length_min := 2 # 10000; toy_ss_y := [] |};
     model_trees := [];
     currently_considered_budgets := [];
     log := [] |}.

(** One run at each of two budgets. *)
Definition rh_sparse : toy_history :=
  [([F 5 10; F 5 10], 3, 1); ([F 5 10; F 6 10], 2, 9)].

Definition w0 : world := {| np_random := g0; cs_random := g0 |}.

End Trials.

Module RegionTrials.

Import Examples Trials.

(** A chooser in region-search mode whose best value seen is 100.5 at the
    first point. *)
Definition c_region : chooser toy :=
  set_optimal_value (Fin (201 # 2)) (set_run_TuRBO false
    (set_failcount_BOinG 0 c_turbo)).

(** The latest run, at the second point, costs 99.5. *)
Definition d_region : data :=
  {| dX := [[F 5 10; F 5 10]; [F 5 10; F 6 10]];
     dY := [201 # 2; 199 # 2];
     dY_raw := [201 # 2; 199 # 2];
     dX_configurations := [[F 5 10; F 5 10]; [F 5 10; F 6 10]] |}.

End RegionTrials.

(** More concrete calls. *)
Module MoreExamples.

Import Examples.

(** One continuous dimension, and a tree that splits on feature 1, which
    belongs to neither list of dimensions. *)
Definition a_unpartitioned : args :=
  {| X := [[F 1 10; F 1 10]; [F 9 10; F 9 10]];
     challenger := [F 9 10; F 9 10];
     model := [Leaf; stump 1 (1 # 2)];
     num_min := 0; num_max := 100;
     bounds := FloatBounds [(0, 1); (0, 1)];
     cat_dims := []; cont_dims := [0%nat] |}.

(** A forest that has learnt nothing: every tree is a leaf. *)
Definition a_leaves : args :=
  {| X := [[F 1 10; F 1 10]; [F 9 10; F 9 10]; [F 5 10; NaN]];
     challenger := [F 9 10; F 9 10];
     model := [Leaf; Leaf; Leaf];
     num_min := 1; num_max := 2;
     bounds := FloatBounds [(0, 1); (0, 1)];
     cat_dims := []; cont_dims := [0%nat; 1%nat] |}.

(** Bounds given as Python integers, so that [np.array(bounds)] is an array
    of integers; the challenger lies above the only split value. *)
Definition a_integer : args :=
  {| X := [[F 1 10]; [F 2 10]; [F 6 10]; [F 9 10]];
     challenger := [F 9 10];
     model := [stump 0 (1 # 2)];
     num_min := 1; num_max := 100;
     bounds := IntBounds [(0, 1)%Z];
     cat_dims := []; cont_dims := [0%nat] |}.

(** The same call with the challenger below the split value. *)
Definition a_integer_low : args :=
  {| X := [[F 1 10]; [F 2 10]; [F 6 10]; [F 9 10]];
     challenger := [F 3 10];
     model := [stump 0 (1 # 2)];
     num_min := 1; num_max := 100;
     bounds := IntBounds [(0, 1)%Z];
     cat_dims := []; cont_dims := [0%nat] |}.

End MoreExamples.

(* ================================================================== *)
(** ** Notions used to state the properties of the chooser *)

(** strictly descending *)
Fixpoint descending (l : list Q) : Prop :=
  match l with
  | [] => True
  | x :: l' => (forall y, In y l' -> y < x) /\ descending l'
  end.

Section CollectNotions.

Variable T : Type.
Variable RunHistory : Type.
Variable transform_with_raw :
  RunHistory -> list Q -> list (list float) * list Q * list Q.
Variable get_configurations : RunHistory -> list Q -> list (list float).

(** the budget [b] alone has [min_samples_model] points *)
Definition enough (c : chooser T) (rh : RunHistory) (b : Q) : Prop :=
  (min_samples_model c <= length (fst (fst (transform_with_raw rh [b]))))%nat.

(** the arrays of the budget [b] *)
Definition data_at (rh : RunHistory) (b : Q) : data :=
  {| dX := fst (fst (transform_with_raw rh [b]));
     dY := snd (fst (transform_with_raw rh [b]));
     dY_raw := snd (transform_with_raw rh [b]);
     dX_configurations := get_configurations rh [b] |}.

End CollectNotions.

(** More concrete trials. *)
Module MoreTrials.

Import Examples Trials RegionTrials.

(** A chooser in trust-region mode whose optimizer still has an initial
    configuration to propose. *)
Definition c_initial : chooser toy :=
  set_turbo_optimizer
    {| toy_init_configs := 1; toy_length := 8 # 10;
       toy_length_min := 2 # 10000; toy_ss_y := [] |} c_turbo.

(** A chooser in trust-region mode that asks for two runs at a budget; its
    optimizer still has an initial configuration to propose. *)
Definition c_sparse : chooser toy :=
  {| rng := g0;
     min_samples_model := 2;
     min_configs_local := 1;
     ch_bounds := FloatBounds [(0, 1); (0, 1)];
     ch_cat_dims := [];
     ch_cont_dims := [0%nat; 1%nat];
     do_switching := true;
     optimal_value := Fin (2001 # 2);
     optimal_config := Some [F 5 10; F 5 10];
     ss_threshold := 1 # 100;
     run_TuRBO := true;
     failcount_BOinG := 4;
     failcount_TurBO := 0;
     turbo_optimizer :=
       {| toy_init_configs := 1; toy_length := 8 # 10;
          toy_length_min := 2 # 10000; toy_ss_y := [] |};
     model_trees := [stump 0 (1 # 2)];
     currently_considered_budgets := [];
     log := [] |}.

End MoreTrials.

(* ================================================================== *)
(** ** The region-search trial of [choose_next]

    The statements of [choose_next] after the test [X.shape[0] == 0]. *)

(** [x == y] on doubles: NaN equals nothing. *)
Definition float_eqb (x y : float) : bool :=
  match x, y with
  | Fin a, Fin b => Qeq_bool a b
  | PInf, PInf => true
  | NInf, NInf => true
  | _, _ => false
  end.

(** [int(q)]: truncation towards zero. *)
Definition int_of (q : Q) : Z :=
  if Qle_bool 0 q then Qfloor q else Qceiling q.

(** [self.frac_to_start_bi], set to 0.8 by [__init__]. *)
Definition frac_to_start_bi : Q := 8 # 10.

(** What the chooser reads of the configuration space and of its own
    settings besides the fields of [chooser]. *)
Record setup : Type := mkSetup {
  (** [self.max_configs_local_fracs] *)
  max_configs_local_fracs : Q;
  (** [len(self.config_space.get_conditions())] *)
  num_conditions : nat;
  (** for each hyperparameter of [get_hyperparameters()], whether it is a
      [NumericalHyperparameter] *)
  hps_numerical : list bool
}.

(** What can stop a trial: an exception of [exn], or the [StopIteration] of
    [next] on an exhausted iterator. *)
Inductive failure : Type :=
| Exception (e : exn)
| StopIteration.

Inductive outcome (A : Type) : Type :=
| Done (v : A)
| Failed (f : failure).
Arguments Done {A} v.
Arguments Failed {A} f.

Definition of_result {A : Type} (r : result A) : outcome A :=
  match r with
  | Ok v => Done v
  | Raise e => Failed (Exception e)
  end.

(** The candidates a region-search trial returns. *)
Inductive proposal : Type :=
| FullSpaceSubspace (X : list (list float)) (Y_raw : list Q)
    (* a BOinGSubspace over the whole space, on all the data *)
| GlobalChallengers (challengers : list (list float))
    (* the challengers of the global acquisition function *)
| LocalSubspace (r : region) (X : list (list float)) (Y_raw : list Q)
    (incumbent_array : list float) (activate_dims : list nat).
    (* a BOinGSubspace on the extracted region *)

(** What the statements between [next(challengers_global)] and the call of
    [subspace_extraction] decide: to hand back the global challengers, or to
    extract with these arguments. *)
Inductive plan : Type :=
| Fallback
| Extract (a : args) (Y_raw : list Q) (activate_dims : list nat).

(** [X.shape[0] < (self.min_configs_local / self.frac_to_start_bi)] *)
Definition too_few (T : Type) (c : chooser T) (d : data) : bool :=
  Qlt_bool (inject_Z (Z.of_nat (length (dX d))))
           (inject_Z (min_configs_local c) / frac_to_start_bi).

(** [num_max] of the call: [MAXINT] unless the fraction of the rows is more
    than twice [min_configs_local]. *)
Definition local_num_max (T : Type) (s : setup) (c : chooser T) (d : data) : Z :=
  let num_max_configs :=
    int_of (inject_Z (Z.of_nat (length (dX d))) * max_configs_local_fracs s) in
  if (num_max_configs <=? 2 * min_configs_local c)%Z then MAXINT
  else num_max_configs.

(** the positions of the finite entries: [np.where(v > 0)[0]] of
    [np.isfinite(...).astype(int)] *)
Fixpoint finite_positions (k : nat) (v : list float) : list nat :=
  match v with
  | [] => []
  | x :: v' =>
      if isfinite x then k :: finite_positions (S k) v'
      else finite_positions (S k) v'
  end.

(** a row has the activity pattern of the challenger:
    [np.all((challanger_activate_hps - rh_activate_hps) == 0, axis=1)] *)
Definition same_hierarchy (challenger row : list float) : bool :=
  forallb (fun p => Bool.eqb (isfinite (fst p)) (isfinite (snd p)))
          (combine challenger row).

(** The loop [for idx_hp in np.where(challanger_activate_hps > 0)[0]]. *)
Fixpoint activate_loop (hps : list bool) (X : list (list float))
  (challenger : list float) (idxs : list nat)
  (activate_dims : list nat) (indices : list bool)
  : result (list nat * list bool) :=
  match idxs with
  | [] => Ok (activate_dims, indices)
  | idx_hp :: idxs' =>
      numerical <- lookup hps idx_hp ;;
      if numerical : bool then
        activate_loop hps X challenger idxs' (activate_dims ++ [idx_hp]) indices
      else
        col <- column idx_hp X ;;
        v <- lookup challenger idx_hp ;;
        activate_loop hps X challenger idxs' activate_dims
          (band indices (map (fun x => float_eqb x v) col))
  end.

Section RegionSearch.

Variable T : Type.
Variable turbo : TuRBOSubSpace.ops T.
Variable train : list (list float) -> list Q -> list tree.
Variable sample_configuration :
  nat -> RandomState -> list (list float) * RandomState.

(** From [num_max_configs = ...] to the arguments of the call of
    [subspace_extraction]. *)
Definition local_plan (s : setup) (c : chooser T) (d : data)
  (first : list float) : result plan :=
  let num_max := local_num_max s c d in
  let extract X Y_raw n_min activate_dims :=
    Extract {| X := X; challenger := first; model := model_trees c;
               num_min := n_min; num_max := num_max;
               bounds := ch_bounds c; cat_dims := ch_cat_dims c;
               cont_dims := ch_cont_dims c |} Y_raw activate_dims in
  if (0 <? num_conditions s)%nat then
    if forallb (fun row => Nat.eqb (length row) (length first)) (dX d) then
      let indices := map (same_hierarchy first) (dX d) in
      if (count indices =? 0)%Z then Ok Fallback
      else
        '(activate_dims, indices) <-
          activate_loop (hps_numerical s) (dX d) first
            (finite_positions 0 first) [] indices ;;
        let num := count indices in
        let X := select (dX d) indices in
        let Y_raw := select (dY_raw d) indices in
        if Nat.eqb (length activate_dims) 0
           || (num <=? Z.max 5 (Z.of_nat (length activate_dims)))%Z
        then Ok Fallback
        else if Nat.eqb (length (hps_numerical s)) 0
        then Raise ZeroDivisionError
        else
          Ok (extract X Y_raw
                (min_configs_local c / Z.of_nat (length (hps_numerical s))
                 * Z.of_nat (length activate_dims))%Z
                activate_dims)
    else Raise ValueError   (* the two activity arrays do not broadcast *)
  else
    Ok (extract (dX d) (dY_raw d) (min_configs_local c)
          (seq 0 (length (hps_numerical s)))).

(** The trial, given what [self.runhistory.empty()] answers and what
    [self.acq_optimizer.maximize] yields in this trial. *)
Definition region_search_trial (s : setup) (c : chooser T) (d : data)
  (incumbent_value : option Q) (runhistory_empty : bool)
  (challengers_global : list (list float)) (w : world)
  : outcome (chooser T * proposal) * world :=
  if too_few c d && Nat.eqb (num_conditions s) 0 then
    (Done (log_event Train (set_model_trees (train (dX d) (dY d)) c),
           FullSpaceSubspace (dX d) (dY_raw d)), w)
  else
    let c := log_event Train (set_model_trees (train (dX d) (dY d)) c) in
    match incumbent_value, runhistory_empty with
    | None, true => (Failed (Exception ValueError), w)
    | _, _ =>
        match (if do_switching c
               then region_search_switching turbo train sample_configuration
                      c d w
               else (Ok c, w)) with
        | (Raise e, w) => (Failed (Exception e), w)
        | (Ok c, w) =>
            if too_few c d && Nat.eqb (num_conditions s) 0 then
              (Done (c, GlobalChallengers challengers_global), w)
            else
              match challengers_global with
              | [] => (Failed StopIteration, w)
              | first :: rest =>
                  match local_plan s c d first with
                  | Raise e => (Failed (Exception e), w)
                  | Ok Fallback =>
                      (Done (c, GlobalChallengers (first :: rest)), w)
                  | Ok (Extract a Y_raw activate_dims) =>
                      match subspace_extraction a (np_random w) with
                      | (Ok r, g) =>
                          (Done (c, LocalSubspace r (X a) Y_raw first
                                      activate_dims),
                           {| np_random := g; cs_random := cs_random w |})
                      | (Raise e, g) =>
                          (Failed (Exception e),
                           {| np_random := g; cs_random := cs_random w |})
                      end
                  end
              end
        end
    end.

End RegionSearch.

(** The settings that no statement of the switching block assigns. *)
Definition same_settings (T : Type) (c c' : chooser T) : Prop :=
  min_configs_local c' = min_configs_local c
  /\ model_trees c' = model_trees c
  /\ do_switching c' = do_switching c
  /\ ch_bounds c' = ch_bounds c
  /\ ch_cat_dims c' = ch_cat_dims c
  /\ ch_cont_dims c' = ch_cont_dims c.

(** Concrete region-search trials. *)
Module LocalTrials.

Import Examples Trials RegionTrials.

(** A search space without conditions, two numerical hyperparameters. *)
Definition s_flat : setup :=
  {| max_configs_local_fracs := 1 # 2; num_conditions := 0;
     hps_numerical := [true; true] |}.

(** A search space with one condition: a categorical hyperparameter, and a
    numerical one that is active for the first category only. *)
Definition s_conditional : setup :=
  {| max_configs_local_fracs := 1 # 2; num_conditions := 1;
     hps_numerical := [false; true] |}.

(** Six runs in the first category, one in the second. *)
Definition d_conditional : data :=
  {| dX := [[F 0 1; F 1 10]; [F 0 1; F 2 10]; [F 0 1; F 3 10];
            [F 0 1; F 6 10]; [F 0 1; F 7 10]; [F 0 1; F 8 10];
            [F 1 1; NaN]];
     dY := [7; 6; 5; 4; 3; 2; 1];
     dY_raw := [7; 6; 5; 4; 3; 2; 1];
     dX_configurations :=
       [[F 0 1; F 1 10]; [F 0 1; F 2 10]; [F 0 1; F 3 10];
        [F 0 1; F 6 10]; [F 0 1; F 7 10]; [F 0 1; F 8 10];
        [F 1 1; NaN]] |}.

(** a challenger of the first category *)
Definition first_active : list float := [F 0 1; F 9 10].

(** a challenger whose second hyperparameter is inactive *)
Definition first_inactive : list float := [F 1 1; NaN].

End LocalTrials.

(* ================================================================== *)
(** ** The dimension lists of [BOinGChooser.__init__] *)

(** [np.where(p(np.array(types)))[0]] *)
Fixpoint where_type (p : nat -> bool) (k : nat) (types : list nat)
  : list nat :=
  match types with
  | [] => []
  | t :: types' =>
      if p t then k :: where_type p (S k) types'
      else where_type p (S k) types'
  end.

(** [self.cat_dims = np.where(np.array(types) != 0)[0]] *)
Definition init_cat_dims (types : list nat) : list nat :=
  where_type (fun t => negb (Nat.eqb t 0)) 0 types.

(** [self.cont_dims = np.where(np.array(types) == 0)[0]] *)
Definition init_cont_dims (types : list nat) : list nat :=
  where_type (fun t => Nat.eqb t 0) 0 types.

(** every split feature of the tree is below [n] *)
Fixpoint features_below (n : nat) (t : tree) : bool :=
  match t with
  | Leaf => true
  | Node f _ _ c0 c1 =>
      (f <? n)%nat && features_below n c0 && features_below n c1
  end.


(* ================================================================== *)
(** * Proofs *)

(** ** Lists, lookups and masks *)

Lemma lookup_Ok {A : Type} (l : list A) (i : nat) (x : A) :
  lookup l i = Ok x <-> nth_error l i = Some x.
Proof.
  unfold lookup. destruct (nth_error l i); split; intro H;
    inversion H; subst; reflexivity.
Qed.

Lemma lookup_lt {A : Type} (l : list A) (i : nat) :
  (i < length l)%nat -> exists x, lookup l i = Ok x.
Proof.
  intro H. unfold lookup. destruct (nth_error l i) eqn:E.
  - eauto.
  - apply nth_error_None in E. lia.
Qed.

Lemma length_set_nth {A : Type} (i : nat) (v : A) (l : list A) :
  length (set_nth i v l) = length l.
Proof.
  revert i. induction l as [|x l IH]; intros [|i]; simpl; auto.
Qed.

Lemma nth_error_set_nth_eq {A : Type} (i : nat) (v : A) (l : list A) :
  (i < length l)%nat -> nth_error (set_nth i v l) i = Some v.
Proof.
  revert i. induction l as [|x l IH]; intros [|i] H; simpl in *;
    try lia; auto. apply IH. lia.
Qed.

Lemma nth_error_set_nth_neq {A : Type} (i j : nat) (v : A) (l : list A) :
  i <> j -> nth_error (set_nth i v l) j = nth_error l j.
Proof.
  revert i j. induction l as [|x l IH]; intros [|i] [|j] H; simpl;
    try reflexivity; try congruence. apply IH. congruence.
Qed.

Lemma Forall_set_nth {A : Type} (P : A -> Prop) (i : nat) (v : A) (l : list A) :
  Forall P l -> P v -> Forall P (set_nth i v l).
Proof.
  intros H Hv. revert i. induction H as [|x l Hx Hl IH]; intros [|i]; simpl;
    constructor; auto.
Qed.

Lemma Forall2_set_nth {A B : Type} (R : A -> B -> Prop) (k : nat) (b' : B)
  (l1 : list A) (l2 : list B) :
  Forall2 R l1 l2 ->
  (forall x b, nth_error l1 k = Some x -> nth_error l2 k = Some b -> R x b -> R x b') ->
  Forall2 R l1 (set_nth k b' l2).
Proof.
  intros H. revert k. induction H as [|x b l1 l2 Hxb Hl IH]; intros [|k] Hk; simpl.
  - constructor.
  - constructor.
  - constructor; [apply (Hk x b); auto | exact Hl].
  - constructor; [exact Hxb|]. apply IH. intros x0 b0 H1 H2. apply Hk; auto.
Qed.

Lemma mapM_Ok_length {A B : Type} (f : A -> result B) (l : list A) (r : list B) :
  mapM f l = Ok r -> length r = length l.
Proof.
  revert r. induction l as [|x l IH]; simpl; intros r H.
  - inversion H. reflexivity.
  - destruct (f x); simpl in H; try discriminate.
    destruct (mapM f l); simpl in H; try discriminate.
    inversion H; subst. simpl. f_equal. apply IH. reflexivity.
Qed.

Lemma mapM_total {A B : Type} (f : A -> result B) (l : list A) :
  Forall (fun x => exists b, f x = Ok b) l -> exists r, mapM f l = Ok r.
Proof.
  induction 1 as [|x l [b Hb] Hl [r Hr]]; simpl.
  - eauto.
  - rewrite Hb, Hr. simpl. eauto.
Qed.

Lemma column_spec (f : nat) (M : list (list float)) (col : list float) :
  column f M = Ok col -> col = map (fun row => nth f row NaN) M.
Proof.
  unfold column. revert col. induction M as [|row M IH]; simpl; intros col H.
  - inversion H. reflexivity.
  - destruct (lookup row f) eqn:E; simpl in H; try discriminate.
    destruct (mapM (fun row0 => lookup row0 f) M); simpl in H; try discriminate.
    inversion H; subst. f_equal.
    + apply lookup_Ok in E. symmetry. apply nth_error_nth. exact E.
    + apply IH. reflexivity.
Qed.

Lemma column_total (f : nat) (M : list (list float)) :
  Forall (fun row => (f < length row)%nat) M -> exists col, column f M = Ok col.
Proof.
  intro H. apply mapM_total. eapply Forall_impl; [|exact H].
  intros row Hr. apply lookup_lt. exact Hr.
Qed.

Lemma band_map {A : Type} (f g : A -> bool) (l : list A) :
  band (map f l) (map g l) = map (fun x => f x && g x) l.
Proof.
  unfold band. induction l as [|x l IH]; simpl; [reflexivity|].
  f_equal. exact IH.
Qed.

Lemma count_nonneg (m : list bool) : (0 <= count m)%Z.
Proof. unfold count. lia. Qed.

Lemma trues_le_length (m : list bool) :
  (length (filter (fun b => b) m) <= length m)%nat.
Proof.
  induction m as [|[|] m IH]; simpl; lia.
Qed.

Lemma count_le_length (m : list bool) : (count m <= Z.of_nat (length m))%Z.
Proof.
  unfold count. apply Nat2Z.inj_le. apply trues_le_length.
Qed.

Lemma trues_band_le (m c : list bool) :
  (length (filter (fun b => b) (band m c)) <= length (filter (fun b => b) m))%nat.
Proof.
  unfold band. revert c.
  induction m as [|x m IH]; intros [|y c]; simpl; try lia.
  specialize (IH c). destruct x, y; simpl; lia.
Qed.

Lemma count_band_le (m c : list bool) : (count (band m c) <= count m)%Z.
Proof.
  unfold count. apply Nat2Z.inj_le. apply trues_band_le.
Qed.

Lemma count_repeat_true (n : nat) : count (repeat true n) = Z.of_nat n.
Proof.
  unfold count. f_equal. induction n as [|n IH]; simpl; congruence.
Qed.

Lemma trues_lt_length_false (m : list bool) :
  (length (filter (fun b => b) m) < length m)%nat ->
  exists i, nth_error m i = Some false.
Proof.
  induction m as [|x m IH]; simpl; intro H.
  - lia.
  - destruct x.
    + simpl in H. destruct IH as [i Hi]; [lia|]. exists (S i). exact Hi.
    + exists 0%nat. reflexivity.
Qed.

Lemma trues_all_true (m : list bool) :
  ~ (length (filter (fun b => b) m) < length m)%nat ->
  forall i b, nth_error m i = Some b -> b = true.
Proof.
  induction m as [|x m IH]; simpl; intros H i b Hi.
  - destruct i; discriminate.
  - destruct x.
    + simpl in H. destruct i as [|i]; simpl in Hi.
      * congruence.
      * apply IH with (i := i); [lia | exact Hi].
    + exfalso. apply H. pose proof (trues_le_length m). lia.
Qed.

Lemma where_from_spec (k0 f : nat) (dims : list nat) (k : nat) :
  In k (where_from k0 f dims) ->
  (k0 <= k)%nat /\ nth_error dims (k - k0) = Some f.
Proof.
  revert k0. induction dims as [|d dims IH]; simpl; intros k0 H.
  - contradiction.
  - destruct (Nat.eqb f d) eqn:E.
    + destruct H as [H|H].
      * subst. rewrite Nat.sub_diag. apply Nat.eqb_eq in E. subst. auto.
      * apply IH in H. destruct H as [H1 H2]. split; [lia|].
        replace (k - k0)%nat with (S (k - S k0)) by lia. exact H2.
    + apply IH in H. destruct H as [H1 H2]. split; [lia|].
      replace (k - k0)%nat with (S (k - S k0)) by lia. exact H2.
Qed.

Lemma where_eq_spec (f : nat) (dims : list nat) (k : nat) :
  In k (where_eq f dims) -> nth_error dims k = Some f.
Proof.
  intro H. apply where_from_spec in H. rewrite Nat.sub_0_r in H. apply H.
Qed.

Lemma setdiff1d_nil (cur cs : list Q) :
  setdiff1d cur cs = [] -> length (intersect1d cur cs) = length cur.
Proof.
  unfold setdiff1d, intersect1d.
  induction cur as [|v cur IH]; simpl; intro H; [reflexivity|].
  destruct (mem v cs); simpl in *; [|discriminate].
  f_equal. apply IH. exact H.
Qed.

Lemma nth_error_head_In {A : Type} (l : list A) (x : A) :
  nth_error l 0 = Some x -> In x l.
Proof.
  destruct l; simpl; intro H; [discriminate|]. left. congruence.
Qed.

(** ** The loop body refines the step relation *)

Ltac ok_inv H := inversion H; subst; clear H.

Lemma visit_sound (a : args) (check : bool) (i : nat) (st st' : state) :
  visit a check i st = Ok st' -> step a i st st'.
Proof.
  unfold visit.
  destruct (lookup (stop_update st) i) as [stop|] eqn:Hs; cbn [bind fst snd]; [|discriminate].
  apply lookup_Ok in Hs.
  destruct stop.
  { intro H. ok_inv H. apply step_skip. exact Hs. }
  destruct (lookup (node_indices st) i) as [node|] eqn:Hn; cbn [bind fst snd]; [|discriminate].
  apply lookup_Ok in Hn.
  destruct node as [|f s cs c0 c1].
  { intro H. ok_inv H. eapply step_freeze; eauto. }
  destruct (where_eq f (cont_dims a)) as [|k [|k2 rest]] eqn:Hw.
  - (* categorical split *)
    destruct (lookup (where_eq f (cat_dims a)) 0) as [kc|] eqn:Hk; cbn [bind fst snd];
      [|discriminate].
    apply lookup_Ok, nth_error_head_In, where_eq_spec in Hk.
    destruct (lookup (ss_bounds_cat st) kc) as [cur|] eqn:Hc; cbn [bind fst snd];
      [|discriminate].
    apply lookup_Ok in Hc.
    destruct (Nat.eqb (length (intersect1d cur cs)) (length cur)) eqn:E1.
    { intro H. ok_inv H. eapply step_advance; eauto. }
    destruct (Nat.eqb (length (intersect1d cur cs)) 0) eqn:E2.
    { intro H. ok_inv H. eapply step_advance; eauto. }
    apply Nat.eqb_neq in E1, E2.
    destruct (lookup (challenger a) f) as [c|]; cbn [bind fst snd]; [|discriminate].
    destruct (column f (X a)) as [col|] eqn:Hcol; cbn [bind fst snd]; [|discriminate].
    apply column_spec in Hcol. subst col.
    unfold in1d. rewrite !map_map.
    destruct (contains c (intersect1d cur cs)); cbv beta iota.
    + destruct (num_min a <? _)%Z eqn:Hlt.
      * intro H. ok_inv H. apply Z.ltb_lt in Hlt.
        eapply step_cat with (cond := fun x => contains x cs); eauto.
        intro E. rewrite E in E2. apply E2. reflexivity.
      * destruct check; intro H; ok_inv H.
        -- eapply step_freeze; eauto.
        -- eapply step_advance; eauto.
    + destruct (num_min a <? _)%Z eqn:Hlt.
      * intro H. ok_inv H. apply Z.ltb_lt in Hlt.
        eapply step_cat with (cond := fun x => negb (contains x cs)); eauto.
        intro E. apply E1. apply setdiff1d_nil. exact E.
      * destruct check; intro H; ok_inv H.
        -- eapply step_freeze; eauto.
        -- eapply step_advance; eauto.
  - (* continuous split *)
    assert (Hk : nth_error (cont_dims a) k = Some f).
    { apply where_eq_spec. rewrite Hw. left. reflexivity. }
    destruct (lookup (ss_bounds_cont st) k) as [[lo hi]|] eqn:Hb; cbn [bind fst snd];
      [|discriminate].
    apply lookup_Ok in Hb.
    destruct (Qle_bool lo s && Qle_bool s hi) eqn:Hin.
    + apply andb_true_iff in Hin. destruct Hin as [Hlo Hhi].
      apply Qle_bool_iff in Hlo, Hhi.
      destruct (lookup (challenger a) f) as [c|]; cbn [bind fst snd]; [|discriminate].
      destruct (column f (X a)) as [col|] eqn:Hcol; cbn [bind fst snd]; [|discriminate].
      apply column_spec in Hcol. subst col. rewrite !map_map.
      destruct (ge c (Fin s)); cbv beta iota.
      * destruct (num_min a <? _)%Z eqn:Hlt.
        -- intro H. ok_inv H. apply Z.ltb_lt in Hlt.
           eapply step_cont with (cond := fun x => ge x (Fin s)); eauto.
        -- destruct check; intro H; ok_inv H.
           ++ eapply step_freeze; eauto.
           ++ eapply step_advance; eauto.
      * destruct (num_min a <? _)%Z eqn:Hlt.
        -- intro H. ok_inv H. apply Z.ltb_lt in Hlt.
           eapply step_cont with (cond := fun x => le x (Fin s)); eauto.
        -- destruct check; intro H; ok_inv H.
           ++ eapply step_freeze; eauto.
           ++ eapply step_advance; eauto.
    + destruct (lookup (challenger a) f) as [c|]; cbn [bind fst snd]; [|discriminate].
      destruct (ge c (Fin s)); intro H; ok_inv H; eapply step_advance; eauto.
  - intro H. discriminate.
Qed.

(** ** Stable properties hold of whatever the extractor returns *)

Section Stable.

Variable a : args.
Variable P : state -> Prop.
Hypothesis HP : stable a P.

Lemma visit_all_stable (check : bool) (order : list nat) (st st' : state) :
  P st -> visit_all a check order st = Ok st' -> P st'.
Proof.
  revert st. induction order as [|i order IH]; simpl; intros st Hst H.
  - ok_inv H. exact Hst.
  - destruct (visit a check i st) as [st1|] eqn:E; simpl in H; [|discriminate].
    apply IH with (st := st1); [|exact H].
    eapply (stable_step HP); [exact Hst|]. eapply visit_sound; eauto.
Qed.

Lemma traverse_forest_stable (check : bool) (st st' : state)
  (g g' : RandomState) :
  P st -> traverse_forest a check st g = (Ok st', g') -> P st'.
Proof.
  unfold traverse_forest. intros Hst H.
  destruct (shuffle (indices_trees st) g) as [order g1].
  inversion H as [[H1 H2]]. clear H.
  eapply visit_all_stable; [|exact H1].
  apply (stable_order HP). exact Hst.
Qed.

Lemma while_running_stable (fuel : nat) (check : bool) (st st' : state)
  (g g' : RandomState) :
  P st -> while_running a fuel check st g = (Ok st', g') -> P st'.
Proof.
  revert st g. induction fuel as [|fuel IH]; simpl; intros st g Hst H.
  - destruct (some_running st); inversion H; subst. exact Hst.
  - destruct (some_running st).
    + destruct (traverse_forest a check st g) as [[st1|e] g1] eqn:E.
      * eapply IH; [|exact H]. eapply traverse_forest_stable; eauto.
      * inversion H.
    + inversion H; subst. exact Hst.
Qed.

Lemma second_pass_stable (fuel : nat) (st st' : state) (g g' : RandomState) :
  P st -> second_pass a fuel st g = (Ok st', g') -> P st'.
Proof.
  unfold second_pass. intros Hst H.
  destruct (num_max a <? count (ss_indices st))%Z.
  - eapply while_running_stable; [|exact H]. apply (stable_reset HP). exact Hst.
  - inversion H; subst. exact Hst.
Qed.

Lemma first_pass_stable (fuel : nat) (st0 st : state) (g g0 g' : RandomState) :
  init_state a g = (Ok st0, g0) -> P st0 ->
  first_pass a fuel g = (Ok st, g') -> P st.
Proof.
  unfold first_pass. intros Hi H0 H. rewrite Hi in H.
  eapply while_running_stable; eauto.
Qed.

Lemma extraction_stable (fuel : nat) (st0 : state) (g g0 g' : RandomState)
  (r : region) :
  init_state a g = (Ok st0, g0) -> P st0 ->
  subspace_extraction_fuel a fuel g = (Ok r, g') ->
  exists st, P st /\ r = to_region st.
Proof.
  unfold subspace_extraction_fuel. intros Hi H0 H.
  destruct (first_pass a fuel g) as [[st1|e] g1] eqn:E1; [|inversion H].
  destruct (second_pass a fuel st1 g1) as [[st2|e] g2] eqn:E2; [|inversion H].
  inversion H; subst. exists st2. split; [|reflexivity].
  eapply second_pass_stable; [|exact E2].
  eapply first_pass_stable; eauto.
Qed.

End Stable.

(** ** The shuffle visits the same trees *)

Lemma length_swap (i j : nat) (l : list nat) : length (swap i j l) = length l.
Proof.
  unfold swap. rewrite length_map, length_seq. reflexivity.
Qed.

Lemma swap_In (i j : nat) (l : list nat) (x : nat) :
  (i < length l)%nat -> (j < length l)%nat ->
  (In x (swap i j l) <-> In x l).
Proof.
  intros Hi Hj. unfold swap. rewrite in_map_iff. split.
  - intros [k [Hk Hin]]. apply in_seq in Hin. subst x.
    destruct (Nat.eqb k i); [apply nth_In; lia|].
    destruct (Nat.eqb k j); apply nth_In; lia.
  - intro Hx. destruct (In_nth l x 0%nat Hx) as [k [Hk Hn]].
    destruct (Nat.eq_dec k i) as [->|Hki].
    + exists j. split; [|apply in_seq; lia].
      destruct (Nat.eqb j i) eqn:E.
      * apply Nat.eqb_eq in E. subst j. exact Hn.
      * rewrite Nat.eqb_refl. exact Hn.
    + destruct (Nat.eq_dec k j) as [->|Hkj].
      * exists i. split; [|apply in_seq; lia].
        rewrite Nat.eqb_refl. exact Hn.
      * exists k. split; [|apply in_seq; lia].
        apply Nat.eqb_neq in Hki, Hkj. rewrite Hki, Hkj. exact Hn.
Qed.

Lemma shuffle_from_In (i : nat) (l : list nat) (g : RandomState) (x : nat) :
  (i < length l)%nat \/ i = 0%nat ->
  (In x (fst (shuffle_from i l g)) <-> In x l).
Proof.
  revert l g. induction i as [|i IH]; intros l g Hi; simpl.
  - reflexivity.
  - destruct Hi as [Hi|Hi]; [|discriminate].
    assert (Hj : (raw g (pos g) mod S (S i) < length l)%nat).
    { pose proof (Nat.mod_upper_bound (raw g (pos g)) (S (S i))). lia. }
    rewrite IH.
    + apply swap_In; assumption.
    + rewrite length_swap. left. lia.
Qed.

Lemma shuffle_In (l : list nat) (g : RandomState) (x : nat) :
  In x (fst (shuffle l g)) <-> In x l.
Proof.
  unfold shuffle. apply shuffle_from_In.
  destruct l as [|y l]; simpl; [right; reflexivity|left; lia].
Qed.

(** ** The state before the first pass *)

Lemma mapM_lookup_spec {A : Type} (l : list A) (def : A) (ds : list nat)
  (r : list A) :
  mapM (lookup l) ds = Ok r -> r = map (fun d => nth d l def) ds.
Proof.
  revert r. induction ds as [|d ds IH]; simpl; intros r H.
  - ok_inv H. reflexivity.
  - destruct (lookup l d) as [x|] eqn:E; simpl in H; [|discriminate].
    destruct (mapM (lookup l) ds) as [xs|]; simpl in H; [|discriminate].
    ok_inv H. f_equal.
    + apply lookup_Ok in E. symmetry. apply nth_error_nth. exact E.
    + apply IH. reflexivity.
Qed.

Lemma mapM_arange_spec (l : list (Q * Q)) (ds : list nat) (r : list (list Q)) :
  mapM (fun d => b <- lookup l d ;; Ok (arange (fst b))) ds = Ok r ->
  r = map (fun d => arange (fst (nth d l (0, 0)))) ds.
Proof.
  revert r. induction ds as [|d ds IH]; simpl; intros r H.
  - ok_inv H. reflexivity.
  - destruct (lookup l d) as [x|] eqn:E; simpl in H; [|discriminate].
    destruct (mapM _ ds) as [xs|]; simpl in H; [|discriminate].
    ok_inv H. f_equal.
    + apply lookup_Ok in E. f_equal. f_equal. symmetry.
      apply nth_error_nth. exact E.
    + apply IH. reflexivity.
Qed.

Lemma init_state_spec (a : args) (g g0 : RandomState) (st0 : state) :
  init_state a g = (Ok st0, g0) ->
  node_indices st0 = model a
  /\ stop_update st0 = repeat false (length (model a))
  /\ covers a st0
  /\ ss_indices st0 = repeat true (length (X a))
  /\ ss_bounds_cont st0 = full_bounds_cont a
  /\ (ss_bounds_cat st0 = full_bounds_cat a
      \/ (cat_dims a = [] /\ ss_bounds_cat st0 = [[]])).
Proof.
  unfold init_state.
  destruct (shuffle (seq 0 (length (model a))) g) as [order g1] eqn:Hs.
  intro H. inversion H as [[H1 H2]]. clear H H2.
  destruct (if Nat.eqb (length (cat_dims a)) 0 then Ok [[]] else _)
    as [cat|] eqn:Hcat; simpl in H1; [|discriminate].
  destruct (if Nat.eqb (length (cont_dims a)) 0 then Ok [] else _)
    as [cont|] eqn:Hcont; simpl in H1; [|discriminate].
  ok_inv H1. simpl. repeat split; try reflexivity.
  - intro Hi. pose proof (shuffle_In (seq 0 (length (model a))) g i) as Hsh.
    rewrite Hs in Hsh. simpl in Hsh. apply Hsh in Hi. apply in_seq in Hi. lia.
  - intro Hi. pose proof (shuffle_In (seq 0 (length (model a))) g i) as Hsh.
    rewrite Hs in Hsh. simpl in Hsh. apply Hsh. apply in_seq. lia.
  - unfold full_bounds_cont.
    destruct (cont_dims a) as [|d ds] eqn:Hd.
    + simpl in Hcont. ok_inv Hcont. reflexivity.
    + rewrite <- Hd in *. assert (E : Nat.eqb (length (cont_dims a)) 0 = false).
      { rewrite Hd. reflexivity. }
      rewrite E in Hcont. apply mapM_lookup_spec with (def := (0, 0)) in Hcont.
      exact Hcont.
  - unfold full_bounds_cat.
    destruct (cat_dims a) as [|d ds] eqn:Hd.
    + simpl in Hcat. ok_inv Hcat. right. split; reflexivity.
    + rewrite <- Hd in *. assert (E : Nat.eqb (length (cat_dims a)) 0 = false).
      { rewrite Hd. reflexivity. }
      rewrite E in Hcat. apply mapM_arange_spec in Hcat. left. exact Hcat.
Qed.

Lemma mapM_lookup_total {A B : Type} (l : list A) (k : A -> result B)
  (ds : list nat) :
  (forall x, exists y, k x = Ok y) ->
  forallb (fun d => (d <? length l)%nat) ds = true ->
  exists r, mapM (fun d => b <- lookup l d ;; k b) ds = Ok r.
Proof.
  intros Hk H. apply mapM_total. apply Forall_forall. intros d Hd.
  rewrite forallb_forall in H. apply H in Hd. apply Nat.ltb_lt in Hd.
  destruct (lookup_lt l Hd) as [x Hx]. rewrite Hx. simpl. apply Hk.
Qed.

Lemma wf_args_inv (a : args) :
  wf_args a = true ->
  Forall (fun t => wf_tree a t = true) (model a)
  /\ forallb (fun d => (d <? length (bounds a))%nat) (cont_dims a) = true
  /\ forallb (fun d => (d <? length (bounds a))%nat) (cat_dims a) = true.
Proof.
  unfold wf_args. intro H.
  apply andb_true_iff in H. destruct H as [H H3].
  apply andb_true_iff in H. destruct H as [H1 H2].
  repeat split; auto. apply Forall_forall. rewrite forallb_forall in H1. exact H1.
Qed.

Lemma init_state_total (a : args) (g : RandomState) :
  wf_args a = true ->
  exists st0 g0, init_state a g = (Ok st0, g0) /\ shaped a st0.
Proof.
  intro Hwf. destruct (wf_args_inv a Hwf) as [Ht [Hc Hk]].
  unfold init_state.
  destruct (shuffle (seq 0 (length (model a))) g) as [order g1].
  assert (Hcat : exists cat,
    (if Nat.eqb (length (cat_dims a)) 0 then Ok [[]]
     else mapM (fun cat_dim => b <- lookup (bounds a) cat_dim ;;
                               Ok (arange (fst b))) (cat_dims a)) = Ok cat
    /\ (length (cat_dims a) <= length cat)%nat).
  { destruct (Nat.eqb (length (cat_dims a)) 0) eqn:E.
    - exists [[]]. split; [reflexivity|]. apply Nat.eqb_eq in E. simpl. lia.
    - destruct (mapM_lookup_total (bounds a) (fun b => Ok (arange (fst b)))
                  (cat_dims a)) as [r Hr]; [eauto|exact Hk|].
      exists r. split; [exact Hr|]. apply mapM_Ok_length in Hr. lia. }
  assert (Hcont : exists cont,
    (if Nat.eqb (length (cont_dims a)) 0 then Ok []
     else mapM (lookup (bounds a)) (cont_dims a)) = Ok cont
    /\ length cont = length (cont_dims a)).
  { destruct (Nat.eqb (length (cont_dims a)) 0) eqn:E.
    - exists []. split; [reflexivity|]. apply Nat.eqb_eq in E. simpl. lia.
    - assert (Hr : exists r, mapM (lookup (bounds a)) (cont_dims a) = Ok r).
      { apply mapM_total. apply Forall_forall. intros d Hd.
        rewrite forallb_forall in Hc. apply Hc in Hd. apply Nat.ltb_lt in Hd.
        apply lookup_lt. exact Hd. }
      destruct Hr as [r Hr]. exists r. split; [exact Hr|].
      apply mapM_Ok_length in Hr. exact Hr. }
  destruct Hcat as [cat [Hcat Hlcat]]. destruct Hcont as [cont [Hcont Hlcont]].
  rewrite Hcat, Hcont. simpl.
  eexists. eexists. split; [reflexivity|].
  unfold shaped. simpl. rewrite repeat_length. repeat split; auto.
Qed.

(** ** Every visit of a well-formed state returns *)

Lemma feature_ok_inv (a : args) (f : nat) :
  feature_ok a f = true ->
  (f < length (challenger a))%nat
  /\ Forall (fun row => (f < length row)%nat) (X a)
  /\ ((exists k, where_eq f (cont_dims a) = [k])
      \/ (where_eq f (cont_dims a) = []
          /\ exists k ks, where_eq f (cat_dims a) = k :: ks)).
Proof.
  unfold feature_ok. intro H.
  apply andb_true_iff in H. destruct H as [H H3].
  apply andb_true_iff in H. destruct H as [H1 H2].
  apply Nat.ltb_lt in H1. split; [exact H1|]. split.
  - apply Forall_forall. intros row Hr. rewrite forallb_forall in H2.
    apply H2 in Hr. apply Nat.ltb_lt in Hr. exact Hr.
  - destruct (where_eq f (cont_dims a)) as [|k [|k2 rest]].
    + right. split; [reflexivity|].
      destruct (where_eq f (cat_dims a)) as [|k ks]; [discriminate|eauto].
    + left. eauto.
    + discriminate.
Qed.

Lemma nth_error_lt {A : Type} (l : list A) (i : nat) (x : A) :
  nth_error l i = Some x -> (i < length l)%nat.
Proof.
  intro H. apply nth_error_Some. congruence.
Qed.

Lemma visit_total (a : args) (check : bool) (i : nat) (st : state) :
  shaped a st -> (i < length (model a))%nat ->
  exists st', visit a check i st = Ok st'.
Proof.
  intros [Hn [Hs [Hwf [Hcont Hcat]]]] Hi. unfold visit.
  destruct (lookup_lt (stop_update st) (i := i)) as [stop Hstop]; [lia|].
  rewrite Hstop. cbn [bind]. destruct stop; [eauto|].
  destruct (lookup_lt (node_indices st) (i := i)) as [node Hnode]; [lia|].
  rewrite Hnode. cbn [bind].
  destruct node as [|f s cs c0 c1]; [eauto|].
  apply lookup_Ok in Hnode.
  assert (Hf : feature_ok a f = true).
  { rewrite Forall_forall in Hwf. apply nth_error_In in Hnode.
    apply Hwf in Hnode. simpl in Hnode.
    apply andb_true_iff in Hnode. destruct Hnode as [Hnode _].
    apply andb_true_iff in Hnode. apply Hnode. }
  destruct (feature_ok_inv a f Hf) as [Hch [Hrows Hdim]].
  destruct (lookup_lt (challenger a) Hch) as [c Hc].
  destruct (column_total Hrows) as [col Hcol].
  destruct Hdim as [[k Hk]|[Hnone [k [ks Hk]]]].
  - rewrite Hk.
    assert (Hkd : nth_error (cont_dims a) k = Some f).
    { apply where_eq_spec. rewrite Hk. left. reflexivity. }
    apply nth_error_lt in Hkd.
    destruct (lookup_lt (ss_bounds_cont st) (i := k)) as [b Hb]; [lia|].
    rewrite Hb. cbn [bind]. rewrite Hc. cbn [bind].
    destruct (Qle_bool (fst b) s && Qle_bool s (snd b)); [|eauto].
    rewrite Hcol. cbn [bind].
    destruct (ge c (Fin s)); cbv beta iota;
      destruct (num_min a <? _)%Z; [eauto| |eauto|]; destruct check; eauto.
  - rewrite Hnone, Hk. unfold lookup at 1. cbn [nth_error bind].
    assert (Hkd : nth_error (cat_dims a) k = Some f).
    { apply where_eq_spec. rewrite Hk. left. reflexivity. }
    apply nth_error_lt in Hkd.
    destruct (lookup_lt (ss_bounds_cat st) (i := k)) as [cur Hcur]; [lia|].
    rewrite Hcur. cbn [bind].
    destruct (Nat.eqb _ (length cur)); [eauto|].
    destruct (Nat.eqb _ 0); [eauto|].
    rewrite Hc. cbn [bind]. rewrite Hcol. cbn [bind].
    destruct (contains c _); cbv beta iota;
      destruct (num_min a <? _)%Z; [eauto| |eauto|]; destruct check; eauto.
Qed.

Lemma wf_tree_child (a : args) (f : nat) (s : Q) (cs : list Q)
  (c0 c1 child : tree) :
  wf_tree a (Node f s cs c0 c1) = true -> child = c0 \/ child = c1 ->
  wf_tree a child = true.
Proof.
  simpl. intros H Hc.
  apply andb_true_iff in H. destruct H as [H H1].
  apply andb_true_iff in H. destruct H as [_ H0].
  destruct Hc; subst; assumption.
Qed.

Lemma shaped_stable (a : args) : stable a (shaped a).
Proof.
  constructor.
  - intros i st st' [Hn [Hs [Hwf [Hcont Hcat]]]] Hstep.
    assert (Hchild : forall f s cs c0 c1 child,
      nth_error (node_indices st) i = Some (Node f s cs c0 c1) ->
      child = c0 \/ child = c1 -> wf_tree a child = true).
    { intros f s cs c0 c1 child Hnode Hc.
      eapply wf_tree_child; [|exact Hc].
      rewrite Forall_forall in Hwf. apply Hwf.
      eapply nth_error_In. exact Hnode. }
    destruct Hstep; unfold shaped; simpl; rewrite ?length_set_nth;
      repeat split; auto; apply Forall_set_nth; eauto.
  - intros order st H. exact H.
  - intros st [Hn [Hs H]]. unfold shaped. simpl. rewrite repeat_length.
    repeat split; try apply H; auto.
Qed.

Lemma covers_stable_step (a : args) (i : nat) (st st' : state) :
  step a i st st' -> indices_trees st' = indices_trees st.
Proof.
  intro H. destruct H; reflexivity.
Qed.

(** ** Both loops end *)

Lemma list_sum_set_nth {A : Type} (f : A -> nat) (i : nat) (v x : A)
  (l : list A) :
  nth_error l i = Some x ->
  (list_sum (map f (set_nth i v l)) + f x = list_sum (map f l) + f v)%nat.
Proof.
  revert i. induction l as [|y l IH]; intros [|i] H; simpl in *;
    try discriminate.
  - inversion H; subst. lia.
  - specialize (IH i H). lia.
Qed.

Lemma height_child (f : nat) (s : Q) (cs : list Q) (c0 c1 child : tree) :
  child = c0 \/ child = c1 ->
  (height child < height (Node f s cs c0 c1))%nat.
Proof.
  intros [->| ->]; simpl; lia.
Qed.

Lemma step_measure (a : args) (i : nat) (st st' : state) :
  step a i st st' ->
  (below st' <= below st)%nat /\ (running st' <= running st)%nat
  /\ (nth_error (stop_update st) i = Some false ->
      (below st' + running st' < below st + running st)%nat).
Proof.
  intro H.
  assert (Hadv : forall f s cs c0 c1 child,
    nth_error (node_indices st) i = Some (Node f s cs c0 c1) ->
    child = c0 \/ child = c1 ->
    (list_sum (map (fun t => S (height t)) (set_nth i child (node_indices st)))
     < below st)%nat).
  { intros f s cs c0 c1 child Hn Hc. unfold below.
    pose proof (@list_sum_set_nth _ (fun t => S (height t)) i child _ _ Hn) as E.
    pose proof (@height_child f s cs _ _ _ Hc) as Hh. cbv beta in E. lia. }
  destruct H; unfold below, running in *; simpl.
  - split; [lia|]. split; [lia|]. intro E. congruence.
  - pose proof (@list_sum_set_nth _ (fun b : bool => if b then 0 else 1)%nat
                  i true _ _ Hstop) as E. simpl in E. lia.
  - specialize (Hadv _ _ _ _ _ _ Hnode Hchild). lia.
  - specialize (Hadv _ _ _ _ _ _ Hnode Hchild). lia.
  - specialize (Hadv _ _ _ _ _ _ Hnode Hchild). lia.
Qed.

Lemma step_stopped (a : args) (i : nat) (st st' : state) :
  step a i st st' -> nth_error (stop_update st) i <> Some false -> st' = st.
Proof.
  intros H Hn. destruct H; try reflexivity; contradiction.
Qed.

Lemma visit_all_measure (a : args) (check : bool) (order : list nat)
  (st st' : state) :
  visit_all a check order st = Ok st' ->
  (below st' <= below st)%nat /\ (running st' <= running st)%nat
  /\ ((exists i, In i order /\ nth_error (stop_update st) i = Some false) ->
      (below st' + running st' < below st + running st)%nat).
Proof.
  revert st. induction order as [|j order IH]; simpl; intros st H.
  - ok_inv H. split; [lia|]. split; [lia|]. intros [i [[] _]].
  - destruct (visit a check j st) as [st1|] eqn:E; simpl in H; [|discriminate].
    apply visit_sound in E.
    destruct (step_measure E) as [Hb [Hr Hstrict]].
    destruct (IH st1 H) as [Hb' [Hr' Hstrict']].
    split; [lia|]. split; [lia|].
    intros [i [Hi Hstop]].
    destruct (nth_error (stop_update st) j) as [[|]|] eqn:Hj.
    + assert (st1 = st) by (eapply step_stopped; eauto; congruence).
      subst st1. apply Hstrict'. exists i. split; [|exact Hstop].
      destruct Hi as [Hi|Hi]; [|exact Hi]. subst. congruence.
    + specialize (Hstrict eq_refl). lia.
    + assert (st1 = st) by (eapply step_stopped; eauto; congruence).
      subst st1. apply Hstrict'. exists i. split; [|exact Hstop].
      destruct Hi as [Hi|Hi]; [|exact Hi]. subst. congruence.
Qed.

Lemma visit_all_total (a : args) (check : bool) (order : list nat) (st : state) :
  shaped a st -> Forall (fun i => (i < length (model a))%nat) order ->
  exists st', visit_all a check order st = Ok st'.
Proof.
  intros Hsh Ho. revert st Hsh.
  induction Ho as [|i order Hi Ho IH]; simpl; intros st Hsh.
  - eauto.
  - destruct (visit_total check Hsh Hi) as [st1 H1]. rewrite H1. simpl.
    apply IH. eapply (stable_step (shaped_stable a)); [exact Hsh|].
    eapply visit_sound. exact H1.
Qed.

Lemma visit_all_order (a : args) (check : bool) (order : list nat)
  (st st' : state) :
  visit_all a check order st = Ok st' -> indices_trees st' = indices_trees st.
Proof.
  revert st. induction order as [|i order IH]; simpl; intros st H.
  - ok_inv H. reflexivity.
  - destruct (visit a check i st) as [st1|] eqn:E; simpl in H; [|discriminate].
    rewrite (IH st1 H). apply visit_sound in E.
    eapply covers_stable_step. exact E.
Qed.

Lemma some_running_true (st : state) :
  some_running st = true -> exists i, nth_error (stop_update st) i = Some false.
Proof.
  unfold some_running, count. intro H. apply Z.ltb_lt in H.
  apply trues_lt_length_false. lia.
Qed.

Lemma while_running_total (a : args) (check : bool) (fuel : nat) (st : state)
  (g : RandomState) :
  shaped a st -> covers a st ->
  (below st + running st <= fuel)%nat ->
  exists st' g', while_running a fuel check st g = (Ok st', g')
                 /\ some_running st' = false
                 /\ shaped a st' /\ covers a st'
                 /\ (below st' <= below st)%nat.
Proof.
  revert st g. induction fuel as [|fuel IH]; intros st g Hsh Hcov Hm.
  - simpl. destruct (some_running st) eqn:E; [|eauto 10].
    exfalso. apply some_running_true in E. destruct E as [i Hi].
    unfold running in Hm.
    assert (Hpos : (1 <= list_sum (map (fun b : bool => if b then 0 else 1)
                                      (stop_update st)))%nat).
    { clear - Hi. revert i Hi.
      induction (stop_update st) as [|b l IHl]; intros [|i] Hi; simpl in *;
        try discriminate.
      - inversion Hi; subst. lia.
      - specialize (IHl i Hi). lia. }
    lia.
  - simpl. destruct (some_running st) eqn:E; [|eauto 10].
    apply some_running_true in E. destruct E as [i Hi].
    unfold traverse_forest.
    destruct (shuffle (indices_trees st) g) as [order g1] eqn:Hsf.
    assert (Hord : forall x, In x order <-> (x < length (model a))%nat).
    { intro x. pose proof (shuffle_In (indices_trees st) g x) as Hx.
      rewrite Hsf in Hx. simpl in Hx. rewrite Hx. apply Hcov. }
    assert (Hsh1 : shaped a (set_order order st)) by exact Hsh.
    destruct (@visit_all_total a check order (set_order order st) Hsh1)
      as [st1 H1].
    { apply Forall_forall. intros x Hx. apply Hord. exact Hx. }
    rewrite H1.
    destruct (visit_all_measure _ _ _ _ H1) as [Hb [_ Hstrict]].
    assert (Hdec : (below st1 + running st1 < below st + running st)%nat).
    { apply Hstrict. exists i. split; [|exact Hi].
      apply Hord. destruct Hsh as [_ [Hs _]]. apply nth_error_lt in Hi. lia. }
    destruct (IH st1 g1) as [st' [g' [Hw [Hdone [Hsh' [Hcov' Hb']]]]]].
    + eapply visit_all_stable; [apply shaped_stable|exact Hsh1|exact H1].
    + unfold covers. rewrite (visit_all_order _ _ _ _ H1). simpl. exact Hord.
    + lia.
    + exists st', g'.
      split; [exact Hw|]. split; [exact Hdone|]. split; [exact Hsh'|].
      split; [exact Hcov'|]. unfold below in *. simpl in Hb. lia.
Qed.

Lemma running_repeat_false (n : nat) :
  list_sum (map (fun b : bool => if b then 0 else 1)%nat (repeat false n)) = n.
Proof.
  induction n as [|n IH]; simpl; congruence.
Qed.

(** A well-formed call runs both loops to their end and returns. *)
Lemma extraction_runs (a : args) (g : RandomState) :
  wf_args a = true ->
  exists st0 g0 st1 g1 st2 g2,
    init_state a g = (Ok st0, g0)
    /\ first_pass a (enough_fuel a) g = (Ok st1, g1)
    /\ second_pass a (enough_fuel a) st1 g1 = (Ok st2, g2)
    /\ subspace_extraction a g = (Ok (to_region st2), g2)
    /\ some_running st1 = false
    /\ some_running st2 = false.
Proof.
  intro Hwf.
  destruct (init_state_total a g Hwf) as [st0 [g0 [Hi Hsh0]]].
  destruct (init_state_spec a g Hi) as [Hn [Hs [Hcov _]]].
  assert (Hm0 : (below st0 + running st0 <= enough_fuel a)%nat).
  { unfold below, running, enough_fuel. rewrite Hn, Hs, running_repeat_false.
    clear. induction (model a) as [|t l IH]; simpl; lia. }
  assert (Hb0 : (below st0 + length (model a) <= enough_fuel a)%nat).
  { unfold running in Hm0. rewrite Hs, running_repeat_false in Hm0. exact Hm0. }
  destruct (while_running_total true g0 Hsh0 Hcov Hm0)
    as [st1 [g1 [H1 [Hd1 [Hsh1 [Hcov1 Hb1]]]]]].
  assert (Hfirst : first_pass a (enough_fuel a) g = (Ok st1, g1)).
  { unfold first_pass. rewrite Hi. exact H1. }
  assert (H2 : exists st2 g2,
    second_pass a (enough_fuel a) st1 g1 = (Ok st2, g2)
    /\ some_running st2 = false).
  { unfold second_pass. destruct (num_max a <? count (ss_indices st1))%Z.
    - destruct (@while_running_total a false (enough_fuel a) (reset_stop st1) g1)
        as [st2 [g2 [H2 [Hd2 _]]]].
      + apply (stable_reset (shaped_stable a)). exact Hsh1.
      + exact Hcov1.
      + unfold running, below in *. simpl. rewrite running_repeat_false.
        destruct Hsh1 as [_ [Hl _]]. lia.
      + eauto.
    - eauto. }
  destruct H2 as [st2 [g2 [H2 Hd2]]].
  exists st0, g0, st1, g1, st2, g2. repeat split; auto.
  unfold subspace_extraction, subspace_extraction_fuel. rewrite Hfirst, H2.
  reflexivity.
Qed.

(** ** Membership tests against shrunk bounds *)

Lemma Qeq_bool_trans_eq (q v x : Q) :
  Qeq_bool q v = true -> Qeq_bool q x = Qeq_bool v x.
Proof.
  intro H. apply Qeq_bool_iff in H.
  destruct (Qeq_bool q x) eqn:E1, (Qeq_bool v x) eqn:E2; try reflexivity.
  - apply Qeq_bool_iff in E1. apply Qeq_bool_neq in E2. exfalso. apply E2.
    rewrite <- H. exact E1.
  - apply Qeq_bool_iff in E2. apply Qeq_bool_neq in E1. exfalso. apply E1.
    rewrite H. exact E2.
Qed.

Lemma mem_Qeq (q v : Q) (l : list Q) :
  Qeq_bool q v = true -> mem v l = mem q l.
Proof.
  intro H. unfold mem. induction l as [|x l IH]; simpl; [reflexivity|].
  rewrite IH. rewrite (Qeq_bool_trans_eq q v x H). reflexivity.
Qed.

Lemma mem_filter (P : Q -> bool) (q : Q) (l : list Q) :
  (forall v, Qeq_bool q v = true -> P v = P q) ->
  mem q (filter P l) = mem q l && P q.
Proof.
  intro HP. unfold mem. induction l as [|v l IH]; simpl; [reflexivity|].
  destruct (P v) eqn:Ev; simpl; rewrite IH.
  - destruct (Qeq_bool q v) eqn:Eq; simpl; [|reflexivity].
    rewrite <- (HP v Eq), Ev. reflexivity.
  - destruct (Qeq_bool q v) eqn:Eq; simpl; [|reflexivity].
    rewrite <- (HP v Eq), Ev. rewrite andb_false_r. reflexivity.
Qed.

Lemma contains_intersect1d (x : float) (cur cs : list Q) :
  contains x (intersect1d cur cs) = contains x cur && contains x cs.
Proof.
  destruct x; simpl; try reflexivity.
  unfold intersect1d. apply mem_filter. intros v H. apply mem_Qeq. exact H.
Qed.

Lemma contains_setdiff1d (x : float) (cur cs : list Q) :
  contains x (setdiff1d cur cs) = contains x cur && negb (contains x cs).
Proof.
  destruct x; simpl; try reflexivity.
  unfold setdiff1d. apply (mem_filter (fun v => negb (mem v cs))).
  intros v H. f_equal. apply mem_Qeq. exact H.
Qed.

Lemma in_interval_raise (x : float) (lo hi s : Q) :
  lo <= s ->
  in_interval x (s, hi) = in_interval x (lo, hi) && ge x (Fin s).
Proof.
  intro H. unfold in_interval, ge. destruct x; simpl; try reflexivity.
  destruct (Qle_bool s q) eqn:E; simpl.
  - assert (E' : Qle_bool lo q = true).
    { apply Qle_bool_iff. apply Qle_bool_iff in E. eapply Qle_trans; eauto. }
    rewrite E'. simpl. rewrite andb_true_r. reflexivity.
  - rewrite andb_false_r. reflexivity.
Qed.

Lemma in_interval_lower (x : float) (lo hi s : Q) :
  s <= hi ->
  in_interval x (lo, s) = in_interval x (lo, hi) && le x (Fin s).
Proof.
  intro H. unfold in_interval. destruct x; simpl; try reflexivity.
  destruct (Qle_bool q s) eqn:E; simpl.
  - assert (E' : Qle_bool q hi = true).
    { apply Qle_bool_iff. apply Qle_bool_iff in E. eapply Qle_trans; eauto. }
    rewrite E'. rewrite !andb_true_r. reflexivity.
  - rewrite !andb_false_r. reflexivity.
Qed.

Lemma forallb_combine_set_nth {B : Type} (P : nat * B -> bool)
  (dims : list nat) (bs : list B) (k d : nat) (b b' : B) (c : bool) :
  nth_error dims k = Some d -> nth_error bs k = Some b ->
  P (d, b') = P (d, b) && c ->
  forallb P (combine dims (set_nth k b' bs))
  = forallb P (combine dims bs) && c.
Proof.
  revert bs k. induction dims as [|d0 dims IH]; intros [|b0 bs] [|k] Hd Hb HP;
    simpl in *; try discriminate.
  - inversion Hd; inversion Hb; subst. rewrite HP.
    destruct (P (d, b)), c, (forallb P (combine dims bs)); reflexivity.
  - rewrite (IH bs k Hd Hb HP).
    destruct (P (d0, b0)), c, (forallb P (combine dims bs)); reflexivity.
Qed.

(** ** The type of the array of bounds *)

Lemma astype_int_inject (z : Z) : astype_int (inject_Z z) = z.
Proof.
  unfold astype_int. destruct (Qle_bool 0 (inject_Z z)).
  - apply Qfloor_Z.
  - apply Qceiling_Z.
Qed.

Lemma assigned_float (a : args) (q : Q) :
  float_bounds a = true -> assigned a q = q.
Proof.
  unfold float_bounds, assigned. destruct (bounds a); [discriminate|reflexivity].
Qed.

Lemma assigned_holds (a : args) (q : Q) : holds a (assigned a q).
Proof.
  unfold holds, assigned. destruct (bounds a); [|reflexivity].
  rewrite astype_int_inject. reflexivity.
Qed.

Lemma Qfloor_le_ceiling (q : Q) : (Qfloor q <= Qceiling q)%Z.
Proof.
  rewrite Zle_Qle. eapply Qle_trans; [apply Qfloor_le|apply Qle_ceiling].
Qed.

(** Truncation towards zero keeps a value between two integers. *)
Lemma astype_int_between (zl zh : Z) (s : Q) :
  inject_Z zl <= s -> s <= inject_Z zh ->
  (zl <= astype_int s <= zh)%Z.
Proof.
  intros Hl Hh.
  assert (H1 : (zl <= Qfloor s)%Z).
  { rewrite <- (Qfloor_Z zl). apply Qfloor_resp_le. exact Hl. }
  assert (H2 : (Qceiling s <= zh)%Z).
  { rewrite <- (Qceiling_Z zh). apply Qceiling_resp_le. exact Hh. }
  pose proof (Qfloor_le_ceiling s).
  unfold astype_int. destruct (Qle_bool 0 s); lia.
Qed.

(** What is stored of a split value between two values of the array lies
    between them. *)
Lemma assigned_between (a : args) (lo hi s : Q) :
  holds a lo -> holds a hi -> lo <= s -> s <= hi ->
  lo <= assigned a s /\ assigned a s <= hi.
Proof.
  unfold holds, assigned. destruct (bounds a); [|auto].
  intros El Eh Hl Hh. rewrite <- El in Hl. rewrite <- Eh in Hh.
  destruct (astype_int_between Hl Hh) as [H1 H2].
  rewrite <- El, <- Eh. rewrite <- !Zle_Qle. auto.
Qed.

Lemma holds_rows (a : args) (d : nat) :
  holds a (fst (nth d (bounds a) (0, 0)))
  /\ holds a (snd (nth d (bounds a) (0, 0))).
Proof.
  unfold holds, assigned. destruct (bounds a) as [rows|rows]; [|auto].
  simpl.
  change (0, 0) with ((fun p : Z * Z => (inject_Z (fst p), inject_Z (snd p)))
                        (0%Z, 0%Z)).
  rewrite map_nth. simpl. rewrite !astype_int_inject. auto.
Qed.

Lemma typed_init (a : args) (st0 : state) :
  ss_bounds_cont st0 = full_bounds_cont a -> typed a st0.
Proof.
  unfold typed, full_bounds_cont. intros ->.
  apply Forall_forall. intros b Hb. apply in_map_iff in Hb.
  destruct Hb as [d [<- _]]. apply holds_rows.
Qed.

(** ** The invariants of the two loops *)

(** The array of continuous bounds keeps its type. *)
Lemma typed_stable (a : args) : stable a (typed a).
Proof.
  constructor; [|auto|auto].
  intros i st st' H Hstep. destruct Hstep; simpl; auto.
  unfold typed in *. simpl. apply Forall_set_nth; [exact H|].
  rewrite Forall_forall in H.
  destruct (H (lo, hi) (nth_error_In _ _ Hbound)) as [Hl Hh].
  simpl in Hl, Hh.
  destruct Hside as [[-> _]|[-> _]]; simpl; split; auto using assigned_holds.
Qed.

Lemma stable_and (a : args) (P Q : state -> Prop) :
  stable a P -> stable a Q -> stable a (fun st => P st /\ Q st).
Proof.
  intros [P1 P2 P3] [Q1 Q2 Q3]. constructor.
  - intros i st st' [HP HQ] Hs. split; eauto.
  - intros o st [HP HQ]. split; auto.
  - intros st [HP HQ]. split; auto.
Qed.

(** Continuous bounds only move inside the full-space bounds. *)
Lemma sub_interval_stable (a : args) :
  stable a (fun st =>
    typed a st
    /\ Forall2 sub_interval (full_bounds_cont a) (ss_bounds_cont st)).
Proof.
  constructor; [|auto|auto].
  intros i st st' [Ht H] Hstep.
  split; [exact (stable_step (typed_stable a) Ht Hstep)|].
  destruct Hstep; simpl; auto.
  apply Forall2_set_nth; [exact H|].
  intros full b Hfull Hb [H1 H2]. rewrite Hbound in Hb. inversion Hb; subst b.
  simpl in H1, H2.
  unfold typed in Ht. rewrite Forall_forall in Ht.
  destruct (Ht (lo, hi) (nth_error_In _ _ Hbound)) as [Hl Hh].
  simpl in Hl, Hh.
  destruct (assigned_between Hl Hh Hlo Hhi) as [A1 A2].
  destruct Hside as [[-> _]|[-> _]]; split; simpl; auto.
  - eapply Qle_trans; eauto.
  - eapply Qle_trans; eauto.
Qed.

(** A retained set stays a non-empty part of the full domain. *)
Lemma retained_stable (a : args) :
  stable a (fun st =>
    forall k dom, nth_error (full_bounds_cat a) k = Some dom ->
    exists r, nth_error (ss_bounds_cat st) k = Some r /\ retained_ok dom r).
Proof.
  constructor; [|auto|auto].
  intros i st st' H Hstep. destruct Hstep; simpl; auto.
  intros k0 dom Hdom. destruct (H k0 dom Hdom) as [r [Hr [Hincl Hne]]].
  destruct (Nat.eq_dec k k0) as [->|Hk].
  - exists r'. split.
    + apply nth_error_set_nth_eq. eapply nth_error_lt. exact Hr.
    + rewrite Hbound in Hr. inversion Hr; subst r. split; [|auto].
      intros v Hv. apply Hincl.
      destruct Hside as [[-> _]|[-> _]];
        unfold intersect1d, setdiff1d in Hv; apply filter_In in Hv; apply Hv.
  - exists r. split; [|split; auto].
    rewrite nth_error_set_nth_neq; auto.
Qed.

(** With an array of doubles the mask is the set of rows inside the
    current region. *)
Lemma mask_stable (a : args) :
  float_bounds a = true ->
  stable a (fun st =>
    ss_indices st
    = map (row_in_region a (ss_bounds_cont st) (ss_bounds_cat st)) (X a)).
Proof.
  intro Hfloat. constructor; [|auto|auto].
  intros i st st' H Hstep. destruct Hstep; simpl; auto.
  - rewrite (@assigned_float a s Hfloat) in Hside.
    rewrite H, band_map. apply map_ext. intro row. unfold row_in_region.
    rewrite (@forallb_combine_set_nth _
               (fun p => in_interval (nth (fst p) row NaN) (snd p))
               (cont_dims a) (ss_bounds_cont st) k f (lo, hi) b'
               (cond (nth f row NaN)) Hdim Hbound).
    + destruct (forallb _ (combine (cont_dims a) (ss_bounds_cont st))),
        (forallb _ (combine (cat_dims a) (ss_bounds_cat st))),
        (cond (nth f row NaN)); reflexivity.
    + simpl. destruct Hside as [[-> ->]|[-> ->]].
      * apply in_interval_raise. exact Hlo.
      * apply in_interval_lower. exact Hhi.
  - rewrite H, band_map. apply map_ext. intro row. unfold row_in_region.
    rewrite (@forallb_combine_set_nth _
               (fun p => contains (nth (fst p) row NaN) (snd p))
               (cat_dims a) (ss_bounds_cat st) k f cur r'
               (cond (nth f row NaN)) Hdim Hbound).
    + destruct (forallb _ (combine (cont_dims a) (ss_bounds_cont st))),
        (forallb _ (combine (cat_dims a) (ss_bounds_cat st))),
        (cond (nth f row NaN)); reflexivity.
    + simpl. destruct Hside as [[-> ->]|[-> ->]].
      * apply contains_intersect1d.
      * apply contains_setdiff1d.
Qed.

(** The mask never drops below [num_min] members by a shrink. *)
Lemma count_stable (a : args) :
  stable a (fun st => (num_min a <= count (ss_indices st))%Z).
Proof.
  constructor; [|auto|auto].
  intros i st st' H Hstep. destruct Hstep; simpl; auto; lia.
Qed.

(** With [num_min] at least the number of rows nothing is ever shrunk. *)
Lemma untouched_stable (a : args) (cont : list (Q * Q)) (cat : list (list Q))
  (m : list bool) :
  (count m <= num_min a)%Z ->
  stable a (fun st =>
    ss_bounds_cont st = cont /\ ss_bounds_cat st = cat /\ ss_indices st = m).
Proof.
  intro Hm. constructor; [|auto|auto].
  intros i st st' [H1 [H2 H3]] Hstep. destruct Hstep; simpl; auto.
  - exfalso. pose proof (count_band_le (ss_indices st)
      (map (fun row => cond (nth f row NaN)) (X a))). rewrite H3 in *. lia.
  - exfalso. pose proof (count_band_le (ss_indices st)
      (map (fun row => cond (nth f row NaN)) (X a))). rewrite H3 in *. lia.
Qed.

(** Region and mask change together, and only by a shrink that keeps more
    than [num_min] members. *)
Lemma together_stable (a : args) (cont : list (Q * Q)) (cat : list (list Q))
  (m : list bool) :
  stable a (fun st =>
    (ss_bounds_cont st = cont /\ ss_bounds_cat st = cat /\ ss_indices st = m)
    \/ (num_min a < count (ss_indices st))%Z).
Proof.
  constructor; [|auto|auto].
  intros i st st' H Hstep. destruct Hstep; simpl; auto.
Qed.

Lemma nth_error_band_true (m c : list bool) (i : nat) :
  nth_error (band m c) i = Some true -> nth_error m i = Some true.
Proof.
  unfold band. revert c i. induction m as [|x m IH]; intros [|y c] [|i] H;
    simpl in *; try discriminate.
  - destruct x; simpl in H; [reflexivity|discriminate].
  - eapply IH. exact H.
Qed.

(** The mask only loses members. *)
Lemma narrowing_stable (a : args) (m : list bool) :
  stable a (fun st =>
    forall i, nth_error (ss_indices st) i = Some true ->
              nth_error m i = Some true).
Proof.
  constructor; [|auto|auto].
  intros i st st' H Hstep. destruct Hstep; simpl; auto;
    intros j Hj; apply H; eapply nth_error_band_true; exact Hj.
Qed.

(** ** What [subspace_extraction] returns *)

Lemma extraction_init (a : args) (fuel : nat) (g g' : RandomState) (r : region) :
  subspace_extraction_fuel a fuel g = (Ok r, g') ->
  exists st0 g0, init_state a g = (Ok st0, g0).
Proof.
  unfold subspace_extraction_fuel, first_pass. intro H.
  destruct (init_state a g) as [[st0|e] g0]; [eauto|discriminate].
Qed.

Lemma forallb_map_repeat {A : Type} (f : A -> bool) (l : list A) :
  forallb f l = true -> map f l = repeat true (length l).
Proof.
  induction l as [|x l IH]; simpl; intro H; [reflexivity|].
  apply andb_true_iff in H. destruct H as [Hx Hl].
  rewrite Hx, IH; auto.
Qed.

Lemma row_in_region_no_cat (a : args) (bc : list (Q * Q))
  (c1 c2 : list (list Q)) (row : list float) :
  cat_dims a = [] -> row_in_region a bc c1 row = row_in_region a bc c2 row.
Proof.
  intro H. unfold row_in_region. rewrite H. reflexivity.
Qed.

Lemma Forall2_refl {A : Type} (R : A -> A -> Prop) (l : list A) :
  (forall x, R x x) -> Forall2 R l l.
Proof.
  intro H. induction l; constructor; auto.
Qed.

Lemma returned_stable (a : args) (P : state -> Prop) (g g0 g' : RandomState)
  (st0 : state) (r : region) :
  stable a P -> init_state a g = (Ok st0, g0) -> P st0 ->
  subspace_extraction a g = (Ok r, g') ->
  exists st, P st /\ r = to_region st.
Proof.
  intros HP Hi H0 H. eapply extraction_stable; eauto.
Qed.

(** C1 (as amended).  A well-formed call returns, and whatever a call
    returns satisfies: every continuous interval lies inside the full-space
    bound of its dimension; the retained set of every categorical dimension
    is part of the full domain, and non-empty when that domain is; and when
    [np.array(bounds)] is an array of doubles and every row of [X] lies in
    the full space, the mask is true for exactly the rows inside the returned
    bounds and retained sets. *)
Theorem subspace_extraction_region (a : args) (g : RandomState) :
  (wf_args a = true -> exists r g', subspace_extraction a g = (Ok r, g'))
  /\ forall r g', subspace_extraction a g = (Ok r, g') ->
       Forall2 sub_interval (full_bounds_cont a) (union_bounds_cont r)
       /\ (forall k dom, nth_error (full_bounds_cat a) k = Some dom ->
           exists s, nth_error (union_bounds_cat r) k = Some s
                     /\ incl s dom /\ (dom <> [] -> s <> []))
       /\ (float_bounds a = true -> rows_in_full_space a = true ->
           in_ss_dims r
           = map (row_in_region a (union_bounds_cont r) (union_bounds_cat r))
                 (X a)).
Proof.
  split.
  - intro Hwf.
    destruct (extraction_runs a g Hwf)
      as [st0 [g0 [st1 [g1 [st2 [g2 [_ [_ [_ [H _]]]]]]]]]].
    eauto.
  - intros r g' H.
    destruct (extraction_init _ _ _ H) as [st0 [g0 Hi]].
    destruct (init_state_spec a g Hi) as [_ [_ [_ [Hm [Hc Hk]]]]].
    split; [|split].
    + destruct (fun H0 => @returned_stable a _ g g0 g' st0 r
                               (sub_interval_stable a) Hi H0 H)
        as [st [[_ Hst] ->]]; [|exact Hst].
      split; [exact (@typed_init a st0 Hc)|].
      rewrite Hc. apply Forall2_refl. intro x. split; apply Qle_refl.
    + destruct (fun H0 => @returned_stable a _ g g0 g' st0 r
                               (retained_stable a) Hi H0 H)
        as [st [Hst ->]]; [|exact Hst].
      intros k dom Hdom. destruct Hk as [Hk|[Hk _]].
      * exists dom. rewrite Hk. split; [exact Hdom|]. split; [|auto].
        apply incl_refl.
      * unfold full_bounds_cat in Hdom. rewrite Hk in Hdom.
        destruct k; discriminate.
    + intros Hfloat Hrows.
      destruct (fun H0 => @returned_stable a _ g g0 g' st0 r
                               (@mask_stable a Hfloat) Hi H0 H)
        as [st [Hst ->]]; [|exact Hst].
      rewrite Hm, Hc. unfold rows_in_full_space in Hrows.
      apply forallb_map_repeat in Hrows. rewrite <- Hrows.
      apply map_ext. intro row. destruct Hk as [Hk|[Hk _]].
      * rewrite Hk. reflexivity.
      * apply row_in_region_no_cat. exact Hk.
Qed.

(** C2.  A well-formed call returns, and whatever a call with
    [num_min <= |X|] returns, its mask has at least [num_min] true entries
    (whether or not the second pass ran). *)
Theorem subspace_extraction_min_count (a : args) (g : RandomState) :
  (wf_args a = true -> exists r g', subspace_extraction a g = (Ok r, g'))
  /\ forall r g', subspace_extraction a g = (Ok r, g') ->
       (num_min a <= Z.of_nat (length (X a)))%Z ->
       (num_min a <= count (in_ss_dims r))%Z.
Proof.
  split.
  - intro Hwf.
    destruct (extraction_runs a g Hwf)
      as [st0 [g0 [st1 [g1 [st2 [g2 [_ [_ [_ [H _]]]]]]]]]].
    eauto.
  - intros r g' H Hmin.
    destruct (extraction_init _ _ _ H) as [st0 [g0 Hi]].
    destruct (init_state_spec a g Hi) as [_ [_ [_ [Hm _]]]].
    destruct (fun H0 => @returned_stable a _ g g0 g' st0 r
                          (count_stable a) Hi H0 H)
      as [st [Hst E]].
    + rewrite Hm, count_repeat_true. exact Hmin.
    + rewrite E. exact Hst.
Qed.

(** every execution of the loop body leaves region and mask as they were
    or commits one shrink on both *)
Lemma step_together (a : args) (i : nat) (st st' : state) :
  step a i st st' -> together a st st'.
Proof.
  intro Hstep. destruct Hstep; try (left; repeat split; reflexivity); right.
  - eapply shrink_cont with (k := k) (b' := b') (cond := cond); eauto.
  - eapply shrink_cat with (k := k) (r' := r') (cond := cond); eauto.
Qed.

Lemma shrunk_stable (a : args) (st1 : state) : stable a (shrunk a st1).
Proof.
  constructor.
  - intros i st st' H Hstep. eapply shrunk_step; [exact H|].
    eapply step_together. exact Hstep.
  - intros order st H. eapply shrunk_step; [exact H|].
    left. repeat split; reflexivity.
  - intros st H. eapply shrunk_step; [exact H|].
    left. repeat split; reflexivity.
Qed.


(** C5 (as amended).  A well-formed call never raises, whatever [num_min]
    and [num_max] are; and whatever a call returns when [num_min] is at least
    the number of rows of [X] is the full-space region with an all-true
    mask. *)
Theorem subspace_extraction_too_few_points (a : args) (g : RandomState) :
  (wf_args a = true -> exists r g', subspace_extraction a g = (Ok r, g'))
  /\ forall r g', subspace_extraction a g = (Ok r, g') ->
       (Z.of_nat (length (X a)) <= num_min a)%Z ->
       union_bounds_cont r = full_bounds_cont a
       /\ (union_bounds_cat r = full_bounds_cat a
           \/ (cat_dims a = [] /\ union_bounds_cat r = [[]]))
       /\ in_ss_dims r = repeat true (length (X a)).
Proof.
  split.
  - intro Hwf.
    destruct (extraction_runs a g Hwf)
      as [st0 [g0 [st1 [g1 [st2 [g2 [_ [_ [_ [H _]]]]]]]]]].
    eauto.
  - intros r g' H Hfew.
    destruct (extraction_init _ _ _ H) as [st0 [g0 Hi]].
    destruct (init_state_spec a g Hi) as [_ [_ [_ [Hm [Hc Hk]]]]].
    assert (Hcount : (count (ss_indices st0) <= num_min a)%Z).
    { rewrite Hm, count_repeat_true. exact Hfew. }
    destruct (fun H0 => @returned_stable a _ g g0 g' st0 r
                (@untouched_stable a (ss_bounds_cont st0) (ss_bounds_cat st0)
                   (ss_indices st0) Hcount) Hi H0 H)
      as [st [[E1 [E2 E3]] E]].
    + auto.
    + rewrite E. simpl. rewrite E1, E2, E3, Hc, Hm.
      split; [reflexivity|]. split; [|reflexivity].
      destruct Hk as [Hk|[Hk1 Hk2]]; [left; exact Hk|right; auto].
Qed.

(** ** The extractor on concrete calls *)

Import Examples.

Lemma subspace_extraction_region_witness :
  exists r g',
    subspace_extraction a_mixed g0 = (Ok r, g')
    /\ Forall2 sub_interval (full_bounds_cont a_mixed) (union_bounds_cont r)
    /\ in_ss_dims r
       = map (row_in_region a_mixed (union_bounds_cont r) (union_bounds_cat r))
             (X a_mixed).
Proof.
  destruct (subspace_extraction_region a_mixed g0) as [Htotal Hreturned].
  destruct (Htotal eq_refl) as [r [g' Hr]].
  exists r, g'. split; [exact Hr|].
  destruct (Hreturned r g' Hr) as [Hcont [_ Hmask]].
  split; [exact Hcont|]. apply Hmask; reflexivity.
Defined.

(** C1, counterexample.  The first row has an inactive (NaN) second
    hyperparameter and the second row lies outside the bounds of the second
    dimension: both are members of the returned mask, neither lies inside the
    returned bounds. *)
Lemma mask_keeps_rows_outside_full_space :
  wf_args a_outside = true
  /\ fst (subspace_extraction a_outside g0)
     = Ok {| union_bounds_cont := [(1 # 2, 1); (0, 1)];
             union_bounds_cat := [[]];
             in_ss_dims := [true; true; true; false] |}
  /\ map (row_in_region a_outside [(1 # 2, 1); (0, 1)] [[]]) (X a_outside)
     = [false; false; true; false].
Proof.
  repeat split; vm_compute; reflexivity.
Qed.

(** C1, the array of integers.  With bounds given as integers the split
    value 0.5 is stored as 0 while the mask is narrowed by 0.5 itself: the
    call returns the interval [0, 1] with the rows 0.6 and 0.9 as members,
    and the rows 0.1 and 0.2, which lie inside the returned interval, are not
    members; with the challenger 0.3 below the split value it returns the
    interval [0, 0], which does not hold the challenger. *)
Lemma integer_bounds_keep_truncated_split :
  rows_in_full_space MoreExamples.a_integer = true
  /\ fst (subspace_extraction MoreExamples.a_integer g0)
     = Ok {| union_bounds_cont := [(0, 1)];
             union_bounds_cat := [[]];
             in_ss_dims := [false; false; true; true] |}
  /\ map (row_in_region MoreExamples.a_integer [(0, 1)] [[]])
         (X MoreExamples.a_integer)
     = [true; true; true; true]
  /\ fst (subspace_extraction MoreExamples.a_integer_low g0)
     = Ok {| union_bounds_cont := [(0, 0)];
             union_bounds_cat := [[]];
             in_ss_dims := [true; true; false; false] |}
  /\ row_in_region MoreExamples.a_integer_low [(0, 0)] [[]]
       (challenger MoreExamples.a_integer_low) = false.
Proof.
  repeat split; vm_compute; reflexivity.
Qed.

Lemma subspace_extraction_min_count_witness :
  exists r g', subspace_extraction a_mixed g0 = (Ok r, g')
               /\ (num_min a_mixed <= count (in_ss_dims r))%Z.
Proof.
  destruct (subspace_extraction_min_count a_mixed g0) as [Htotal Hreturned].
  destruct (Htotal eq_refl) as [r [g' Hr]].
  exists r, g'. split; [exact Hr|].
  apply (Hreturned r g' Hr). vm_compute. discriminate.
Defined.

(** C3, the code at a failing input.  [num_min = 2 <= num_max = 3] and five
    rows: the first pass ends with all five rows as members, the second pass
    runs, and the returned mask still has five true entries. *)
Theorem max_pass_leaves_more_than_num_max :
  wf_args a_max = true
  /\ (num_min a_max <= num_max a_max)%Z
  /\ (num_min a_max <= Z.of_nat (length (X a_max)))%Z
  /\ (exists st1 g1,
        first_pass a_max (enough_fuel a_max) g0 = (Ok st1, g1)
        /\ (num_max a_max < count (ss_indices st1))%Z)
  /\ fst (subspace_extraction a_max g0)
     = Ok {| union_bounds_cont := [(0, 1)];
             union_bounds_cat := [[]];
             in_ss_dims := [true; true; true; true; true] |}
  /\ (num_max a_max < count [true; true; true; true; true])%Z.
Proof.
  split; [reflexivity|]. split; [vm_compute; discriminate|].
  split; [vm_compute; discriminate|]. split.
  - eexists. eexists. split; [reflexivity|]. reflexivity.
  - split; reflexivity.
Qed.

(** The member count is never more than the number of rows. *)
Lemma count_le_rows (a : args) (g g' : RandomState) (r : region) :
  subspace_extraction a g = (Ok r, g') ->
  (count (in_ss_dims r) <= Z.of_nat (length (X a)))%Z.
Proof.
  intro H. destruct (extraction_init _ _ _ H) as [st0 [g0 Hi]].
  destruct (init_state_spec a g Hi) as [_ [_ [_ [Hm _]]]].
  assert (HP : stable a (fun st =>
                 (count (ss_indices st) <= Z.of_nat (length (X a)))%Z)).
  { constructor; [|auto|auto].
    intros i st st' Hst Hstep.
    destruct Hstep; simpl; auto;
      pose proof (count_band_le (ss_indices st)
                    (map (fun row => cond (nth f row NaN)) (X a))); lia. }
  destruct (fun H0 => @returned_stable a _ g g0 g' st0 r HP Hi H0 H)
    as [st [Hst ->]]; [|exact Hst].
  rewrite Hm, count_repeat_true. lia.
Qed.



Lemma subspace_extraction_too_few_points_witness :
  exists r g',
    subspace_extraction a_few g0 = (Ok r, g')
    /\ union_bounds_cont r = full_bounds_cont a_few
    /\ in_ss_dims r = repeat true (length (X a_few)).
Proof.
  destruct (subspace_extraction_too_few_points a_few g0) as [Htotal Hreturned].
  destruct (Htotal eq_refl) as [r [g' Hr]].
  exists r, g'. split; [exact Hr|].
  destruct (Hreturned r g' Hr) as [Hcont [_ Hmask]].
  - vm_compute. discriminate.
  - split; [exact Hcont|exact Hmask].
Defined.

(** C5, counterexample.  With [num_min = 1 > num_max = 0] the extractor
    shrinks the region as usual: the returned interval is [[1/2, 1]], not the
    full-space interval [[0, 1]]. *)
Lemma inverted_counts_still_shrink :
  (num_max a_inverted < num_min a_inverted)%Z
  /\ full_bounds_cont a_inverted = [(0, 1)]
  /\ fst (subspace_extraction a_inverted g0)
     = Ok {| union_bounds_cont := [(1 # 2, 1)];
             union_bounds_cat := [[]];
             in_ss_dims := [false; false; true; true] |}.
Proof.
  repeat split; reflexivity.
Qed.

(** C8, the code at a failing input.  The same call, run on two states of
    the module-level generator of numpy, returns two different regions; the
    generator of the chooser is no argument of [subspace_extraction]. *)
Theorem region_depends_on_global_generator :
  fst (subspace_extraction a_order g0)
  = Ok {| union_bounds_cont := [(1 # 2, 1); (0, 1)];
          union_bounds_cat := [[]];
          in_ss_dims := [false; false; true; true] |}
  /\ fst (subspace_extraction a_order g1)
     = Ok {| union_bounds_cont := [(0, 1); (1 # 2, 1)];
             union_bounds_cat := [[]];
             in_ss_dims := [false; true; false; true] |}.
Proof.
  split; reflexivity.
Qed.

(* ================================================================== *)
(** ** The chooser *)

Lemma insert_desc_In (b x : Q) (l : list Q) :
  In x (insert_desc b l) -> x = b \/ In x l.
Proof.
  induction l as [|y l IH]; simpl.
  - intros [H|[]]. left. congruence.
  - destruct (Qeq_bool b y); [auto|].
    destruct (Qle_bool y b); simpl.
    + intros [H|H]; [left; congruence|right; exact H].
    + intros [H|H]; [right; left; exact H|].
      destruct (IH H) as [H1|H1]; auto.
Qed.

Lemma sorted_budgets_In (x : Q) (l : list Q) :
  In x (sorted_budgets l) -> In x l.
Proof.
  unfold sorted_budgets. induction l as [|b l IH]; simpl; [auto|].
  intro H. destruct (insert_desc_In _ _ _ H) as [H1|H1]; auto.
Qed.

Section ChooserFacts.

Variable T : Type.
Variable turbo : TuRBOSubSpace.ops T.
Variable train : list (list float) -> list Q -> list tree.
Variable sample_configuration :
  nat -> RandomState -> list (list float) * RandomState.
Variable RunHistory : Type.
Variable run_budgets : RunHistory -> list Q.
Variable transform_with_raw :
  RunHistory -> list Q -> list (list float) * list Q * list Q.
Variable get_configurations : RunHistory -> list Q -> list (list float).

Local Abbreviation collect :=
  (_collect_all_data_to_train_model run_budgets transform_with_raw
     get_configurations).
Local Abbreviation restart := (restart_TuRBOinG turbo train sample_configuration).
Local Abbreviation exhausted := (exhausted_trial turbo train sample_configuration).
Local Abbreviation trial :=
  (turbo_trial turbo train sample_configuration run_budgets transform_with_raw
     get_configurations).
Local Abbreviation choose :=
  (choose_next turbo train sample_configuration run_budgets transform_with_raw
     get_configurations).

Lemma first_budget_none (c : chooser T) (rh : RunHistory) (bs : list Q) :
  (forall b, In b bs ->
     (length (fst (fst (transform_with_raw rh [b]))) < min_samples_model c)%nat) ->
  first_budget transform_with_raw get_configurations c rh bs = None.
Proof.
  induction bs as [|b bs IH]; simpl; intro H; [reflexivity|].
  pose proof (H b (or_introl eq_refl)) as Hb.
  destruct (transform_with_raw rh [b]) as [[X0 Y0] Yr]. simpl in Hb.
  destruct (min_samples_model c <=? length X0)%nat eqn:E.
  - apply Nat.leb_le in E. lia.
  - apply IH. intros b' Hb'. apply H. right. exact Hb'.
Qed.

Lemma collect_flags (c c' : chooser T) (rh : RunHistory) (d : data) :
  collect c rh = (c', d) ->
  c' = c \/ exists b, c' = set_budgets [b] c.
Proof.
  unfold _collect_all_data_to_train_model.
  destruct (first_budget _ _ c rh _) as [[b d0]|]; intro H; inversion H; eauto.
Qed.

Lemma restart_fields (c c' : chooser T) (d : data) (tm : bool) (w w' : world) :
  restart c d tm w = (Ok c', w') ->
  run_TuRBO c' = run_TuRBO c
  /\ failcount_BOinG c' = failcount_BOinG c
  /\ failcount_TurBO c' = failcount_TurBO c
  /\ log c' = RestartTuRBO :: (if tm then Train :: log c else log c).
Proof.
  unfold restart_TuRBOinG.
  destruct (sample_configuration 20 (cs_random w)) as [samples cs].
  destruct (probe _ _ samples (np_random w)) as [[union|e] g];
    [|intro H; inversion H].
  intro H. inversion H as [[H1 H2]]. clear H H2.
  destruct tm; simpl in H1.
  - destruct (ch_cont_dims c); [discriminate|].
    destruct (argmax _) as [i|]; simpl in H1; [|discriminate].
    destruct (lookup union i) as [r|]; simpl in H1; [|discriminate].
    ok_inv H1. simpl. auto.
  - destruct (ch_cont_dims c); [discriminate|].
    destruct (argmax _) as [i|]; simpl in H1; [|discriminate].
    destruct (lookup union i) as [r|]; simpl in H1; [|discriminate].
    ok_inv H1. simpl. auto.
Qed.

Lemma qualifying_fields (c c1 : chooser T) (d : data) (optimal_turbo : Q) :
  qualifying_improvement c d optimal_turbo = Ok c1 ->
  rng c1 = rng c /\ log c1 = log c
  /\ ((failcount_TurBO c < failcount_TurBO c1)%Z ->
      lt (sub (Fin optimal_turbo) (optimal_value c)) (Fin 0) = false)
  /\ (run_TuRBO c1 = run_TuRBO c ->
      run_TuRBO c = true -> failcount_BOinG c1 = failcount_BOinG c).
Proof.
  unfold qualifying_improvement.
  destruct (lt (sub (Fin optimal_turbo) (optimal_value c)) (Fin 0)) eqn:E.
  - destruct (argmin (dY_raw d)) as [i|]; cbn [bind]; [|discriminate].
    destruct (lookup (dY_raw d) i) as [y|]; cbn [bind]; [|discriminate].
    destruct (lookup (dX d) i) as [x|]; cbn [bind]; [|discriminate].
    destruct (optimal_config (set_optimal_value (Fin y) c)) as [old|];
      cbn [bind]; [|discriminate].
    destruct (_ || _); intro H; ok_inv H; simpl.
    + repeat split; auto; try lia. intros H1 H2. congruence.
    + repeat split; auto; lia.
  - intro H. ok_inv H. simpl. repeat split; auto.
Qed.

Lemma turbo_trial_candidates (c0 c' : chooser T) (rh : RunHistory)
  (w w' : world) (cand : candidates) :
  trial c0 rh w = (Ok (c', cand), w') -> cand = TurboChallengers.
Proof.
  unfold turbo_trial.
  destruct (collect c0 rh) as [c d].
  destruct (0 <? _)%nat; [intro H; inversion H; reflexivity|].
  destruct (Qlt_bool _ _); [|intro H; inversion H; reflexivity].
  unfold exhausted_trial.
  destruct (bind _ _) as [c1|e]; [|intro H; inversion H].
  destruct (random (rng c1)) as [rand g].
  destruct (Qlt_bool rand _); [intro H; inversion H; reflexivity|].
  destruct (restart_TuRBOinG _ _ _ _ _ _ _) as [[c3|e] w3];
    intro H; inversion H; reflexivity.
Qed.

(** C7 (as amended).  A trial that starts in trust-region mode returns
    trust-region candidates, also when it switched to region search.  In an
    exhausted trial [failcount_TurBO] is incremented only when the
    improvement is not negative; and when the qualifying-improvement test
    did not switch to region search, the chooser switches (halving
    [failcount_BOinG], with no restart and no training) if the uniform draw
    is below [0.1 * failcount_TurBO], and otherwise retrains the model,
    restarts the trust-region optimizer and stays in trust-region mode. *)
Theorem trust_region_trial_outcome :
  (forall c0 rh incumbent_value w c' cand w',
      do_switching c0 = true -> run_TuRBO c0 = true ->
      choose c0 rh incumbent_value w = (Ok (c', cand), w') ->
      cand = TurboChallengers)
  /\ (forall c d w c' cand w' optimal_turbo c1,
      np_min (TuRBOSubSpace.ss_y turbo (turbo_optimizer c)) = Ok optimal_turbo ->
      qualifying_improvement c d optimal_turbo = Ok c1 ->
      exhausted c d w = (Ok (c', cand), w') ->
      ((failcount_TurBO c < failcount_TurBO c')%Z ->
       lt (sub (Fin optimal_turbo) (optimal_value c)) (Fin 0) = false)
      /\ (run_TuRBO c = true -> run_TuRBO c1 = true ->
          if Qlt_bool (fst (random (rng c)))
                      ((1 # 10) * inject_Z (failcount_TurBO c1))
          then run_TuRBO c' = false
               /\ failcount_BOinG c' = (failcount_BOinG c / 2)%Z
               /\ log c' = log c
          else run_TuRBO c' = true
               /\ failcount_BOinG c' = failcount_BOinG c
               /\ log c' = RestartTuRBO :: Train :: log c)).
Proof.
  split.
  - intros c0 rh iv w c' cand w' Hd Hr. unfold choose_next.
    destruct (collect c0 rh) as [c d] eqn:Hc.
    assert (E : do_switching c && run_TuRBO c = true).
    { destruct (collect_flags _ _ Hc) as [->|[b ->]]; simpl;
        rewrite Hd, Hr; reflexivity. }
    rewrite E. apply turbo_trial_candidates.
  - intros c d w c' cand w' optimal_turbo c1 Hmin Hq. unfold exhausted_trial.
    rewrite Hmin. cbn [bind]. rewrite Hq.
    destruct (qualifying_fields _ _ _ Hq) as [Hrng [Hlog [Hinc Hfb]]].
    rewrite Hrng.
    destruct (random (rng c)) as [rand g]. cbn [fst].
    destruct (Qlt_bool rand _).
    + intro H. inversion H; subst. clear H. simpl. split.
      * exact Hinc.
      * intros Hr Hr1. rewrite Hfb by congruence. auto.
    + destruct (restart_TuRBOinG _ _ _ _ _ _ _) as [[c3|e] w3] eqn:Hres;
        intro H; inversion H; subst; clear H.
      destruct (restart_fields _ _ _ _ Hres) as [R1 [R2 [R3 R4]]].
      simpl in R1, R2, R3, R4. split.
      * rewrite R3. exact Hinc.
      * intros Hr Hr1. rewrite R1, R2, R4, Hlog.
        rewrite Hfb by congruence. auto.
Qed.

(** The chooser, as far as it is modelled here, never enters trust-region
    mode: only the switching block of a region-search trial, which runs on
    non-empty data, sets [run_TuRBO]. *)
Lemma choose_next_keeps_region_search (c0 c' : chooser T) (rh : RunHistory)
  (incumbent_value : option Q) (w w' : world) (cand : candidates) :
  do_switching c0 && run_TuRBO c0 = false ->
  choose c0 rh incumbent_value w = (Ok (c', cand), w') ->
  run_TuRBO c' = run_TuRBO c0 /\ log c' = log c0 /\ cand <> TurboChallengers.
Proof.
  intros Hmode. unfold choose_next.
  destruct (collect c0 rh) as [c d] eqn:Hc.
  assert (E : do_switching c && run_TuRBO c = false
              /\ run_TuRBO c = run_TuRBO c0 /\ log c = log c0).
  { destruct (collect_flags _ _ Hc) as [->|[b ->]]; simpl; auto. }
  destruct E as [E [E1 E2]]. rewrite E.
  destruct (Nat.eqb _ 0); intro H; inversion H; subst;
    repeat split; auto; discriminate.
Qed.


End ChooserFacts.

(** ** The chooser on concrete trials *)

Import Trials RegionTrials.

(** C6, the code at a failing input.  The best value seen is 1000.5 and the
    exhausted trust region found 999.5 at a point whose first coordinate is
    that of the old best point: the improvement, -1, does not exceed one
    thousandth of the previous best, and the product of the coordinate
    differences is 0, so the test of the specification fails.  The code has
    already overwritten [optimal_value] with 999.5 when it compares, finds
    -1 < -0.9995, halves [failcount_BOinG] and leaves trust-region mode. *)
Theorem qualifying_test_compares_with_updated_best :
  spec_qualifying_test (optimal_value c_exhausted) (ss_threshold c_exhausted)
    (sub (Fin (1999 # 2)) (optimal_value c_exhausted))
    [F 5 10; F 5 10] [F 5 10; F 6 10] = false
  /\ run_TuRBO c_exhausted = true
  /\ failcount_BOinG c_exhausted = 4%Z
  /\ match qualifying_improvement c_exhausted d_two (1999 # 2) with
     | Ok c1 => run_TuRBO c1 = false
                /\ failcount_BOinG c1 = 2%Z
                /\ optimal_value c1 = Fin (1999 # 2)
     | Raise _ => False
     end.
Proof.
  split; [vm_compute; reflexivity|].
  split; [reflexivity|]. split; [reflexivity|].
  vm_compute. repeat split; reflexivity.
Qed.

(** The same test in the region-search trial compares with the previous
    best: with 100.5 seen before and 99.5 observed now, -1 is not below
    -1.005, and [failcount_BOinG] is only incremented. *)
Lemma region_search_test_compares_with_previous_best :
  failcount_BOinG c_region = 0%Z
  /\ match fst (region_search_switching toy_ops toy_train toy_sample
                  c_region d_region w0) with
     | Ok c1 => failcount_BOinG c1 = 1%Z /\ optimal_value c1 = Fin (199 # 2)
     | Raise _ => False
     end.
Proof.
  split; [reflexivity|]. vm_compute. split; reflexivity.
Qed.

(** C7, counterexample.  In this exhausted trial the qualifying-improvement
    test switches to region search; the draw is made all the same, is not
    below the probability -0.1, and the trial retrains the model, restarts
    the trust-region optimizer and returns its candidates. *)
Lemma qualifying_switch_still_restarts :
  match qualifying_improvement c_exhausted d_two (1999 # 2) with
  | Ok c1 => run_TuRBO c1 = false
  | Raise _ => False
  end
  /\ match fst (choose_next toy_ops toy_train toy_sample toy_budgets
                  toy_transform toy_configurations c_turbo rh_two None w0) with
     | Ok (c', cand) =>
         cand = TurboChallengers
         /\ run_TuRBO c' = false
         /\ log c' = [RestartTuRBO; Train]
     | Raise _ => False
     end.
Proof.
  split; vm_compute; repeat split; reflexivity.
Qed.

Lemma trust_region_trial_outcome_witness :
  match fst (choose_next toy_ops toy_train toy_sample toy_budgets
               toy_transform toy_configurations c_turbo rh_two None w0) with
  | Ok (_, cand) => cand = TurboChallengers
  | Raise _ => False
  end.
Proof.
  destruct (choose_next toy_ops toy_train toy_sample toy_budgets
              toy_transform toy_configurations c_turbo rh_two None w0)
    as [[[c' cand]|e] w'] eqn:E; simpl.
  - apply (proj1 (trust_region_trial_outcome toy_ops toy_train toy_sample
                    toy_budgets toy_transform toy_configurations))
      with (1 := eq_refl) (2 := eq_refl) (3 := E).
  - vm_compute in E. discriminate.
Defined.



(* ================================================================== *)
(** ** Acquisition values *)

Module AcquisitionFacts.

Import AbstractAcquisitionFunction.

Lemma nan_free_row (row : list float) :
  existsb isnan row = false -> Forall (fun x => isnan x = false) row.
Proof.
  induction row as [|x row IH]; simpl; intro H; constructor.
  - destruct (isnan x); [discriminate|reflexivity].
  - apply IH. destruct (isnan x); [discriminate|exact H].
Qed.

Lemma nan_free_rows (acq : list (list float)) :
  existsb (existsb isnan) acq = false ->
  Forall (Forall (fun x => isnan x = false)) acq.
Proof.
  induction acq as [|row acq IH]; simpl; intro H; constructor.
  - apply nan_free_row. destruct (existsb isnan row); [discriminate|reflexivity].
  - apply IH. destruct (existsb isnan row); [discriminate|exact H].
Qed.

(** C9 (as amended).  [__call__] overwrites every row of acquisition
    values that holds a NaN with the worst finite score
    [-np.finfo(float).max] and returns every other row as [_compute] gave
    it, infinite values included; the returned array holds no NaN. *)
Theorem call_replaces_nan_rows (Configuration : Type)
  (convert_configurations_to_array : list Configuration -> ndarray)
  (_compute : list (list float) -> list (list float))
  (configurations : list Configuration) :
  let X := match convert_configurations_to_array configurations with
           | Array1 v => [v]
           | Array2 rows => rows
           end in
  let out := __call__ convert_configurations_to_array _compute configurations in
  out = map (fun row => if existsb isnan row
                        then map (fun _ => Fin (- finfo_max)) row
                        else row) (_compute X)
  /\ Forall (Forall (fun x => isnan x = false)) out.
Proof.
  intros X0 out. subst out X0. unfold __call__.
  set (acq := _compute _). clearbody acq.
  assert (Hmap : forall l : list (list float),
    Forall (Forall (fun x => isnan x = false))
      (map (fun row => if existsb isnan row
                       then map (fun _ => Fin (- finfo_max)) row
                       else row) l)).
  { induction l as [|row l IH]; simpl; constructor; [|exact IH].
    destruct (existsb isnan row) eqn:E.
    - clear. induction row; simpl; constructor; auto.
    - apply nan_free_row. exact E. }
  destruct (existsb (existsb isnan) acq) eqn:E.
  - split; [reflexivity|apply Hmap].
  - split; [|apply nan_free_rows; exact E].
    clear Hmap. induction acq as [|row acq IH]; simpl in *; [reflexivity|].
    destruct (existsb isnan row); [discriminate|].
    f_equal. apply IH. exact E.
Qed.

(** C9, counterexample.  An infinite acquisition value is returned as it
    is: positive infinity is not replaced by the worst score. *)
Lemma call_keeps_infinite_values :
  __call__ (fun _ : list unit => Array2 [[Fin 0]; [Fin 1]])
           (fun _ => [[PInf]; [NaN]]) [tt; tt]
  = [[PInf]; [Fin (- finfo_max)]].
Proof.
  unfold __call__. simpl. reflexivity.
Qed.

End AcquisitionFacts.

(* ================================================================== *)
(** * Further properties of the extractor *)

(** ** Invariants stated on the loop body itself *)

Section Kept.

Variable a : args.
Variable P : state -> Prop.
Hypothesis Hvisit :
  forall check i st st', P st -> visit a check i st = Ok st' -> P st'.
Hypothesis Horder : forall order st, P st -> P (set_order order st).
Hypothesis Hreset : forall st, P st -> P (reset_stop st).

Lemma visit_all_kept (check : bool) (order : list nat) (st st' : state) :
  P st -> visit_all a check order st = Ok st' -> P st'.
Proof.
  revert st. induction order as [|i order IH]; simpl; intros st Hst H.
  - ok_inv H. exact Hst.
  - destruct (visit a check i st) as [st1|] eqn:E; simpl in H; [|discriminate].
    apply IH with (st := st1); [|exact H]. eapply Hvisit; eauto.
Qed.

Lemma while_running_kept (fuel : nat) (check : bool) (st st' : state)
  (g g' : RandomState) :
  P st -> while_running a fuel check st g = (Ok st', g') -> P st'.
Proof.
  revert st g. induction fuel as [|fuel IH]; simpl; intros st g Hst H.
  - destruct (some_running st); inversion H; subst. exact Hst.
  - destruct (some_running st).
    + unfold traverse_forest in H.
      destruct (shuffle (indices_trees st) g) as [order g1].
      destruct (visit_all a check order (set_order order st)) as [st1|e] eqn:E;
        [|inversion H].
      eapply IH; [|exact H]. eapply visit_all_kept; [|exact E].
      apply Horder. exact Hst.
    + inversion H; subst. exact Hst.
Qed.

Lemma returned_kept (g g0 g' : RandomState) (st0 : state) (r : region) :
  init_state a g = (Ok st0, g0) -> P st0 ->
  subspace_extraction a g = (Ok r, g') ->
  exists st, P st /\ r = to_region st.
Proof.
  unfold subspace_extraction, subspace_extraction_fuel, first_pass.
  intros Hi H0 H. rewrite Hi in H.
  destruct (while_running a (enough_fuel a) true st0 g0) as [[st1|e] g1] eqn:E1;
    [|inversion H].
  destruct (second_pass a (enough_fuel a) st1 g1) as [[st2|e] g2] eqn:E2;
    [|inversion H].
  inversion H; subst. exists st2. split; [|reflexivity].
  assert (H1 : P st1) by (eapply while_running_kept; eauto).
  unfold second_pass in E2.
  destruct (num_max a <? count (ss_indices st1))%Z.
  - eapply while_running_kept; [|exact E2]. apply Hreset. exact H1.
  - inversion E2; subst. exact H1.
Qed.

End Kept.

Lemma forallb_combine_nth {B : Type} (P : nat * B -> bool) (dims : list nat)
  (bs : list B) (k d : nat) (b : B) :
  forallb P (combine dims bs) = true ->
  nth_error dims k = Some d -> nth_error bs k = Some b -> P (d, b) = true.
Proof.
  revert bs k. induction dims as [|d0 dims IH]; intros [|b0 bs] [|k] H Hd Hb;
    simpl in *; try discriminate.
  - inversion Hd; inversion Hb; subst.
    apply andb_true_iff in H. apply H.
  - apply andb_true_iff in H. eapply IH; [apply H|exact Hd|exact Hb].
Qed.

Lemma in_interval_finite (x : float) (b : Q * Q) :
  in_interval x b = true ->
  exists q, x = Fin q /\ Qle_bool (fst b) q = true /\ Qle_bool q (snd b) = true.
Proof.
  unfold in_interval. destruct x; simpl; try discriminate.
  intro H. apply andb_true_iff in H. eauto.
Qed.

Lemma Qle_bool_total (x y : Q) : Qle_bool x y = false -> Qle_bool y x = true.
Proof.
  intro H. apply Qle_bool_iff. destruct (Qlt_le_dec y x) as [Hlt|Hle].
  - apply Qlt_le_weak. exact Hlt.
  - apply Qle_bool_iff in Hle. congruence.
Qed.

(** With an array of doubles the region keeps the challenger. *)
Lemma challenger_kept (a : args) (check : bool) (i : nat) (st st' : state) :
  float_bounds a = true ->
  row_in_region a (ss_bounds_cont st) (ss_bounds_cat st) (challenger a) = true ->
  visit a check i st = Ok st' ->
  row_in_region a (ss_bounds_cont st') (ss_bounds_cat st') (challenger a) = true.
Proof.
  intros Hfloat HP. unfold visit.
  destruct (lookup (stop_update st) i) as [stop|]; cbn [bind]; [|discriminate].
  destruct stop; [intro H; ok_inv H; exact HP|].
  destruct (lookup (node_indices st) i) as [node|]; cbn [bind]; [|discriminate].
  destruct node as [|f s cs c0 c1]; [intro H; ok_inv H; exact HP|].
  rewrite !(@assigned_float a s Hfloat).
  assert (HP' := HP). unfold row_in_region in HP'.
  apply andb_true_iff in HP'. destruct HP' as [Hcont Hcat].
  destruct (where_eq f (cont_dims a)) as [|k [|k2 rest]] eqn:Hw.
  - destruct (lookup (where_eq f (cat_dims a)) 0) as [kc|] eqn:Hk;
      cbn [bind]; [|discriminate].
    apply lookup_Ok, nth_error_head_In, where_eq_spec in Hk.
    destruct (lookup (ss_bounds_cat st) kc) as [cur|] eqn:Hc; cbn [bind];
      [|discriminate].
    apply lookup_Ok in Hc.
    destruct (Nat.eqb _ (length cur)); [intro H; ok_inv H; exact HP|].
    destruct (Nat.eqb _ 0); [intro H; ok_inv H; exact HP|].
    destruct (lookup (challenger a) f) as [c|] eqn:Hch; cbn [bind];
      [|discriminate].
    apply lookup_Ok in Hch.
    assert (Hnth : nth f (challenger a) NaN = c) by (apply nth_error_nth; exact Hch).
    destruct (column f (X a)) as [col|]; cbn [bind]; [|discriminate].
    pose proof (forallb_combine_nth _ _ _ kc Hcat Hk Hc) as Hin.
    cbn [fst snd] in Hin. rewrite Hnth in Hin.
    destruct (contains c (intersect1d cur cs)) eqn:Ec; cbv beta iota;
      (destruct (num_min a <? _)%Z;
       [|destruct check; intro H; ok_inv H; exact HP]);
      intro H; ok_inv H; unfold row_in_region; simpl; rewrite Hcont; simpl.
    + rewrite (@forallb_combine_set_nth _
                 (fun p => contains (nth (fst p) (challenger a) NaN) (snd p))
                 (cat_dims a) (ss_bounds_cat st) kc f cur
                 (intersect1d cur cs) true Hk Hc).
      * rewrite Hcat. reflexivity.
      * cbn [fst snd]. rewrite Ec, Hin. reflexivity.
    + rewrite (@forallb_combine_set_nth _
                 (fun p => contains (nth (fst p) (challenger a) NaN) (snd p))
                 (cat_dims a) (ss_bounds_cat st) kc f cur
                 (setdiff1d cur cs) true Hk Hc).
      * rewrite Hcat. reflexivity.
      * cbn [fst snd]. rewrite Hin, contains_setdiff1d, Hin.
        rewrite contains_intersect1d, Hin in Ec. simpl in Ec. rewrite Ec.
        reflexivity.
  - assert (Hk : nth_error (cont_dims a) k = Some f).
    { apply where_eq_spec. rewrite Hw. left. reflexivity. }
    destruct (lookup (ss_bounds_cont st) k) as [[lo hi]|] eqn:Hb; cbn [bind fst snd];
      [|discriminate].
    apply lookup_Ok in Hb.
    destruct (Qle_bool lo s && Qle_bool s hi) eqn:Hin.
    + apply andb_true_iff in Hin. destruct Hin as [Hlo Hhi].
      apply Qle_bool_iff in Hlo, Hhi.
      destruct (lookup (challenger a) f) as [c|] eqn:Hch; cbn [bind];
        [|discriminate].
      apply lookup_Ok in Hch.
      assert (Hnth : nth f (challenger a) NaN = c)
        by (apply nth_error_nth; exact Hch).
      destruct (column f (X a)) as [col|]; cbn [bind]; [|discriminate].
      pose proof (forallb_combine_nth _ _ _ k Hcont Hk Hb) as Hc.
      cbn [fst snd] in Hc. rewrite Hnth in Hc.
      destruct (ge c (Fin s)) eqn:Eg; cbv beta iota;
        (destruct (num_min a <? _)%Z;
         [|destruct check; intro H; ok_inv H; exact HP]);
        intro H; ok_inv H; unfold row_in_region; simpl; rewrite Hcat;
        rewrite andb_true_r.
      * rewrite (@forallb_combine_set_nth _
                   (fun p => in_interval (nth (fst p) (challenger a) NaN) (snd p))
                   (cont_dims a) (ss_bounds_cont st) k f (lo, hi) (s, hi) true
                   Hk Hb).
        -- rewrite Hcont. reflexivity.
        -- cbn [fst snd]. rewrite (in_interval_raise _ hi Hlo), Hc, Eg.
           reflexivity.
      * rewrite (@forallb_combine_set_nth _
                   (fun p => in_interval (nth (fst p) (challenger a) NaN) (snd p))
                   (cont_dims a) (ss_bounds_cont st) k f (lo, hi) (lo, s) true
                   Hk Hb).
        -- rewrite Hcont. reflexivity.
        -- cbn [fst snd]. rewrite (in_interval_lower _ lo Hhi), Hc.
           destruct (in_interval_finite _ _ Hc) as [q [Eq [_ _]]].
           rewrite Eq in *.
           unfold ge in Eg. simpl in Eg. simpl.
           rewrite (Qle_bool_total _ _ Eg). reflexivity.
    + destruct (lookup (challenger a) f) as [c|]; cbn [bind]; [|discriminate].
      destruct (ge c (Fin s)); intro H; ok_inv H; exact HP.
  - discriminate.
Qed.

Import MoreExamples.

Lemma row_in_region_init (a : args) (g g0 : RandomState) (st0 : state)
  (row : list float) :
  init_state a g = (Ok st0, g0) ->
  row_in_region a (ss_bounds_cont st0) (ss_bounds_cat st0) row
  = row_in_region a (full_bounds_cont a) (full_bounds_cat a) row.
Proof.
  intro Hi. destruct (init_state_spec a g Hi) as [_ [_ [_ [_ [Hc Hk]]]]].
  rewrite Hc. destruct Hk as [Hk|[Hk _]].
  - rewrite Hk. reflexivity.
  - apply row_in_region_no_cat. exact Hk.
Qed.

(** X1.  When [np.array(bounds)] is an array of doubles, whatever a call
    returns, the challenger lies inside the returned bounds and retained
    sets whenever it lies inside the full space: the region is shrunk around
    the challenger, never away from it.  (In an array of integers the split
    value is stored truncated, and the challenger can be left outside.) *)
Theorem returned_region_holds_challenger (a : args) (g g' : RandomState)
  (r : region) :
  float_bounds a = true ->
  subspace_extraction a g = (Ok r, g') ->
  row_in_region a (full_bounds_cont a) (full_bounds_cat a) (challenger a) = true ->
  row_in_region a (union_bounds_cont r) (union_bounds_cat r) (challenger a) = true.
Proof.
  intros Hfloat H Hin. destruct (extraction_init _ _ _ H) as [st0 [g0 Hi]].
  destruct (@returned_kept a
              (fun st => row_in_region a (ss_bounds_cont st) (ss_bounds_cat st)
                           (challenger a) = true)
              (fun check i st st' => @challenger_kept a check i st st' Hfloat)
              (fun _ _ HP => HP) (fun _ HP => HP)
              g g0 g' st0 r Hi) as [st [Hst ->]].
  - rewrite (row_in_region_init a g _ Hi). exact Hin.
  - exact H.
  - exact Hst.
Qed.

Lemma returned_region_holds_challenger_witness :
  exists r g',
    subspace_extraction a_mixed g0 = (Ok r, g')
    /\ row_in_region a_mixed (union_bounds_cont r) (union_bounds_cat r)
         (challenger a_mixed) = true.
Proof.
  destruct (subspace_extraction a_mixed g0) as [[r|e] g'] eqn:E.
  - exists r, g'. split; [reflexivity|].
    apply (@returned_region_holds_challenger a_mixed g0 g' r eq_refl E).
    reflexivity.
  - vm_compute in E. discriminate.
Defined.

Lemma row_in_region_commit_cont (a : args) (bc : list (Q * Q))
  (bcat : list (list Q)) (row : list float) (k f : nat) (lo hi s : Q)
  (b' : Q * Q) (cond : float -> bool) :
  nth_error (cont_dims a) k = Some f -> nth_error bc k = Some (lo, hi) ->
  lo <= s -> s <= hi ->
  (b' = (s, hi) /\ cond = (fun x => ge x (Fin s)))
  \/ (b' = (lo, s) /\ cond = (fun x => le x (Fin s))) ->
  row_in_region a (set_nth k b' bc) bcat row
  = row_in_region a bc bcat row && cond (nth f row NaN).
Proof.
  intros Hdim Hbound Hlo Hhi Hside. unfold row_in_region.
  rewrite (@forallb_combine_set_nth _
             (fun p => in_interval (nth (fst p) row NaN) (snd p))
             (cont_dims a) bc k f (lo, hi) b' (cond (nth f row NaN)) Hdim Hbound).
  - destruct (forallb _ (combine (cont_dims a) bc)),
      (forallb _ (combine (cat_dims a) bcat)), (cond (nth f row NaN));
      reflexivity.
  - simpl. destruct Hside as [[-> ->]|[-> ->]].
    + apply in_interval_raise. exact Hlo.
    + apply in_interval_lower. exact Hhi.
Qed.

Lemma row_in_region_commit_cat (a : args) (bc : list (Q * Q))
  (bcat : list (list Q)) (row : list float) (k f : nat) (cur cs r' : list Q)
  (cond : float -> bool) :
  nth_error (cat_dims a) k = Some f -> nth_error bcat k = Some cur ->
  (r' = intersect1d cur cs /\ cond = (fun x => contains x cs))
  \/ (r' = setdiff1d cur cs /\ cond = (fun x => negb (contains x cs))) ->
  row_in_region a bc (set_nth k r' bcat) row
  = row_in_region a bc bcat row && cond (nth f row NaN).
Proof.
  intros Hdim Hbound Hside. unfold row_in_region.
  rewrite (@forallb_combine_set_nth _
             (fun p => contains (nth (fst p) row NaN) (snd p))
             (cat_dims a) bcat k f cur r' (cond (nth f row NaN)) Hdim Hbound).
  - destruct (forallb _ (combine (cont_dims a) bc)),
      (forallb _ (combine (cat_dims a) bcat)), (cond (nth f row NaN));
      reflexivity.
  - simpl. destruct Hside as [[-> ->]|[-> ->]].
    + apply contains_intersect1d.
    + apply contains_setdiff1d.
Qed.

Lemma nth_error_band (m c : list bool) (i : nat) (x y : bool) :
  nth_error m i = Some x -> nth_error c i = Some y ->
  nth_error (band m c) i = Some (x && y).
Proof.
  unfold band. revert c i. induction m as [|x0 m IH]; intros [|y0 c] [|i] Hx Hy;
    simpl in *; try discriminate.
  - inversion Hx; inversion Hy; subst. reflexivity.
  - apply IH; assumption.
Qed.

Lemma members_cover_stable (a : args) :
  float_bounds a = true ->
  stable a (fun st =>
    forall i row, nth_error (X a) i = Some row ->
      row_in_region a (ss_bounds_cont st) (ss_bounds_cat st) row = true ->
      nth_error (ss_indices st) i = Some true).
Proof.
  intro Hfloat. constructor; [|auto|auto].
  intros i st st' H Hstep. destruct Hstep; simpl; auto; intros j row Hrow Hin.
  - rewrite (@assigned_float a s Hfloat) in Hside.
    rewrite (@row_in_region_commit_cont a _ _ row k f lo hi s b' cond
               Hdim Hbound Hlo Hhi Hside) in Hin.
    apply andb_true_iff in Hin. destruct Hin as [Hin Hc].
    rewrite (@nth_error_band _ _ j _ _ (H j row Hrow Hin)
               (map_nth_error (fun row0 => cond (nth f row0 NaN)) j (X a) Hrow)).
    rewrite Hc. reflexivity.
  - rewrite (@row_in_region_commit_cat a _ _ row k f cur cs r' cond
               Hdim Hbound Hside) in Hin.
    apply andb_true_iff in Hin. destruct Hin as [Hin Hc].
    rewrite (@nth_error_band _ _ j _ _ (H j row Hrow Hin)
               (map_nth_error (fun row0 => cond (nth f row0 NaN)) j (X a) Hrow)).
    rewrite Hc. reflexivity.
Qed.

Lemma nth_error_repeat_lt {A : Type} (x : A) (n i : nat) :
  (i < n)%nat -> nth_error (repeat x n) i = Some x.
Proof.
  revert i. induction n as [|n IH]; intros [|i] H; simpl; try lia; auto.
  apply IH. lia.
Qed.

(** X2.  When [np.array(bounds)] is an array of doubles, for any matrix X,
    also one with rows outside the full space, a row that lies inside the
    returned bounds and retained sets is a member of the returned mask:
    filtering X by the returned region never finds a row that the mask
    leaves out.  (In an array of integers the split value is stored
    truncated, and rows between the stored and the real split value are
    inside the returned bounds without being members.) *)
Theorem rows_inside_region_are_members (a : args) (g g' : RandomState)
  (r : region) (i : nat) (row : list float) :
  float_bounds a = true ->
  subspace_extraction a g = (Ok r, g') ->
  nth_error (X a) i = Some row ->
  row_in_region a (union_bounds_cont r) (union_bounds_cat r) row = true ->
  nth_error (in_ss_dims r) i = Some true.
Proof.
  intros Hfloat H Hrow Hin. destruct (extraction_init _ _ _ H) as [st0 [g0 Hi]].
  destruct (init_state_spec a g Hi) as [_ [_ [_ [Hm _]]]].
  destruct (fun H0 => @returned_stable a _ g g0 g' st0 r
                        (@members_cover_stable a Hfloat) Hi H0 H)
    as [st [Hst ->]].
  - intros j row0 Hj _. rewrite Hm. apply nth_error_repeat_lt.
    eapply nth_error_lt. exact Hj.
  - apply (Hst i row Hrow Hin).
Qed.

Lemma rows_inside_region_are_members_witness :
  exists r g',
    subspace_extraction a_outside g0 = (Ok r, g')
    /\ nth_error (in_ss_dims r) 2 = Some true.
Proof.
  destruct (subspace_extraction a_outside g0) as [[r|e] g'] eqn:E.
  - exists r, g'. split; [reflexivity|].
    apply (@rows_inside_region_are_members a_outside g0 g' r 2
             [F 9 10; F 5 10] eq_refl E eq_refl).
    assert (Er : fst (subspace_extraction a_outside g0) = Ok r)
      by (rewrite E; reflexivity).
    vm_compute in Er. inversion Er. reflexivity.
  - vm_compute in E. discriminate.
Defined.

Lemma length_band_map {A : Type} (m : list bool) (f : A -> bool) (l : list A) :
  length m = length l -> length (band m (map f l)) = length l.
Proof.
  intro H. unfold band. rewrite length_map, length_combine, length_map. lia.
Qed.

Lemma shapes_stable (a : args) (n : nat) :
  stable a (fun st =>
    length (ss_indices st) = length (X a)
    /\ length (ss_bounds_cont st) = length (cont_dims a)
    /\ length (ss_bounds_cat st) = n).
Proof.
  constructor; [|auto|auto].
  intros i st st' [H1 [H2 H3]] Hstep.
  destruct Hstep; simpl; rewrite ?length_set_nth; auto.
  - split; [apply length_band_map; exact H1|auto].
  - split; [apply length_band_map; exact H1|auto].
Qed.

Lemma init_state_cat_length (a : args) (g g0 : RandomState) (st0 : state) :
  init_state a g = (Ok st0, g0) ->
  length (ss_bounds_cat st0) = Nat.max 1 (length (cat_dims a)).
Proof.
  intro Hi. destruct (init_state_spec a g Hi) as [_ [_ [_ [_ [_ Hk]]]]].
  revert Hi. unfold init_state.
  destruct (shuffle (seq 0 (length (model a))) g) as [order g1].
  intro H. inversion H as [[H1 H2]]. clear H H2.
  destruct (Nat.eqb (length (cat_dims a)) 0) eqn:E.
  - apply Nat.eqb_eq in E. cbn [bind] in H1.
    destruct (if Nat.eqb (length (cont_dims a)) 0 then Ok [] else _);
      cbn [bind] in H1; [|discriminate].
    ok_inv H1. simpl. rewrite E. reflexivity.
  - apply Nat.eqb_neq in E.
    destruct (mapM _ (cat_dims a)) as [cat|] eqn:Hcat; cbn [bind] in H1;
      [|discriminate].
    destruct (if Nat.eqb (length (cont_dims a)) 0 then Ok [] else _);
      cbn [bind] in H1; [|discriminate].
    ok_inv H1. cbn [ss_bounds_cat]. apply mapM_Ok_length in Hcat. lia.
Qed.

(** X3.  Whatever a call returns has the shapes its callers index with: the
    mask has one entry for each row of X, there is one interval for each
    continuous dimension, and the list of retained sets has one entry for each
    categorical dimension, or the single empty placeholder when there is no
    categorical dimension. *)
Theorem returned_shapes (a : args) (g g' : RandomState) (r : region) :
  subspace_extraction a g = (Ok r, g') ->
  length (in_ss_dims r) = length (X a)
  /\ length (union_bounds_cont r) = length (cont_dims a)
  /\ length (union_bounds_cat r) = Nat.max 1 (length (cat_dims a))
  /\ (cat_dims a = [] -> union_bounds_cat r = [[]]).
Proof.
  intro H. destruct (extraction_init _ _ _ H) as [st0 [g0 Hi]].
  destruct (init_state_spec a g Hi) as [_ [_ [_ [Hm [Hc Hk]]]]].
  pose proof (init_state_cat_length a g Hi) as Hl.
  destruct (fun H0 => @returned_stable a _ g g0 g' st0 r
                        (shapes_stable a (Nat.max 1 (length (cat_dims a))))
                        Hi H0 H) as [st [[H1 [H2 H3]] E]].
  { rewrite Hm, Hc, repeat_length. unfold full_bounds_cont.
    rewrite length_map. auto. }
  split; [rewrite E; exact H1|]. split; [rewrite E; exact H2|].
  split; [rewrite E; exact H3|].
  intro Hnone.
  assert (H0 : ss_bounds_cat st0 = [[]]).
  { destruct Hk as [Hk|[_ Hk]]; [|exact Hk].
    unfold full_bounds_cat in Hk. rewrite Hk, Hnone in Hl. discriminate. }
  assert (Hs : stable a (fun st1 => ss_bounds_cat st1 = [[]])).
  { constructor; [|auto|auto].
    intros i st1 st1' Hst1 Hstep. destruct Hstep; simpl; auto.
    rewrite Hnone in Hdim. destruct k; discriminate. }
  destruct (fun H1 => @returned_stable a _ g g0 g' st0 r Hs Hi H1 H)
    as [st2 [Hst2 E2]]; [exact H0|].
  rewrite E2. exact Hst2.
Qed.

Lemma returned_shapes_witness :
  exists r g',
    subspace_extraction a_mixed g0 = (Ok r, g')
    /\ length (in_ss_dims r) = length (X a_mixed).
Proof.
  destruct (subspace_extraction a_mixed g0) as [[r|e] g'] eqn:E.
  - exists r, g'. split; [reflexivity|].
    apply (returned_shapes a_mixed g0 E).
  - vm_compute in E. discriminate.
Defined.

Lemma ordered_stable (a : args) :
  stable a (fun st =>
    typed a st /\ Forall (fun b => fst b <= snd b) (ss_bounds_cont st)).
Proof.
  constructor; [|auto|auto].
  intros i st st' [Ht H] Hstep.
  split; [exact (stable_step (typed_stable a) Ht Hstep)|].
  destruct Hstep; simpl; auto.
  apply Forall_set_nth; [exact H|].
  unfold typed in Ht. rewrite Forall_forall in Ht.
  destruct (Ht (lo, hi) (nth_error_In _ _ Hbound)) as [Hl Hh].
  simpl in Hl, Hh.
  destruct (assigned_between Hl Hh Hlo Hhi) as [A1 A2].
  destruct Hside as [[-> _]|[-> _]]; simpl; assumption.
Qed.

(** X4.  The returned intervals are non-empty whenever the full-space ones
    are: every returned interval has its lower end at or below its upper
    end. *)
Theorem returned_intervals_ordered (a : args) (g g' : RandomState)
  (r : region) :
  subspace_extraction a g = (Ok r, g') ->
  Forall (fun b => fst b <= snd b) (full_bounds_cont a) ->
  Forall (fun b => fst b <= snd b) (union_bounds_cont r).
Proof.
  intros H Hfull. destruct (extraction_init _ _ _ H) as [st0 [g0 Hi]].
  destruct (init_state_spec a g Hi) as [_ [_ [_ [_ [Hc _]]]]].
  destruct (fun H0 => @returned_stable a _ g g0 g' st0 r
                        (ordered_stable a) Hi H0 H) as [st [[_ Hst] ->]].
  - split; [exact (@typed_init a st0 Hc)|]. rewrite Hc. exact Hfull.
  - exact Hst.
Qed.

Lemma returned_intervals_ordered_witness :
  exists r g',
    subspace_extraction a_second g0 = (Ok r, g')
    /\ Forall (fun b => fst b <= snd b) (union_bounds_cont r).
Proof.
  destruct (subspace_extraction a_second g0) as [[r|e] g'] eqn:E.
  - exists r, g'. split; [reflexivity|].
    apply (returned_intervals_ordered a_second g0 E).
    repeat constructor; simpl; discriminate.
  - vm_compute in E. discriminate.
Defined.

(** X21.  When [np.array(bounds)] is an array of integers, every bound that
    a call returns is an integer: a split value is never returned as it is
    but by its integer part, and still lies inside the full-space bound of
    its dimension. *)
Theorem integer_bounds_return_integers (a : args) (g g' : RandomState)
  (r : region) (rows : list (Z * Z)) :
  bounds a = IntBounds rows ->
  subspace_extraction a g = (Ok r, g') ->
  Forall (fun b => exists zl zh : Z, b = (inject_Z zl, inject_Z zh))
         (union_bounds_cont r)
  /\ Forall2 sub_interval (full_bounds_cont a) (union_bounds_cont r).
Proof.
  intros Hint H. destruct (extraction_init _ _ _ H) as [st0 [g0 Hi]].
  destruct (init_state_spec a g Hi) as [_ [_ [_ [_ [Hc _]]]]].
  destruct (fun H0 => @returned_stable a _ g g0 g' st0 r
                        (sub_interval_stable a) Hi H0 H)
    as [st [[Ht Hst] ->]].
  - split; [exact (@typed_init a st0 Hc)|].
    rewrite Hc. apply Forall2_refl. intro x. split; apply Qle_refl.
  - split; [|exact Hst]. simpl. unfold typed in Ht.
    eapply Forall_impl; [|exact Ht].
    intros [lo hi] [Hl Hh]. unfold holds, assigned in Hl, Hh.
    rewrite Hint in Hl, Hh. simpl in Hl, Hh.
    exists (astype_int lo), (astype_int hi). rewrite Hl, Hh. reflexivity.
Qed.

Lemma integer_bounds_return_integers_witness :
  exists r g',
    subspace_extraction MoreExamples.a_integer_low g0 = (Ok r, g')
    /\ Forall (fun b => exists zl zh : Z, b = (inject_Z zl, inject_Z zh))
              (union_bounds_cont r).
Proof.
  destruct (subspace_extraction MoreExamples.a_integer_low g0)
    as [[r|e] g'] eqn:E.
  - exists r, g'. split; [reflexivity|].
    apply (@integer_bounds_return_integers MoreExamples.a_integer_low g0 g' r
             [(0, 1)%Z] eq_refl E).
  - vm_compute in E. discriminate.
Defined.

(** ** Calls that do not return *)

Lemma step_other_tree (a : args) (i j : nat) (st st' : state) :
  step a j st st' -> i <> j ->
  nth_error (stop_update st') i = nth_error (stop_update st) i
  /\ nth_error (node_indices st') i = nth_error (node_indices st) i.
Proof.
  intros H Hij. destruct H; simpl; auto;
    rewrite nth_error_set_nth_neq by congruence; auto.
Qed.

Lemma visit_unpartitioned (a : args) (check : bool) (i : nat) (st : state)
  (f : nat) (s : Q) (cs : list Q) (c0 c1 : tree) :
  nth_error (stop_update st) i = Some false ->
  nth_error (node_indices st) i = Some (Node f s cs c0 c1) ->
  where_eq f (cont_dims a) = [] -> where_eq f (cat_dims a) = [] ->
  visit a check i st = Raise IndexError.
Proof.
  intros Hs Hn Hc Hk. unfold visit.
  apply lookup_Ok in Hs, Hn. rewrite Hs. cbn [bind]. rewrite Hn. cbn [bind].
  rewrite Hc, Hk. reflexivity.
Qed.

Lemma visit_all_unpartitioned (a : args) (check : bool) (i : nat)
  (f : nat) (s : Q) (cs : list Q) (c0 c1 : tree) (order : list nat) (st : state) :
  In i order ->
  nth_error (stop_update st) i = Some false ->
  nth_error (node_indices st) i = Some (Node f s cs c0 c1) ->
  where_eq f (cont_dims a) = [] -> where_eq f (cat_dims a) = [] ->
  exists e, visit_all a check order st = Raise e.
Proof.
  intros Hin Hs Hn Hc Hk. revert st Hs Hn.
  induction order as [|j order IH]; [contradiction|].
  intros st Hs Hn. simpl.
  destruct (Nat.eq_dec i j) as [<-|Hij].
  - rewrite (visit_unpartitioned a check i st Hs Hn Hc Hk). simpl. eauto.
  - destruct (visit a check j st) as [st1|e] eqn:E; simpl; [|eauto].
    apply visit_sound in E.
    destruct (step_other_tree E Hij) as [E1 E2].
    apply IH.
    + destruct Hin as [Hin|Hin]; [congruence|exact Hin].
    + rewrite E1. exact Hs.
    + rewrite E2. exact Hn.
Qed.

Lemma filter_repeat_false (n : nat) :
  filter (fun b : bool => b) (repeat false n) = [].
Proof.
  induction n as [|n IH]; simpl; auto.
Qed.

(** X5.  A forest with a tree whose root splits on a feature that is in
    neither [cont_dims] nor [cat_dims] makes the call raise: no region is
    returned, whatever the other arguments and the visiting order are. *)
Theorem unpartitioned_root_raises (a : args) (g : RandomState) (i f : nat)
  (s : Q) (cs : list Q) (c0 c1 : tree) :
  nth_error (model a) i = Some (Node f s cs c0 c1) ->
  where_eq f (cont_dims a) = [] -> where_eq f (cat_dims a) = [] ->
  exists e g', subspace_extraction a g = (Raise e, g').
Proof.
  intros Hn Hc Hk.
  unfold subspace_extraction, subspace_extraction_fuel, first_pass.
  destruct (init_state a g) as [[st0|e] g0] eqn:Hi; [|eauto].
  destruct (init_state_spec a g Hi) as [Hnodes [Hstop [Hcov _]]].
  assert (Hlt : (i < length (model a))%nat) by (eapply nth_error_lt; eauto).
  assert (Hfuel : exists fuel, enough_fuel a = S fuel).
  { unfold enough_fuel. clear - Hlt.
    destruct (model a) as [|t l]; simpl in *; [lia|eauto]. }
  destruct Hfuel as [fuel ->]. simpl.
  assert (Hrun : some_running st0 = true).
  { unfold some_running. rewrite Hstop, repeat_length. apply Z.ltb_lt.
    unfold count. rewrite filter_repeat_false. simpl. lia. }
  rewrite Hrun. unfold traverse_forest.
  destruct (shuffle (indices_trees st0) g0) as [order g1] eqn:Hsh.
  destruct (@visit_all_unpartitioned a true i f s cs c0 c1 order
              (set_order order st0)) as [e He]; auto.
  - pose proof (shuffle_In (indices_trees st0) g0 i) as Hx.
    rewrite Hsh in Hx. apply Hx. apply Hcov. exact Hlt.
  - simpl. rewrite Hstop. apply nth_error_repeat_lt. exact Hlt.
  - simpl. rewrite Hnodes. exact Hn.
  - rewrite He. eauto.
Qed.

Lemma unpartitioned_root_raises_witness :
  exists e g', subspace_extraction a_unpartitioned g0 = (Raise e, g').
Proof.
  apply (@unpartitioned_root_raises a_unpartitioned g0 1 1 (1 # 2) [] Leaf Leaf);
    reflexivity.
Defined.

(** ** Forests without a split *)

Lemma leaves_stable (a : args) (cont : list (Q * Q)) (cat : list (list Q))
  (m : list bool) :
  stable a (fun st =>
    Forall (fun t => t = Leaf) (node_indices st)
    /\ ss_bounds_cont st = cont /\ ss_bounds_cat st = cat /\ ss_indices st = m).
Proof.
  constructor; [|auto|auto].
  intros i st st' [Hl H] Hstep.
  assert (Hno : forall f s cs c0 c1,
            nth_error (node_indices st) i <> Some (Node f s cs c0 c1)).
  { intros f s cs c0 c1 Hn. apply nth_error_In in Hn.
    rewrite Forall_forall in Hl. apply Hl in Hn. discriminate. }
  destruct Hstep; simpl; auto; exfalso; eapply Hno; eauto.
Qed.

Lemma wf_leaves (a : args) (l : list tree) :
  Forall (fun t => t = Leaf) l -> forallb (wf_tree a) l = true.
Proof.
  induction 1 as [|t l Ht Hl IH]; simpl; [reflexivity|].
  subst t. exact IH.
Qed.

(** X6.  When no tree of the forest has a split (every tree is a leaf, or
    there is no tree), a call whose dimensions are rows of [bounds] returns
    the full-space bounds with an all-true mask, whatever X, the challenger
    and the two counts are. *)
Theorem forest_without_splits_gives_full_space (a : args) (g : RandomState) :
  Forall (fun t => t = Leaf) (model a) ->
  forallb (fun d => (d <? length (bounds a))%nat) (cont_dims a) = true ->
  forallb (fun d => (d <? length (bounds a))%nat) (cat_dims a) = true ->
  exists r g',
    subspace_extraction a g = (Ok r, g')
    /\ union_bounds_cont r = full_bounds_cont a
    /\ (union_bounds_cat r = full_bounds_cat a
        \/ (cat_dims a = [] /\ union_bounds_cat r = [[]]))
    /\ in_ss_dims r = repeat true (length (X a)).
Proof.
  intros Hl Hc Hk.
  assert (Hwf : wf_args a = true).
  { unfold wf_args. rewrite (wf_leaves a Hl), Hc, Hk. reflexivity. }
  destruct (extraction_runs a g Hwf)
    as [st0 [g0 [st1 [g1 [st2 [g2 [Hi [_ [_ [H _]]]]]]]]]].
  exists (to_region st2), g2. split; [exact H|].
  destruct (init_state_spec a g Hi) as [Hn [_ [_ [Hm [Hcont Hcat]]]]].
  destruct (fun H0 => @returned_stable a _ g g0 g2 st0 (to_region st2)
              (leaves_stable a (ss_bounds_cont st0) (ss_bounds_cat st0)
                 (ss_indices st0)) Hi H0 H)
    as [st [[_ [E1 [E2 E3]]] E]].
  - rewrite Hn. auto.
  - rewrite E. simpl. rewrite E1, E2, E3, Hcont, Hm.
    split; [reflexivity|]. split; [|reflexivity].
    destruct Hcat as [Hcat|[Hcat1 Hcat2]]; [left; exact Hcat|right; auto].
Qed.

Lemma forest_without_splits_gives_full_space_witness :
  exists r g',
    subspace_extraction a_leaves g0 = (Ok r, g')
    /\ in_ss_dims r = repeat true (length (X a_leaves)).
Proof.
  destruct (forest_without_splits_gives_full_space a_leaves g0)
    as [r [g' [Hr [_ [_ Hm]]]]].
  - repeat constructor.
  - reflexivity.
  - reflexivity.
  - exists r, g'. split; [exact Hr|exact Hm].
Defined.

(** ** The loops end *)

Lemma while_running_more_fuel (a : args) (check : bool) (fuel fuel' : nat)
  (st st' : state) (g g' : RandomState) :
  while_running a fuel check st g = (Ok st', g') ->
  (fuel <= fuel')%nat ->
  while_running a fuel' check st g = (Ok st', g').
Proof.
  revert fuel' st g. induction fuel as [|fuel IH]; intros fuel' st g H Hle.
  - simpl in H. destruct fuel'; simpl; destruct (some_running st);
      try discriminate; exact H.
  - destruct fuel' as [|fuel']; [lia|]. simpl in *.
    destruct (some_running st); [|exact H].
    destruct (traverse_forest a check st g) as [[st1|e] g1]; [|discriminate].
    apply IH; [exact H|lia].
Qed.

(** X7.  For a well-formed call both [while] loops end: each pass moves every
    running tree one node down or freezes it, so the first loop leaves every
    tree frozen after at most the sum over the trees of (height + 2) passes,
    and so does the second loop when it runs; allowing more passes gives the
    same region. *)
Theorem both_loops_end (a : args) (g : RandomState) :
  wf_args a = true ->
  exists st1 g1 st2 g2,
    first_pass a (enough_fuel a) g = (Ok st1, g1)
    /\ (forall i b, nth_error (stop_update st1) i = Some b -> b = true)
    /\ second_pass a (enough_fuel a) st1 g1 = (Ok st2, g2)
    /\ (forall i b, nth_error (stop_update st2) i = Some b -> b = true)
    /\ forall fuel, (enough_fuel a <= fuel)%nat ->
         subspace_extraction_fuel a fuel g = (Ok (to_region st2), g2).
Proof.
  intro Hwf.
  destruct (extraction_runs a g Hwf)
    as [st0 [g0 [st1 [g1 [st2 [g2 [Hi [H1 [H2 [H [Hd1 Hd2]]]]]]]]]]].
  assert (Hall : forall st, some_running st = false ->
            forall i b, nth_error (stop_update st) i = Some b -> b = true).
  { intros st Hd. apply trues_all_true. unfold some_running, count in Hd.
    apply Z.ltb_ge in Hd. lia. }
  exists st1, g1, st2, g2. split; [exact H1|]. split; [apply Hall; exact Hd1|].
  split; [exact H2|]. split; [apply Hall; exact Hd2|].
  intros fuel Hle. unfold subspace_extraction_fuel, first_pass in *.
  rewrite Hi in *.
  rewrite (while_running_more_fuel _ _ _ _ H1 Hle).
  unfold second_pass in *.
  destruct (num_max a <? count (ss_indices st1))%Z.
  - rewrite (while_running_more_fuel _ _ _ _ H2 Hle). reflexivity.
  - inversion H2; subst. reflexivity.
Qed.

Lemma both_loops_end_witness :
  exists st1 g1 st2 g2,
    first_pass a_second (enough_fuel a_second) g0 = (Ok st1, g1)
    /\ second_pass a_second (enough_fuel a_second) st1 g1 = (Ok st2, g2)
    /\ subspace_extraction_fuel a_second 100 g0 = (Ok (to_region st2), g2).
Proof.
  destruct (both_loops_end a_second g0 eq_refl)
    as [st1 [g1 [st2 [g2 [H1 [_ [H2 [_ Hfuel]]]]]]]].
  exists st1, g1, st2, g2. split; [exact H1|]. split; [exact H2|].
  apply Hfuel. apply Nat.leb_le. reflexivity.
Defined.

(* ================================================================== *)
(** * Further properties of the chooser *)

(** ** The budget whose data are collected *)

Lemma Qeq_bool_false_neq (x y : Q) : Qeq_bool x y = false -> ~ x == y.
Proof.
  intros H E. apply Qeq_bool_iff in E. congruence.
Qed.

Lemma insert_desc_descending (b : Q) (l : list Q) :
  descending l -> descending (insert_desc b l).
Proof.
  induction l as [|x l IH]; simpl; intro H.
  - split; [intros y []|exact I].
  - destruct H as [Hx Hl].
    destruct (Qeq_bool b x) eqn:Eq; [split; assumption|].
    apply Qeq_bool_false_neq in Eq.
    destruct (Qle_bool x b) eqn:El.
    + apply Qle_bool_iff in El.
      assert (Hlt : x < b).
      { apply Qle_lteq in El. destruct El as [El|El]; [exact El|].
        exfalso. apply Eq. symmetry. exact El. }
      simpl. split; [|split; assumption].
      intros y [<-|Hy]; [exact Hlt|].
      eapply Qlt_trans; [apply Hx; exact Hy|exact Hlt].
    + simpl. split; [|apply IH; exact Hl].
      intros y Hy. destruct (insert_desc_In _ _ _ Hy) as [->|Hy'].
      * apply Qnot_le_lt. intro Hle. apply Qle_bool_iff in Hle. congruence.
      * apply Hx. exact Hy'.
Qed.

Lemma insert_desc_has (b : Q) (l : list Q) :
  (exists y, In y (insert_desc b l) /\ y == b)
  /\ forall x, In x l -> In x (insert_desc b l).
Proof.
  induction l as [|x l [IH1 IH2]]; simpl.
  - split; [exists b; split; [left; reflexivity|reflexivity]|intros x []].
  - destruct (Qeq_bool b x) eqn:Eq.
    + apply Qeq_bool_iff in Eq. split; [|auto].
      exists x. split; [left; reflexivity|symmetry; exact Eq].
    + destruct (Qle_bool x b).
      * split; [exists b; split; [left; reflexivity|reflexivity]|].
        intros y Hy. right. exact Hy.
      * split.
        -- destruct IH1 as [y [Hy Ey]]. exists y. split; [right; exact Hy|exact Ey].
        -- intros y [Hy|Hy]; [left; exact Hy|right; apply IH2; exact Hy].
Qed.

Lemma sorted_budgets_descending (l : list Q) : descending (sorted_budgets l).
Proof.
  unfold sorted_budgets. induction l as [|b l IH]; simpl; [exact I|].
  apply insert_desc_descending. exact IH.
Qed.

Lemma sorted_budgets_has (l : list Q) (x : Q) :
  In x l -> exists y, In y (sorted_budgets l) /\ y == x.
Proof.
  unfold sorted_budgets. induction l as [|b l IH]; simpl; [intros []|].
  intros [->|Hx].
  - apply (insert_desc_has x).
  - destruct (IH Hx) as [y [Hy Ey]]. exists y. split; [|exact Ey].
    apply (insert_desc_has b). exact Hy.
Qed.

Section CollectFacts.

Variable T : Type.
Variable RunHistory : Type.
Variable run_budgets : RunHistory -> list Q.
Variable transform_with_raw :
  RunHistory -> list Q -> list (list float) * list Q * list Q.
Variable get_configurations : RunHistory -> list Q -> list (list float).

Local Abbreviation enough := (enough transform_with_raw).
Local Abbreviation data_at := (data_at transform_with_raw get_configurations).

Lemma first_budget_some (c : chooser T) (rh : RunHistory) (bs : list Q) :
  descending bs ->
  forall b0, In b0 bs -> enough c rh b0 ->
  exists b, first_budget transform_with_raw get_configurations c rh bs
            = Some (b, data_at rh b)
            /\ In b bs /\ enough c rh b
            /\ forall b', In b' bs -> enough c rh b' -> b' <= b.
Proof.
  unfold enough, data_at.
  induction bs as [|x bs IH]; simpl; intros Hd b0 Hin Hb0; [contradiction|].
  destruct Hd as [Hx Hd].
  destruct (transform_with_raw rh [x]) as [[X0 Y0] Yr] eqn:Ex. simpl.
  destruct (min_samples_model c <=? length X0)%nat eqn:E.
  - apply Nat.leb_le in E. exists x. rewrite Ex. simpl.
    split; [reflexivity|]. split; [left; reflexivity|]. split; [exact E|].
    intros b' [<-|Hb'] _; [apply Qle_refl|].
    apply Qlt_le_weak. apply Hx. exact Hb'.
  - apply Nat.leb_gt in E.
    destruct Hin as [->|Hin]; [rewrite Ex in Hb0; simpl in Hb0; lia|].
    destruct (IH Hd b0 Hin Hb0) as [b [H1 [H2 [H3 H4]]]].
    exists b. split; [exact H1|]. split; [right; exact H2|]. split; [exact H3|].
    intros b' [<-|Hb'] Hen; [rewrite Ex in Hen; simpl in Hen; lia|].
    apply H4; assumption.
Qed.

(** X8.  When some budget of the run history has [min_samples_model]
    points, [_collect_all_data_to_train_model] returns the arrays of the
    highest such budget and records it in [currently_considered_budgets]
    (budgets that are numerically equal being one budget to the
    transformer). *)
Theorem collect_takes_highest_budget (c : chooser T) (rh : RunHistory) (b0 : Q) :
  (forall x y, x == y -> transform_with_raw rh [x] = transform_with_raw rh [y]) ->
  In b0 (run_budgets rh) -> enough c rh b0 ->
  exists b,
    _collect_all_data_to_train_model run_budgets transform_with_raw
      get_configurations c rh = (set_budgets [b] c, data_at rh b)
    /\ In b (run_budgets rh) /\ enough c rh b
    /\ forall b', In b' (run_budgets rh) -> enough c rh b' -> b' <= b.
Proof.
  intros Hcompat Hin Hen.
  destruct (sorted_budgets_has _ _ Hin) as [y [Hy Ey]].
  assert (Hey : enough c rh y).
  { unfold enough. rewrite (Hcompat y b0 Ey). exact Hen. }
  destruct (@first_budget_some c rh _
              (sorted_budgets_descending (run_budgets rh)) y Hy Hey)
    as [b [H1 [H2 [H3 H4]]]].
  exists b. unfold _collect_all_data_to_train_model. rewrite H1.
  split; [reflexivity|]. split; [apply sorted_budgets_In; exact H2|].
  split; [exact H3|].
  intros b' Hb' Hen'.
  destruct (sorted_budgets_has _ _ Hb') as [y' [Hy' Ey']].
  rewrite <- Ey'. apply H4; [exact Hy'|].
  unfold enough. rewrite (Hcompat y' b' Ey'). exact Hen'.
Qed.

End CollectFacts.

Lemma toy_transform_compat (rh : Trials.toy_history) (x y : Q) :
  x == y -> toy_transform rh [x] = toy_transform rh [y].
Proof.
  intro E. unfold toy_transform, toy_runs.
  assert (Hf : filter (fun run : list float * Q * Q => mem (snd run) [x]) rh
               = filter (fun run => mem (snd run) [y]) rh).
  { apply filter_ext. intro run. unfold mem. simpl. f_equal.
    destruct (Qeq_bool (snd run) x) eqn:E1, (Qeq_bool (snd run) y) eqn:E2;
      try reflexivity.
    - apply Qeq_bool_iff in E1. apply Qeq_bool_false_neq in E2.
      exfalso. apply E2. rewrite E1. exact E.
    - apply Qeq_bool_iff in E2. apply Qeq_bool_false_neq in E1.
      exfalso. apply E1. rewrite E2. symmetry. exact E. }
  rewrite Hf. reflexivity.
Qed.

Lemma collect_takes_highest_budget_witness :
  exists b,
    _collect_all_data_to_train_model toy_budgets toy_transform
      toy_configurations (set_budgets [] c_turbo) rh_sparse
    = (set_budgets [b] (set_budgets [] c_turbo),
       data_at toy_transform toy_configurations rh_sparse b)
    /\ 1 <= b.
Proof.
  destruct (@collect_takes_highest_budget Trials.toy Trials.toy_history
              toy_budgets toy_transform toy_configurations
              (set_budgets [] c_turbo) rh_sparse 1)
    as [b [H1 [H2 [H3 H4]]]].
  - apply toy_transform_compat.
  - left. reflexivity.
  - unfold enough. apply Nat.leb_le. reflexivity.
  - exists b. split; [exact H1|]. apply H4.
    + left. reflexivity.
    + unfold enough. apply Nat.leb_le. reflexivity.
Defined.

(** ** The draw, the least cost *)

Lemma random_range (g : RandomState) :
  0 <= fst (random g) /\ fst (random g) < 1.
Proof.
  unfold random. cbn [fst].
  set (n := (Z.of_nat (raw g (pos g)) mod 2 ^ 53)%Z).
  assert (Hn : (0 <= n < 2 ^ 53)%Z) by (apply Z.mod_pos_bound; reflexivity).
  assert (Hpos : 0 < inject_Z (2 ^ 53)) by reflexivity.
  split.
  - apply Qle_shift_div_l; [exact Hpos|]. rewrite Qmult_0_l.
    change 0 with (inject_Z 0). rewrite <- Zle_Qle. lia.
  - apply Qlt_shift_div_r; [exact Hpos|]. rewrite Qmult_1_l.
    rewrite <- Zlt_Qlt. lia.
Qed.

Lemma arg_best_min (pre l : list Q) (i : nat) (v : Q) :
  nth_error pre i = Some v ->
  (forall x, In x pre -> v <= x) ->
  exists y,
    nth_error (pre ++ l)
      (arg_best (fun p q => negb (Qle_bool q p)) (length pre) i v l) = Some y
    /\ forall x, In x (pre ++ l) -> y <= x.
Proof.
  revert pre i v. induction l as [|x l IH]; intros pre i v Hi Hmin; simpl.
  - exists v. rewrite app_nil_r. split; [exact Hi|exact Hmin].
  - replace (pre ++ x :: l) with ((pre ++ [x]) ++ l)
      by (rewrite <- app_assoc; reflexivity).
    replace (S (length pre)) with (length (pre ++ [x]))
      by (rewrite length_app; simpl; lia).
    destruct (Qle_bool v x) eqn:E; simpl.
    + apply Qle_bool_iff in E. apply IH.
      * rewrite nth_error_app1; [exact Hi|]. eapply nth_error_lt. exact Hi.
      * intros z Hz. apply in_app_iff in Hz. destruct Hz as [Hz|[<-|[]]];
          [apply Hmin; exact Hz|exact E].
    + apply Qle_bool_total in E. apply Qle_bool_iff in E. apply IH.
      * rewrite nth_error_app2 by lia. rewrite Nat.sub_diag. reflexivity.
      * intros z Hz. apply in_app_iff in Hz. destruct Hz as [Hz|[<-|[]]];
          [|apply Qle_refl].
        eapply Qle_trans; [exact E|apply Hmin; exact Hz].
Qed.

Lemma argmin_least (l : list Q) (j : nat) :
  argmin l = Ok j ->
  exists y, nth_error l j = Some y /\ forall x, In x l -> y <= x.
Proof.
  unfold argmin. destruct l as [|x l]; [discriminate|].
  intro H. ok_inv H.
  apply (@arg_best_min [x] l 0%nat x); [reflexivity|].
  intros z [<-|[]]. apply Qle_refl.
Qed.

Lemma arg_best_max (pre l : list Q) (i : nat) (v : Q) :
  nth_error pre i = Some v ->
  (forall x, In x pre -> x <= v) ->
  exists y,
    nth_error (pre ++ l)
      (arg_best (fun p q => negb (Qle_bool p q)) (length pre) i v l) = Some y
    /\ forall x, In x (pre ++ l) -> x <= y.
Proof.
  revert pre i v. induction l as [|x l IH]; intros pre i v Hi Hmax; simpl.
  - exists v. rewrite app_nil_r. split; [exact Hi|exact Hmax].
  - replace (pre ++ x :: l) with ((pre ++ [x]) ++ l)
      by (rewrite <- app_assoc; reflexivity).
    replace (S (length pre)) with (length (pre ++ [x]))
      by (rewrite length_app; simpl; lia).
    destruct (Qle_bool x v) eqn:E; simpl.
    + apply Qle_bool_iff in E. apply IH.
      * rewrite nth_error_app1; [exact Hi|]. eapply nth_error_lt. exact Hi.
      * intros z Hz. apply in_app_iff in Hz. destruct Hz as [Hz|[<-|[]]];
          [apply Hmax; exact Hz|exact E].
    + apply Qle_bool_total in E. apply Qle_bool_iff in E. apply IH.
      * rewrite nth_error_app2 by lia. rewrite Nat.sub_diag. reflexivity.
      * intros z Hz. apply in_app_iff in Hz. destruct Hz as [Hz|[<-|[]]];
          [|apply Qle_refl].
        eapply Qle_trans; [apply Hmax; exact Hz|exact E].
Qed.

Lemma argmax_greatest (l : list Q) (j : nat) :
  argmax l = Ok j ->
  exists y, nth_error l j = Some y /\ forall x, In x l -> x <= y.
Proof.
  unfold argmax. destruct l as [|x l]; [discriminate|].
  intro H. ok_inv H.
  apply (@arg_best_max [x] l 0%nat x); [reflexivity|].
  intros z [<-|[]]. apply Qle_refl.
Qed.

(** ** Trials in trust-region mode *)

Section TrialFacts.

Variable T : Type.
Variable turbo : TuRBOSubSpace.ops T.
Variable train : list (list float) -> list Q -> list tree.
Variable sample_configuration :
  nat -> RandomState -> list (list float) * RandomState.
Variable RunHistory : Type.
Variable run_budgets : RunHistory -> list Q.
Variable transform_with_raw :
  RunHistory -> list Q -> list (list float) * list Q * list Q.
Variable get_configurations : RunHistory -> list Q -> list (list float).

Local Abbreviation collect :=
  (_collect_all_data_to_train_model run_budgets transform_with_raw
     get_configurations).
Local Abbreviation restart := (restart_TuRBOinG turbo train sample_configuration).
Local Abbreviation exhausted := (exhausted_trial turbo train sample_configuration).
Local Abbreviation choose :=
  (choose_next turbo train sample_configuration run_budgets transform_with_raw
     get_configurations).
Local Abbreviation switching :=
  (region_search_switching turbo train sample_configuration).

(** X9.  A trial in trust-region mode touches the switching state only when
    the trust region is exhausted: while the optimizer still has initial
    configurations to propose, or its adjusted length is not below
    [length_min], the trial draws nothing from the generator, trains and
    restarts nothing, and leaves the mode, both failure counts and the best
    value and point seen as they were. *)
Theorem trial_without_exhaustion_keeps_switching_state (c0 c' : chooser T)
  (rh : RunHistory) (incumbent_value : option Q) (w w' : world)
  (cand : candidates) :
  do_switching c0 = true -> run_TuRBO c0 = true ->
  (0 < TuRBOSubSpace.init_configs turbo (turbo_optimizer c0))%nat
  \/ Qlt_bool
       (TuRBOSubSpace.length turbo
          (TuRBOSubSpace.adjust_length turbo (turbo_optimizer c0)
             (last1 (dY_raw (snd (collect c0 rh))))))
       (TuRBOSubSpace.length_min turbo
          (TuRBOSubSpace.adjust_length turbo (turbo_optimizer c0)
             (last1 (dY_raw (snd (collect c0 rh)))))) = false ->
  choose c0 rh incumbent_value w = (Ok (c', cand), w') ->
  w' = w /\ cand = TurboChallengers
  /\ rng c' = rng c0 /\ log c' = log c0 /\ model_trees c' = model_trees c0
  /\ run_TuRBO c' = true
  /\ failcount_BOinG c' = failcount_BOinG c0
  /\ failcount_TurBO c' = failcount_TurBO c0
  /\ optimal_value c' = optimal_value c0
  /\ optimal_config c' = optimal_config c0.
Proof.
  intros Hd Hr Hcase. unfold choose_next, turbo_trial.
  destruct (collect c0 rh) as [c d] eqn:Hc. simpl in Hcase.
  assert (Hcc : collect c rh = (c, d)).
  { revert Hc. unfold _collect_all_data_to_train_model.
    destruct (first_budget _ _ c0 rh _) as [[b d0]|] eqn:E; intro H;
      inversion H; subst.
    - assert (E' : first_budget transform_with_raw get_configurations
                     (set_budgets [b] c0) rh (sorted_budgets (run_budgets rh))
                   = Some (b, d)).
      { revert E. generalize (sorted_budgets (run_budgets rh)).
        induction l as [|x l IH]; simpl; [discriminate|].
        destruct (transform_with_raw rh [x]) as [[X0 Y0] Yr].
        destruct (_ <=? _)%nat; auto. }
      rewrite E'. reflexivity.
    - rewrite E. reflexivity. }
  assert (Hflags : do_switching c && run_TuRBO c = true
                   /\ turbo_optimizer c = turbo_optimizer c0
                   /\ rng c = rng c0 /\ log c = log c0
                   /\ model_trees c = model_trees c0
                   /\ run_TuRBO c = true
                   /\ failcount_BOinG c = failcount_BOinG c0
                   /\ failcount_TurBO c = failcount_TurBO c0
                   /\ optimal_value c = optimal_value c0
                   /\ optimal_config c = optimal_config c0).
  { destruct (collect_flags _ _ _ _ _ Hc) as [->|[b ->]]; simpl;
      rewrite Hd, Hr; repeat split; reflexivity. }
  destruct Hflags as [E [Ht Hrest]]. rewrite E, Hcc, Ht.
  destruct (0 <? _)%nat eqn:E0.
  - intro H. inversion H; subst. simpl. tauto.
  - destruct Hcase as [Hcase|Hcase]; [apply Nat.ltb_ge in E0; lia|].
    cbn [turbo_optimizer set_turbo_optimizer]. rewrite Hcase.
    intro H. inversion H; subst. simpl. tauto.
Qed.

(** X10.  In an exhausted trial the trust-region optimizer is restarted, and
    the model retrained, exactly when the uniform draw is not below one tenth
    of [failcount_TurBO] as the improvement test left it.  So with ten or more
    counted failures the trial always hands over to region search without a
    restart, and with none (or a negative count) it always restarts. *)
Theorem exhausted_trial_restart (c c1 c' : chooser T) (d : data) (w w' : world)
  (cand : candidates) (optimal_turbo : Q) :
  np_min (TuRBOSubSpace.ss_y turbo (turbo_optimizer c)) = Ok optimal_turbo ->
  qualifying_improvement c d optimal_turbo = Ok c1 ->
  exhausted c d w = (Ok (c', cand), w') ->
  (if Qlt_bool (fst (random (rng c))) ((1 # 10) * inject_Z (failcount_TurBO c1))
   then run_TuRBO c' = false /\ log c' = log c /\ w' = w
        /\ failcount_BOinG c' = (failcount_BOinG c1 / 2)%Z
   else run_TuRBO c' = run_TuRBO c1
        /\ log c' = RestartTuRBO :: Train :: log c
        /\ failcount_BOinG c' = failcount_BOinG c1)
  /\ ((10 <= failcount_TurBO c1)%Z -> run_TuRBO c' = false /\ log c' = log c)
  /\ ((failcount_TurBO c1 <= 0)%Z -> log c' = RestartTuRBO :: Train :: log c).
Proof.
  intros Hmin Hq Hex.
  destruct (qualifying_fields _ _ _ Hq) as [Hrng [Hlog _]].
  assert (Hif :
    if Qlt_bool (fst (random (rng c))) ((1 # 10) * inject_Z (failcount_TurBO c1))
    then run_TuRBO c' = false /\ log c' = log c /\ w' = w
         /\ failcount_BOinG c' = (failcount_BOinG c1 / 2)%Z
    else run_TuRBO c' = run_TuRBO c1
         /\ log c' = RestartTuRBO :: Train :: log c
         /\ failcount_BOinG c' = failcount_BOinG c1).
  { revert Hex. unfold exhausted_trial. rewrite Hmin. cbn [bind]. rewrite Hq.
    rewrite Hrng. destruct (random (rng c)) as [rand g]. cbn [fst].
    destruct (Qlt_bool rand _).
    - intro H. inversion H; subst. simpl. auto.
    - destruct (restart_TuRBOinG _ _ _ _ _ _ _) as [[c3|e] w3] eqn:Hres;
        intro H; inversion H; subst; clear H.
      destruct (restart_fields _ _ _ _ _ _ _ Hres) as [R1 [R2 [R3 R4]]].
      simpl in R1, R2, R3, R4. rewrite R1, R2, R4, Hlog. auto. }
  split; [exact Hif|].
  destruct (random_range (rng c)) as [H0 H1].
  split.
  - intro Hten.
    assert (E : Qlt_bool (fst (random (rng c)))
                  ((1 # 10) * inject_Z (failcount_TurBO c1)) = true).
    { unfold Qlt_bool. apply negb_true_iff.
      destruct (Qle_bool _ _) eqn:E; [|reflexivity].
      apply Qle_bool_iff in E. exfalso.
      assert (Hp : 1 <= (1 # 10) * inject_Z (failcount_TurBO c1)).
      { setoid_replace 1 with ((1 # 10) * inject_Z 10) by reflexivity.
        apply Qmult_le_l; [reflexivity|]. rewrite <- Zle_Qle. exact Hten. }
      pose proof (Qle_trans _ _ _ Hp E) as Hc.
      apply (Qlt_irrefl 1). eapply Qle_lt_trans; eauto. }
    rewrite E in Hif. tauto.
  - intro Hzero.
    assert (E : Qlt_bool (fst (random (rng c)))
                  ((1 # 10) * inject_Z (failcount_TurBO c1)) = false).
    { unfold Qlt_bool. apply negb_false_iff. apply Qle_bool_iff.
      apply Qle_trans with 0; [|exact H0].
      setoid_replace 0 with ((1 # 10) * inject_Z 0) by reflexivity.
      apply Qmult_le_l; [reflexivity|]. rewrite <- Zle_Qle. exact Hzero. }
    rewrite E in Hif. tauto.
Qed.

(** X11.  When the exhausted trust region reports a value below the best
    value seen, the improvement test first replaces the best value and the
    best point by the least raw cost of the whole collected history and the
    row that holds it (not by the value the trust region reported). *)
Theorem improvement_records_least_cost (c c1 : chooser T) (d : data)
  (optimal_turbo : Q) :
  lt (sub (Fin optimal_turbo) (optimal_value c)) (Fin 0) = true ->
  qualifying_improvement c d optimal_turbo = Ok c1 ->
  exists j y x,
    nth_error (dY_raw d) j = Some y /\ nth_error (dX d) j = Some x
    /\ (forall y', In y' (dY_raw d) -> y <= y')
    /\ optimal_value c1 = Fin y /\ optimal_config c1 = Some x.
Proof.
  intro Hneg. unfold qualifying_improvement. rewrite Hneg.
  destruct (argmin (dY_raw d)) as [j|] eqn:Ej; cbn [bind]; [|discriminate].
  destruct (argmin_least _ Ej) as [y0 [Hy0 Hleast]].
  destruct (lookup (dY_raw d) j) as [y|] eqn:Ey; cbn [bind]; [|discriminate].
  apply lookup_Ok in Ey. rewrite Hy0 in Ey. inversion Ey; subst y0.
  destruct (lookup (dX d) j) as [x|] eqn:Ex; cbn [bind]; [|discriminate].
  apply lookup_Ok in Ex.
  destruct (optimal_config (set_optimal_value (Fin y) c)) as [old|];
    cbn [bind]; [|discriminate].
  destruct (_ || _); intro H; ok_inv H; exists j, y, x; simpl; auto.
Qed.

(** X12.  A region-search trial switches to the trust region only when
    [failcount_BOinG], after this trial's update, is a multiple of the number
    of columns of X and at least that number; the switch halves
    [failcount_TurBO] and builds the new trust-region optimizer without
    retraining the model.  In particular the first trial, which finds no best
    point recorded and sets the count to 0, never switches. *)
Theorem switch_to_trust_region_needs_failures (c c' : chooser T) (d : data)
  (w w' : world) :
  run_TuRBO c = false ->
  switching c d w = (Ok c', w') ->
  (run_TuRBO c' = true ->
   (0 < ncols (dX d))%Z
   /\ (failcount_BOinG c' mod ncols (dX d) = 0)%Z
   /\ (ncols (dX d) <= failcount_BOinG c')%Z
   /\ failcount_TurBO c' = (failcount_TurBO c / 2)%Z
   /\ log c' = RestartTuRBO :: log c)
  /\ (optimal_config c = None -> optimal_value c = PInf ->
      run_TuRBO c' = false /\ failcount_BOinG c' = 0%Z).
Proof.
  intros Hr. unfold region_search_switching.
  set (cA := set_failcount_BOinG (failcount_BOinG c + 1) c).
  destruct (bind (last_item (dY_raw d)) _) as [cB|e] eqn:EB; [|discriminate].
  assert (HB : run_TuRBO cB = false /\ failcount_TurBO cB = failcount_TurBO c
               /\ log cB = log c
               /\ (optimal_config c = None -> optimal_value c = PInf ->
                   failcount_BOinG cB = 0%Z)).
  { revert EB. destruct (last_item (dY_raw d)) as [y_last|]; cbn [bind];
      [|discriminate].
    destruct (lt (sub (Fin y_last) (optimal_value cA)) (Fin 0)) eqn:Elt.
    - destruct (optimal_config cA) as [old|] eqn:Eo.
      + destruct (last_item (dX d)) as [x_last|]; cbn [bind]; [|discriminate].
        destruct (_ || _); intro H; ok_inv H; simpl; repeat split; auto;
          intros Hn; simpl in Eo; congruence.
      + destruct (argmin (dY_raw d)) as [j|]; cbn [bind]; [|discriminate].
        destruct (lookup (dY_raw d) j) as [y|]; cbn [bind]; [|discriminate].
        destruct (lookup (dX d) j) as [x|]; cbn [bind]; [|discriminate].
        intro H; ok_inv H; simpl; repeat split; auto.
    - intro H; ok_inv H; simpl; repeat split; auto.
      intros _ Hinf. simpl in Elt. rewrite Hinf in Elt. discriminate. }
  destruct HB as [HB1 [HB2 [HB3 HB4]]].
  destruct (ncols (dX d) =? 0)%Z eqn:En; [discriminate|].
  apply Z.eqb_neq in En.
  assert (Hpos : (0 < ncols (dX d))%Z).
  { unfold ncols in *. destruct (dX d); lia. }
  destruct (failcount_BOinG cB mod ncols (dX d) =? 0)%Z eqn:Em.
  - apply Z.eqb_eq in Em.
    destruct (random (rng cB)) as [rand g] eqn:Erand.
    assert (H0 : 0 <= rand).
    { pose proof (random_range (rng cB)) as Hrange. rewrite Erand in Hrange.
      apply Hrange. }
    destruct (Qlt_bool rand _) eqn:Elt.
    + destruct (restart_TuRBOinG _ _ _ _ _ _ _) as [[c3|e] w3] eqn:Hres;
        intro H; inversion H; subst; clear H.
      destruct (restart_fields _ _ _ _ _ _ _ Hres) as [R1 [R2 [R3 R4]]].
      simpl in R1, R2, R3, R4.
      assert (Hdiv : (0 < failcount_BOinG cB / ncols (dX d))%Z).
      { unfold Qlt_bool in Elt. apply negb_true_iff in Elt.
        destruct (Z_lt_le_dec 0 (failcount_BOinG cB / ncols (dX d)))
          as [Hlt|Hle]; [exact Hlt|].
        exfalso.
        assert (Hq : (1 # 10) * inject_Z (failcount_BOinG cB / ncols (dX d))
                     <= rand).
        { apply Qle_trans with 0; [|exact H0].
          setoid_replace 0 with ((1 # 10) * inject_Z 0) by reflexivity.
          apply Qmult_le_l; [reflexivity|]. rewrite <- Zle_Qle. exact Hle. }
        apply Qle_bool_iff in Hq. congruence. }
      split.
      * intros _. split; [exact Hpos|]. rewrite R2. split; [exact Em|].
        split.
        -- pose proof (Z.div_mod (failcount_BOinG cB) (ncols (dX d)) En).
           nia.
        -- rewrite R3, R4, HB2, HB3. auto.
      * intros Hn Hinf. specialize (HB4 Hn Hinf). rewrite HB4 in Hdiv.
        rewrite Z.div_0_l in Hdiv by exact En. lia.
    + intro H. inversion H; subst. simpl. split.
      * intro Ht. congruence.
      * intros Hn Hinf. auto.
  - intro H. inversion H; subst. split.
    + intro Ht. congruence.
    + intros Hn Hinf. auto.
Qed.

End TrialFacts.

Import MoreTrials.

Lemma trial_without_exhaustion_keeps_switching_state_witness :
  match fst (choose_next toy_ops toy_train toy_sample toy_budgets
               toy_transform toy_configurations c_initial rh_two None w0) with
  | Ok (c', cand) =>
      cand = TurboChallengers /\ log c' = log c_initial
      /\ failcount_TurBO c' = failcount_TurBO c_initial
  | Raise _ => False
  end.
Proof.
  destruct (choose_next toy_ops toy_train toy_sample toy_budgets
              toy_transform toy_configurations c_initial rh_two None w0)
    as [[[c' cand]|e] w'] eqn:E; simpl.
  - destruct (@trial_without_exhaustion_keeps_switching_state _ toy_ops
                toy_train toy_sample _ toy_budgets toy_transform
                toy_configurations c_initial c' rh_two None w0 w' cand
                eq_refl eq_refl (or_introl (Nat.lt_0_1)) E)
      as [_ [Hc [_ [Hl [_ [_ [_ [Hf _]]]]]]]].
    auto.
  - vm_compute in E. discriminate.
Defined.

Lemma exhausted_trial_restart_witness :
  match fst (exhausted_trial toy_ops toy_train toy_sample c_exhausted d_two w0)
  with
  | Ok (c', _) => log c' = RestartTuRBO :: Train :: log c_exhausted
  | Raise _ => False
  end.
Proof.
  destruct (exhausted_trial toy_ops toy_train toy_sample c_exhausted d_two w0)
    as [[[c' cand]|e] w'] eqn:E; simpl.
  - destruct (qualifying_improvement c_exhausted d_two (1999 # 2))
      as [c1|e] eqn:Eq; [|vm_compute in Eq; discriminate].
    destruct (@exhausted_trial_restart _ toy_ops toy_train toy_sample
                c_exhausted c1 c' d_two w0 w' cand (1999 # 2) eq_refl Eq E)
      as [_ [_ Hzero]].
    apply Hzero.
    assert (E1 : failcount_TurBO c1 = (-1)%Z).
    { vm_compute in Eq. inversion Eq. reflexivity. }
    rewrite E1. discriminate.
  - vm_compute in E. discriminate.
Defined.

Lemma improvement_records_least_cost_witness :
  match qualifying_improvement c_exhausted d_two (1999 # 2) with
  | Ok c1 => exists y, optimal_value c1 = Fin y
                       /\ forall y', In y' (dY_raw d_two) -> y <= y'
  | Raise _ => False
  end.
Proof.
  destruct (qualifying_improvement c_exhausted d_two (1999 # 2))
    as [c1|e] eqn:Eq; [|vm_compute in Eq; discriminate].
  destruct (@improvement_records_least_cost _ c_exhausted c1 d_two (1999 # 2)
              eq_refl Eq) as [j [y [x [_ [_ [Hleast [Hv _]]]]]]].
  exists y. split; [exact Hv|exact Hleast].
Defined.

Lemma switch_to_trust_region_needs_failures_witness :
  match fst (region_search_switching toy_ops toy_train toy_sample
               c_region d_region w0) with
  | Ok c' => run_TuRBO c' = true -> (2 <= failcount_BOinG c')%Z
  | Raise _ => False
  end.
Proof.
  destruct (region_search_switching toy_ops toy_train toy_sample
              c_region d_region w0) as [[c'|e] w'] eqn:E; simpl.
  - intro Ht.
    destruct (@switch_to_trust_region_needs_failures _ toy_ops toy_train
                toy_sample c_region c' d_region w0 w' eq_refl E) as [Hs _].
    destruct (Hs Ht) as [_ [_ [Hle _]]]. exact Hle.
  - vm_compute in E. discriminate.
Defined.

(** ** The restart of the trust region *)

Lemma returned_min_count (a : args) (g g' : RandomState) (r : region) :
  subspace_extraction a g = (Ok r, g') ->
  (num_min a <= Z.of_nat (length (X a)))%Z ->
  (num_min a <= count (in_ss_dims r))%Z.
Proof.
  intros H Hmin. destruct (extraction_init _ _ _ H) as [st0 [g0 Hi]].
  destruct (init_state_spec a g Hi) as [_ [_ [_ [Hm _]]]].
  destruct (fun H0 => @returned_stable a _ g g0 g' st0 r
                        (count_stable a) Hi H0 H) as [st [Hst ->]].
  - rewrite Hm, count_repeat_true. exact Hmin.
  - exact Hst.
Qed.

Lemma returned_mask_length (a : args) (g g' : RandomState) (r : region) :
  subspace_extraction a g = (Ok r, g') ->
  length (in_ss_dims r) = length (X a).
Proof.
  intro H. destruct (extraction_init _ _ _ H) as [st0 [g0 Hi]].
  destruct (init_state_spec a g Hi) as [_ [_ [_ [Hm [Hc _]]]]].
  destruct (fun H0 => @returned_stable a _ g g0 g' st0 r
                        (shapes_stable a (length (ss_bounds_cat st0)))
                        Hi H0 H) as [st [[H1 _] ->]].
  - rewrite Hm, Hc, repeat_length. unfold full_bounds_cont.
    rewrite length_map. auto.
  - exact H1.
Qed.

Lemma select_length {A : Type} (M : list A) (mask : list bool) :
  length M = length mask ->
  Z.of_nat (length (select M mask)) = count mask.
Proof.
  unfold select, count. rewrite length_map. intro H. f_equal.
  revert mask H. induction M as [|x M IH]; intros [|b mask] H; simpl in *;
    try discriminate; [reflexivity|].
  destruct b; simpl; rewrite IH; auto.
Qed.

Section RestartFacts.

Variable T : Type.
Variable turbo : TuRBOSubSpace.ops T.
Variable train : list (list float) -> list Q -> list tree.
Variable sample_configuration :
  nat -> RandomState -> list (list float) * RandomState.

Lemma probe_regions (c : chooser T) (M : list (list float))
  (samples : list (list float)) (g g' : RandomState) (rs : list region) :
  probe c M samples g = (Ok rs, g') ->
  Forall (fun r =>
    (min_configs_local c <= Z.of_nat (length M))%Z ->
    length (in_ss_dims r) = length M
    /\ (min_configs_local c <= count (in_ss_dims r))%Z) rs.
Proof.
  revert g rs. induction samples as [|s samples IH]; simpl; intros g rs H.
  - inversion H; subst. constructor.
  - destruct (subspace_extraction _ g) as [[r|e] g1] eqn:E; [|discriminate].
    destruct (probe c M samples g1) as [[rs1|e] g2] eqn:E1; [|discriminate].
    inversion H; subst. constructor.
    + intro Hmin. split.
      * apply (returned_mask_length _ _ E).
      * apply (returned_min_count _ _ E). exact Hmin.
    + eapply IH. exact E1.
Qed.

(** X13.  A restart probes the forest from the sampled points and builds the
    new trust-region optimizer on a probe region of greatest volume, seeded
    with the observations that region contains; when the history has at least [min_configs_local] rows
    the seed has at least [min_configs_local] observations.  The model is
    retrained first exactly when [train_model] is set. *)
Theorem restart_seeds_largest_region (c c' : chooser T) (d : data)
  (train_model : bool) (w w' : world) :
  restart_TuRBOinG turbo train sample_configuration c d train_model w
  = (Ok c', w') ->
  exists regions r,
    fst (probe (if train_model
                then log_event Train (set_model_trees (train (dX d) (dY d)) c)
                else c)
           (dX d) (fst (sample_configuration 20 (cs_random w))) (np_random w))
    = Ok regions
    /\ In r regions
    /\ (forall r', In r' regions ->
          volume (union_bounds_cont r') <= volume (union_bounds_cont r))
    /\ turbo_optimizer c'
       = TuRBOSubSpace.add_new_observations turbo
           (TuRBOSubSpace.make turbo (union_bounds_cont r)
              (select (dX d) (in_ss_dims r), select (dY_raw d) (in_ss_dims r)))
           (select (dX d) (in_ss_dims r)) (select (dY_raw d) (in_ss_dims r))
    /\ model_trees c'
       = (if train_model then train (dX d) (dY d) else model_trees c)
    /\ ((min_configs_local c <= Z.of_nat (length (dX d)))%Z ->
        (min_configs_local c
         <= Z.of_nat (length (select (dX d) (in_ss_dims r))))%Z).
Proof.
  unfold restart_TuRBOinG.
  set (c1 := if train_model
             then log_event Train (set_model_trees (train (dX d) (dY d)) c)
             else c).
  assert (Hc1 : min_configs_local c1 = min_configs_local c
                /\ model_trees c1
                   = (if train_model then train (dX d) (dY d) else model_trees c)).
  { unfold c1. destruct train_model; simpl; auto. }
  destruct Hc1 as [Hmin Hmodel].
  fold c1. destruct (sample_configuration 20 (cs_random w)) as [samples cs].
  cbn [fst].
  destruct (probe c1 (dX d) samples (np_random w)) as [[regions|e] g] eqn:Ep;
    [|intro H; inversion H].
  intro H. inversion H as [[H1 H2]]. clear H H2.
  destruct (ch_cont_dims c1); [discriminate|].
  destruct (argmax _) as [j|] eqn:Ej; cbn [bind] in H1; [|discriminate].
  destruct (lookup regions j) as [r|] eqn:Er; cbn [bind] in H1; [|discriminate].
  apply lookup_Ok in Er. ok_inv H1.
  destruct (argmax_greatest _ Ej) as [y [Hy Hmax]].
  rewrite (map_nth_error (fun r0 => volume (union_bounds_cont r0)) _ _ Er) in Hy.
  inversion Hy; subst y.
  exists regions, r. split; [reflexivity|].
  split; [eapply nth_error_In; exact Er|].
  split.
  { intros r' Hr'. apply Hmax.
    apply (in_map (fun r0 => volume (union_bounds_cont r0))). exact Hr'. }
  split; [reflexivity|]. split; [exact Hmodel|].
  intro Hrows. pose proof (probe_regions _ _ _ _ Ep) as Hall.
  rewrite Forall_forall in Hall.
  destruct (Hall r (nth_error_In _ _ Er)) as [Hlen Hcount];
    [rewrite Hmin; exact Hrows|].
  rewrite select_length by (symmetry; exact Hlen).
  rewrite <- Hmin. exact Hcount.
Qed.

End RestartFacts.

Lemma restart_seeds_largest_region_witness :
  match fst (restart_TuRBOinG toy_ops toy_train toy_sample c_exhausted d_two
               true w0) with
  | Ok c' => model_trees c' = toy_train (dX d_two) (dY d_two)
  | Raise _ => False
  end.
Proof.
  destruct (restart_TuRBOinG toy_ops toy_train toy_sample c_exhausted d_two
              true w0) as [[c'|e] w'] eqn:E; simpl.
  - destruct (@restart_seeds_largest_region _ toy_ops toy_train toy_sample
                c_exhausted c' d_two true w0 w' E)
      as [regions [r [_ [_ [_ [_ [Hm _]]]]]]].
    exact Hm.
  - vm_compute in E. discriminate.
Defined.

(* ================================================================== *)
(** * The region-search trial *)

Lemma finite_positions_ge (k : nat) (v : list float) (i : nat) :
  In i (finite_positions k v) -> (k <= i)%nat.
Proof.
  revert k. induction v as [|x v IH]; simpl; intros k H; [contradiction|].
  destruct (isfinite x).
  - destruct H as [<-|H]; [lia|]. apply IH in H. lia.
  - apply IH in H. lia.
Qed.

Lemma finite_positions_below (n k : nat) (v : list float) :
  (length (filter (fun i => i <? n)%nat (finite_positions k v)) <= n - k)%nat.
Proof.
  revert k. induction v as [|x v IH]; simpl; intro k; [lia|].
  destruct (isfinite x); simpl.
  - destruct (k <? n)%nat eqn:E; simpl.
    + apply Nat.ltb_lt in E. specialize (IH (S k)). lia.
    + specialize (IH (S k)). lia.
  - specialize (IH (S k)). lia.
Qed.

Lemma finite_positions_spec (k : nat) (v : list float) (i : nat) :
  In i (finite_positions k v) ->
  isfinite (nth (i - k) v NaN) = true.
Proof.
  revert k. induction v as [|x v IH]; simpl; intros k H; [contradiction|].
  destruct (isfinite x) eqn:E.
  - destruct H as [<-|H]; [rewrite Nat.sub_diag; exact E|].
    pose proof (finite_positions_ge _ _ _ H).
    replace (i - k)%nat with (S (i - S k)) by lia. apply IH. exact H.
  - pose proof (finite_positions_ge _ _ _ H).
    replace (i - k)%nat with (S (i - S k)) by lia. apply IH. exact H.
Qed.

Lemma nth_error_band_true_r (m c : list bool) (i : nat) :
  nth_error (band m c) i = Some true -> nth_error c i = Some true.
Proof.
  unfold band. revert c i. induction m as [|x m IH]; intros [|y c] [|i] H;
    simpl in *; try discriminate.
  - destruct x, y; simpl in H; try discriminate; reflexivity.
  - eapply IH. exact H.
Qed.

Lemma activate_loop_spec (hps : list bool) (M : list (list float))
  (ch : list float) (idxs dims0 dims : list nat) (m0 m : list bool) :
  activate_loop hps M ch idxs dims0 m0 = Ok (dims, m) ->
  length m0 = length M ->
  length m = length M
  /\ (length dims
      <= length dims0
         + length (filter (fun i => i <? length hps)%nat idxs))%nat
  /\ (forall i, In i dims ->
        In i dims0 \/ (In i idxs /\ nth_error hps i = Some true))
  /\ forall i row, nth_error M i = Some row -> nth_error m i = Some true ->
       nth_error m0 i = Some true
       /\ forall idx, In idx idxs -> nth_error hps idx = Some false ->
            float_eqb (nth idx row NaN) (nth idx ch NaN) = true.
Proof.
  revert dims0 m0. induction idxs as [|idx idxs IH]; simpl; intros dims0 m0 H Hl.
  - ok_inv H. split; [exact Hl|]. split; [lia|]. split; [auto|].
    intros i row _ Hm. split; [exact Hm|intros idx []].
  - destruct (lookup hps idx) as [numerical|] eqn:Eh; cbn [bind] in H;
      [|discriminate].
    apply lookup_Ok in Eh.
    assert (Hlt : (idx <? length hps)%nat = true).
    { apply Nat.ltb_lt. eapply nth_error_lt. exact Eh. }
    rewrite Hlt. simpl.
    destruct numerical.
    + destruct (IH _ _ H Hl) as [H1 [H2 [H3 H4]]].
      split; [exact H1|]. split; [rewrite length_app in H2; simpl in H2; lia|].
      split.
      * intros i Hi. destruct (H3 i Hi) as [Hd|[Hd Hn]].
        -- apply in_app_iff in Hd. destruct Hd as [Hd|[<-|[]]]; auto.
        -- auto.
      * intros i row Hrow Hm. destruct (H4 i row Hrow Hm) as [Hm0 Heq].
        split; [exact Hm0|].
        intros idx' [<-|Hin] Hf; [congruence|auto].
    + destruct (column idx M) as [col|] eqn:Ec; cbn [bind] in H; [|discriminate].
      apply column_spec in Ec. subst col.
      destruct (lookup ch idx) as [v|] eqn:Ev; cbn [bind] in H; [|discriminate].
      apply lookup_Ok in Ev.
      assert (Hv : nth idx ch NaN = v) by (apply nth_error_nth; exact Ev).
      rewrite map_map in H.
      destruct (IH _ _ H) as [H1 [H2 [H3 H4]]].
      { apply length_band_map. exact Hl. }
      split; [exact H1|]. split; [lia|]. split.
      * intros i Hi. destruct (H3 i Hi) as [Hd|[Hd Hn]]; auto.
      * intros i row Hrow Hm. destruct (H4 i row Hrow Hm) as [Hm0 Heq].
        split; [eapply nth_error_band_true; exact Hm0|].
        intros idx' [<-|Hin] Hf; [|auto].
        apply nth_error_band_true_r in Hm0.
        rewrite (map_nth_error (fun x => float_eqb (nth idx x NaN) v) _ _ Hrow)
          in Hm0.
        rewrite Hv. congruence.
Qed.

Lemma select_In {A : Type} (M : list A) (mask : list bool) (x : A) :
  In x (select M mask) ->
  exists i, nth_error M i = Some x /\ nth_error mask i = Some true.
Proof.
  unfold select. revert mask. induction M as [|y M IH]; intros [|b mask] H;
    simpl in H; try contradiction.
  destruct b; simpl in H.
  - destruct H as [<-|H]; [exists 0%nat; auto|].
    destruct (IH _ H) as [i Hi]. exists (S i). exact Hi.
  - destruct (IH _ H) as [i Hi]. exists (S i). exact Hi.
Qed.

Section RegionSearchFacts.

Variable T : Type.
Variable turbo : TuRBOSubSpace.ops T.
Variable train : list (list float) -> list Q -> list tree.
Variable sample_configuration :
  nat -> RandomState -> list (list float) * RandomState.

Local Abbreviation switching :=
  (region_search_switching turbo train sample_configuration).
Local Abbreviation trial :=
  (region_search_trial turbo train sample_configuration).

(** X14.  The counts handed to [subspace_extraction] are never inverted:
    with [0 <= min_configs_local <= MAXINT], the minimum count of the call is
    between 0 and [min_configs_local], and the maximum count is either
    [MAXINT] or more than twice [min_configs_local]; the call is made around
    the first global challenger, on the chooser's forest, bounds and
    dimension lists. *)
Theorem local_plan_counts (s : setup) (c : chooser T) (d : data)
  (first : list float) (a : args) (Y_raw : list Q) (activate_dims : list nat) :
  (0 <= min_configs_local c <= MAXINT)%Z ->
  local_plan s c d first = Ok (Extract a Y_raw activate_dims) ->
  (0 <= num_min a <= min_configs_local c)%Z
  /\ (num_min a <= num_max a)%Z
  /\ (num_max a = MAXINT \/ (2 * min_configs_local c < num_max a)%Z)
  /\ challenger a = first /\ model a = model_trees c
  /\ bounds a = ch_bounds c /\ cat_dims a = ch_cat_dims c
  /\ cont_dims a = ch_cont_dims c.
Proof.
  intros Hmcl. unfold local_plan.
  assert (Hmax : local_num_max s c d = MAXINT
                 \/ (2 * min_configs_local c < local_num_max s c d)%Z).
  { unfold local_num_max. destruct (_ <=? _)%Z eqn:E; [left; reflexivity|].
    right. apply Z.leb_gt in E. exact E. }
  assert (Hle : forall n, (0 <= n <= min_configs_local c)%Z ->
                          (n <= local_num_max s c d)%Z).
  { intros n Hn. destruct Hmax as [->|Hmax]; lia. }
  destruct (0 <? num_conditions s)%nat.
  - destruct (forallb _ (dX d)); [|discriminate].
    destruct (count _ =? 0)%Z; [discriminate|].
    destruct (activate_loop _ _ _ _ _ _) as [[dims m]|] eqn:El; cbn [bind];
      [|discriminate].
    destruct (_ || _); [discriminate|].
    destruct (Nat.eqb (length (hps_numerical s)) 0) eqn:Eh; [discriminate|].
    apply Nat.eqb_neq in Eh.
    intro H. ok_inv H. simpl.
    destruct (@activate_loop_spec _ _ _ _ _ _ _ _ El) as [_ [Hlen _]].
    { rewrite length_map. reflexivity. }
    simpl in Hlen.
    pose proof (finite_positions_below (length (hps_numerical s)) 0 first) as Hb.
    assert (Hn : (0 <= min_configs_local c / Z.of_nat (length (hps_numerical s))
                       * Z.of_nat (length activate_dims)
                  <= min_configs_local c)%Z).
    { set (H := Z.of_nat (length (hps_numerical s))).
      assert (HH : (0 < H)%Z) by (unfold H; lia).
      assert (HA : (0 <= Z.of_nat (length activate_dims) <= H)%Z)
        by (unfold H; lia).
      pose proof (Z.div_pos (min_configs_local c) H ltac:(lia) HH).
      pose proof (Z.mul_div_le (min_configs_local c) H HH).
      nia. }
    repeat split; auto; try lia.
  - intro H. ok_inv H. simpl. repeat split; auto; try lia.
Qed.

(** X15.  In a space with conditions the local subspace is built only from
    observations of the challenger's own hierarchy: every row handed to
    [subspace_extraction] is a row of the collected X that is finite exactly
    where the challenger is and agrees with it on every active
    hyperparameter that is not numerical; there are more than five such rows,
    and more than there are active numerical hyperparameters, of which there
    is at least one. *)
Theorem local_plan_same_hierarchy (s : setup) (c : chooser T) (d : data)
  (first : list float) (a : args) (Y_raw : list Q) (activate_dims : list nat) :
  (0 < num_conditions s)%nat ->
  local_plan s c d first = Ok (Extract a Y_raw activate_dims) ->
  (forall row, In row (X a) ->
     In row (dX d)
     /\ same_hierarchy first row = true
     /\ forall idx, isfinite (nth idx first NaN) = true ->
          nth_error (hps_numerical s) idx = Some false ->
          float_eqb (nth idx row NaN) (nth idx first NaN) = true)
  /\ (Z.max 5 (Z.of_nat (length activate_dims)) < Z.of_nat (length (X a)))%Z
  /\ activate_dims <> []
  /\ forall idx, In idx activate_dims ->
       isfinite (nth idx first NaN) = true
       /\ nth_error (hps_numerical s) idx = Some true.
Proof.
  intros Hcond. unfold local_plan.
  apply Nat.ltb_lt in Hcond. rewrite Hcond.
  destruct (forallb _ (dX d)) eqn:Eshape; [|discriminate].
  destruct (count _ =? 0)%Z; [discriminate|].
  destruct (activate_loop _ _ _ _ _ _) as [[dims m]|] eqn:El; cbn [bind];
    [|discriminate].
  destruct (Nat.eqb (length dims) 0) eqn:E0; [discriminate|].
  destruct (_ <=? _)%Z eqn:Enum; [discriminate|]. simpl.
  destruct (Nat.eqb (length (hps_numerical s)) 0); [discriminate|].
  intro H. ok_inv H. simpl.
  destruct (@activate_loop_spec _ _ _ _ _ _ _ _ El) as [Hlen [_ [Hdims Hrows]]].
  { rewrite length_map. reflexivity. }
  split; [|split; [|split]].
  - intros row Hrow. destruct (@select_In _ _ _ _ Hrow) as [i [Hi Hm]].
    destruct (Hrows i row Hi Hm) as [Hm0 Heq].
    split; [eapply nth_error_In; exact Hi|]. split.
    + rewrite (map_nth_error (same_hierarchy first) _ _ Hi) in Hm0. congruence.
    + intros idx Hfin Hhp. apply Heq; [|exact Hhp].
      assert (Hlt : (idx < length first)%nat).
      { destruct (Nat.lt_ge_cases idx (length first)) as [Hlt|Hge]; [exact Hlt|].
        rewrite nth_overflow in Hfin by exact Hge. discriminate. }
      clear - Hfin Hlt.
      assert (G : forall k v i, (i < length v)%nat ->
                    isfinite (nth i v NaN) = true ->
                    In (k + i)%nat (finite_positions k v)).
      { intros k v. revert k. induction v as [|x v IH]; intros k i Hi Hf;
          simpl in *; [lia|].
        destruct i as [|i].
        - rewrite Hf. left. lia.
        - replace (k + S i)%nat with (S k + i)%nat by lia.
          destruct (isfinite x); [right|]; apply IH; auto; lia. }
      apply (G 0%nat first idx Hlt Hfin).
  - apply Z.leb_gt in Enum. rewrite select_length; [exact Enum|].
    symmetry. exact Hlen.
  - intro E. rewrite E in E0. discriminate.
  - intros idx Hidx. destruct (Hdims idx Hidx) as [[]|[Hin Hn]].
    split; [|exact Hn].
    apply finite_positions_spec in Hin. rewrite Nat.sub_0_r in Hin. exact Hin.
Qed.

End RegionSearchFacts.

Lemma local_plan_counts_witness :
  match local_plan LocalTrials.s_flat Trials.c_plain RegionTrials.d_region
          LocalTrials.first_active with
  | Ok (Extract a _ _) =>
      (0 <= num_min a <= min_configs_local Trials.c_plain)%Z
      /\ (num_min a <= num_max a)%Z
  | _ => False
  end.
Proof.
  destruct (local_plan LocalTrials.s_flat Trials.c_plain RegionTrials.d_region
              LocalTrials.first_active) as [[|a Y_raw dims]|e] eqn:E;
    [vm_compute in E; discriminate| |vm_compute in E; discriminate].
  assert (Hm : (0 <= min_configs_local Trials.c_plain <= MAXINT)%Z).
  { split; apply Z.leb_le; reflexivity. }
  destruct (@local_plan_counts _ LocalTrials.s_flat Trials.c_plain
              RegionTrials.d_region LocalTrials.first_active a Y_raw dims
              Hm E) as [H1 [H2 _]].
  split; [exact H1|exact H2].
Defined.

Lemma local_plan_same_hierarchy_witness :
  match local_plan LocalTrials.s_conditional Trials.c_plain
          LocalTrials.d_conditional LocalTrials.first_active with
  | Ok (Extract a _ activate_dims) =>
      (forall row, In row (X a) ->
         same_hierarchy LocalTrials.first_active row = true)
      /\ activate_dims <> []
  | _ => False
  end.
Proof.
  destruct (local_plan LocalTrials.s_conditional Trials.c_plain
              LocalTrials.d_conditional LocalTrials.first_active)
    as [[|a Y_raw dims]|e] eqn:E;
    [vm_compute in E; discriminate| |vm_compute in E; discriminate].
  assert (Hc : (0 < num_conditions LocalTrials.s_conditional)%nat).
  { apply Nat.ltb_lt. reflexivity. }
  destruct (@local_plan_same_hierarchy _ LocalTrials.s_conditional
              Trials.c_plain LocalTrials.d_conditional
              LocalTrials.first_active a Y_raw dims Hc E)
    as [Hrows [_ [Hne _]]].
  split; [|exact Hne].
  intros row Hrow. destruct (Hrows row Hrow) as [_ [Hs _]]. exact Hs.
Defined.

(** ** The whole region-search trial *)

Section RegionSearchTrialFacts.

Variable T : Type.
Variable turbo : TuRBOSubSpace.ops T.
Variable train : list (list float) -> list Q -> list tree.
Variable sample_configuration :
  nat -> RandomState -> list (list float) * RandomState.

Local Abbreviation restart := (restart_TuRBOinG turbo train sample_configuration).
Local Abbreviation switching :=
  (region_search_switching turbo train sample_configuration).
Local Abbreviation trial :=
  (region_search_trial turbo train sample_configuration).

Lemma restart_settings (c c' : chooser T) (d : data) (w w' : world) :
  restart c d false w = (Ok c', w') -> same_settings c c'.
Proof.
  unfold restart_TuRBOinG, same_settings.
  destruct (sample_configuration 20 (cs_random w)) as [samples cs].
  destruct (probe _ _ samples (np_random w)) as [[union|e] g];
    [|intro H; inversion H].
  intro H. inversion H as [[H1 H2]]. clear H H2.
  destruct (ch_cont_dims c) eqn:Ecd; [discriminate|].
  destruct (argmax _) as [i|]; simpl in H1; [|discriminate].
  destruct (lookup union i) as [r|]; simpl in H1; [|discriminate].
  ok_inv H1. simpl. repeat split; try reflexivity. exact Ecd.
Qed.

Lemma switching_effects (c c' : chooser T) (d : data) (w w' : world) :
  switching c d w = (Ok c', w') ->
  same_settings c c'
  /\ ((log c' = log c /\ run_TuRBO c' = run_TuRBO c)
      \/ (log c' = RestartTuRBO :: log c /\ run_TuRBO c' = true)).
Proof.
  unfold region_search_switching.
  set (cA := set_failcount_BOinG (failcount_BOinG c + 1) c).
  destruct (bind (last_item (dY_raw d)) _) as [cB|e] eqn:EB; [|discriminate].
  assert (HB : same_settings c cB
               /\ log cB = log c /\ run_TuRBO cB = run_TuRBO c).
  { revert EB. unfold same_settings.
    destruct (last_item (dY_raw d)) as [y_last|]; cbn [bind];
      [|discriminate].
    destruct (lt _ _).
    - destruct (optimal_config cA) as [old|].
      + destruct (last_item (dX d)) as [x_last|]; cbn [bind]; [|discriminate].
        destruct (_ || _); intro H; ok_inv H; simpl; repeat split; reflexivity.
      + destruct (argmin (dY_raw d)) as [j|]; cbn [bind]; [|discriminate].
        destruct (lookup (dY_raw d) j) as [y|]; cbn [bind]; [|discriminate].
        destruct (lookup (dX d) j) as [x|]; cbn [bind]; [|discriminate].
        intro H; ok_inv H; simpl; repeat split; reflexivity.
    - intro H; ok_inv H; simpl; repeat split; reflexivity. }
  destruct HB as [[B1 [B2 [B3 [B6 [B7 B8]]]]] [B4 B5]].
  destruct (ncols (dX d) =? 0)%Z; [discriminate|].
  unfold same_settings.
  destruct (_ =? 0)%Z.
  - destruct (random (rng cB)) as [rand g].
    destruct (Qlt_bool rand _).
    + destruct (restart_TuRBOinG _ _ _ _ _ _ _) as [[c3|e] w3] eqn:Hres;
        intro H; inversion H; subst; clear H.
      destruct (restart_settings _ _ _ Hres) as [S1 [S2 [S3 [S4 [S5 S6]]]]].
      destruct (restart_fields _ _ _ _ _ _ _ Hres) as [R1 [_ [_ R4]]].
      simpl in S1, S2, S3, S4, S5, S6, R1, R4.
      split; [repeat split; congruence|].
      right. split; congruence.
    + intro H. inversion H; subst. simpl.
      split; [repeat split; congruence|].
      left. split; congruence.
  - intro H. inversion H; subst.
    split; [repeat split; congruence|].
    left. split; congruence.
Qed.

(** The ways in which a trial returns. *)
Lemma trial_inv (s : setup) (c c' : chooser T) (d : data)
  (incumbent_value : option Q) (runhistory_empty : bool)
  (challengers_global : list (list float)) (w w' : world) (p : proposal) :
  trial s c d incumbent_value runhistory_empty challengers_global w
  = (Done (c', p), w') ->
  let c1 := log_event Train (set_model_trees (train (dX d) (dY d)) c) in
  (too_few c d && Nat.eqb (num_conditions s) 0 = true
   /\ c' = c1 /\ p = FullSpaceSubspace (dX d) (dY_raw d) /\ w' = w)
  \/ (too_few c d && Nat.eqb (num_conditions s) 0 = false
      /\ exists w0,
          (if do_switching c1 then switching c1 d w else (Ok c1, w))
          = (Ok c', w0)
          /\ ((too_few c' d && Nat.eqb (num_conditions s) 0 = true
               /\ p = GlobalChallengers challengers_global /\ w' = w0)
              \/ (too_few c' d && Nat.eqb (num_conditions s) 0 = false
                  /\ exists first rest,
                      challengers_global = first :: rest
                      /\ ((local_plan s c' d first = Ok Fallback
                           /\ p = GlobalChallengers (first :: rest)
                           /\ w' = w0)
                          \/ exists a Y_raw activate_dims r,
                               local_plan s c' d first
                               = Ok (Extract a Y_raw activate_dims)
                               /\ subspace_extraction a (np_random w0)
                                  = (Ok r, np_random w')
                               /\ cs_random w' = cs_random w0
                               /\ p = LocalSubspace r (X a) Y_raw first
                                        activate_dims)))).
Proof.
  intros H c1. unfold region_search_trial in H.
  change (log_event Train (set_model_trees (train (dX d) (dY d)) c))
    with c1 in H.
  destruct (too_few c d && Nat.eqb (num_conditions s) 0) eqn:E1.
  { left. inversion H; subst. auto. }
  right. split; [reflexivity|].
  assert (Hgo :
    match (if do_switching c1 then switching c1 d w else (Ok c1, w)) with
    | (Raise e, w0) => (Failed (Exception e), w0)
    | (Ok c0, w0) =>
        if too_few c0 d && Nat.eqb (num_conditions s) 0
        then (Done (c0, GlobalChallengers challengers_global), w0)
        else
          match challengers_global with
          | [] => (Failed StopIteration, w0)
          | first :: rest =>
              match local_plan s c0 d first with
              | Ok Fallback => (Done (c0, GlobalChallengers (first :: rest)), w0)
              | Ok (Extract a Y_raw activate_dims) =>
                  match subspace_extraction a (np_random w0) with
                  | (Ok r, g) =>
                      (Done (c0, LocalSubspace r (X a) Y_raw first activate_dims),
                       {| np_random := g; cs_random := cs_random w0 |})
                  | (Raise e, g) =>
                      (Failed (Exception e),
                       {| np_random := g; cs_random := cs_random w0 |})
                  end
              | Raise e => (Failed (Exception e), w0)
              end
          end
    end = (Done (c', p), w')).
  { destruct incumbent_value as [v|]; [exact H|].
    destruct runhistory_empty; [discriminate|exact H]. }
  clear H.
  destruct (if do_switching c1 then switching c1 d w else (Ok c1, w))
    as [[c0|e] w0]; [|discriminate].
  destruct (too_few c0 d && Nat.eqb (num_conditions s) 0) eqn:E2.
  { inversion Hgo; subst. exists w'. split; [reflexivity|]. left. auto. }
  destruct challengers_global as [|first rest]; [discriminate|].
  destruct (local_plan s c0 d first) as [[|a Yr dims]|e] eqn:Ep;
    [| |discriminate].
  - inversion Hgo; subst. exists w'. split; [reflexivity|]. right.
    split; [exact E2|]. exists first, rest. split; [reflexivity|]. left. auto.
  - destruct (subspace_extraction a (np_random w0)) as [[r|e] g] eqn:Ex;
      [|discriminate].
    inversion Hgo; subst. exists w0. split; [reflexivity|]. right.
    split; [exact E2|]. exists first, rest. split; [reflexivity|]. right.
    exists a, Yr, dims, r. simpl. auto.
Qed.

(** what the chooser is after the switching block of a trial *)
Lemma trial_switching (c c0 : chooser T) (d : data) (w w0 : world) :
  let c1 := log_event Train (set_model_trees (train (dX d) (dY d)) c) in
  (if do_switching c1 then switching c1 d w else (Ok c1, w)) = (Ok c0, w0) ->
  min_configs_local c0 = min_configs_local c
  /\ model_trees c0 = train (dX d) (dY d)
  /\ ch_bounds c0 = ch_bounds c
  /\ ch_cat_dims c0 = ch_cat_dims c
  /\ ch_cont_dims c0 = ch_cont_dims c
  /\ ((log c0 = Train :: log c /\ run_TuRBO c0 = run_TuRBO c)
      \/ (log c0 = RestartTuRBO :: Train :: log c /\ run_TuRBO c0 = true
          /\ do_switching c = true))
  /\ (do_switching c = false -> c0 = c1 /\ w0 = w).
Proof.
  intros c1 H. destruct (do_switching c1) eqn:Ed.
  - apply switching_effects in H.
    destruct H as [[S1 [S2 [S3 [S4 [S5 S6]]]]] S7].
    simpl in S1, S2, S3, S4, S5, S6, S7, Ed.
    repeat (split; [assumption|]). split.
    + destruct S7 as [[L R]|[L R]]; [left|right]; rewrite L; auto.
    + intro Hf. congruence.
  - inversion H; subst. simpl in Ed. simpl. auto 12.
Qed.

Lemma local_plan_fields (s : setup) (c : chooser T) (d : data)
  (first : list float) (a : args) (Y_raw : list Q) (activate_dims : list nat) :
  local_plan s c d first = Ok (Extract a Y_raw activate_dims) ->
  challenger a = first /\ model a = model_trees c
  /\ bounds a = ch_bounds c /\ cat_dims a = ch_cat_dims c
  /\ cont_dims a = ch_cont_dims c
  /\ (forall row, In row (X a) -> In row (dX d))
  /\ (num_conditions s = 0%nat ->
      X a = dX d /\ Y_raw = dY_raw d
      /\ activate_dims = seq 0 (length (hps_numerical s))
      /\ num_min a = min_configs_local c).
Proof.
  unfold local_plan.
  destruct (0 <? num_conditions s)%nat eqn:Ec.
  - destruct (forallb _ (dX d)); [|discriminate].
    destruct (count _ =? 0)%Z; [discriminate|].
    destruct (activate_loop _ _ _ _ _ _) as [[dims m]|] eqn:El; cbn [bind];
      [|discriminate].
    destruct (_ || _); [discriminate|].
    destruct (Nat.eqb (length (hps_numerical s)) 0); [discriminate|].
    intro H. ok_inv H. simpl.
    repeat (split; [reflexivity|]). split.
    + intros row Hrow. destruct (@select_In _ _ _ _ Hrow) as [i [Hi _]].
      eapply nth_error_In. exact Hi.
    + intro H0. rewrite H0 in Ec. discriminate.
  - intro H. ok_inv H. simpl. auto 12.
Qed.

(** X16.  Every region-search trial that returns has trained the global
    model on this trial's data, once; it has restarted the trust-region
    optimizer only if it switched to trust-region mode; and a chooser that
    does not switch is left as it was apart from the trained model, with the
    generator of the configuration space untouched. *)
Theorem region_search_trial_trains_once (s : setup) (c c' : chooser T)
  (d : data) (incumbent_value : option Q) (runhistory_empty : bool)
  (challengers_global : list (list float)) (w w' : world) (p : proposal) :
  trial s c d incumbent_value runhistory_empty challengers_global w
  = (Done (c', p), w') ->
  model_trees c' = train (dX d) (dY d)
  /\ ((log c' = Train :: log c /\ run_TuRBO c' = run_TuRBO c)
      \/ (log c' = RestartTuRBO :: Train :: log c /\ run_TuRBO c' = true
          /\ do_switching c = true))
  /\ (do_switching c = false ->
      c' = log_event Train (set_model_trees (train (dX d) (dY d)) c)
      /\ cs_random w' = cs_random w).
Proof.
  intro H. apply trial_inv in H. cbv zeta in H.
  destruct H as [[_ [-> [_ ->]]]|[_ [w0 [Hs Hrest]]]].
  { simpl. auto 10. }
  apply trial_switching in Hs.
  destruct Hs as [_ [Hm [_ [_ [_ [Hlog Hoff]]]]]].
  split; [exact Hm|]. split; [exact Hlog|].
  intro Hf. destruct (Hoff Hf) as [-> ->]. split; [reflexivity|].
  destruct Hrest as [[_ [_ ->]]|[_ [first [rest [_ [[_ [_ ->]]|H]]]]]];
    try reflexivity.
  destruct H as [a [Yr [dims [r [_ [_ [Hcs _]]]]]]]. exact Hcs.
Qed.

(** X17.  A region-search trial hands back the challengers of the global
    acquisition function only in a search space with conditions, and then
    complete, the challenger it had taken put back in front: in a space
    without conditions the second test of the number of observations
    cannot succeed, since the first one would have returned. *)
Theorem global_challengers_only_in_conditional_space (s : setup)
  (c c' : chooser T) (d : data) (incumbent_value : option Q)
  (runhistory_empty : bool) (challengers_global l : list (list float))
  (w w' : world) :
  trial s c d incumbent_value runhistory_empty challengers_global w
  = (Done (c', GlobalChallengers l), w') ->
  (0 < num_conditions s)%nat /\ l = challengers_global /\ l <> [].
Proof.
  intro H. apply trial_inv in H. cbv zeta in H.
  destruct H as [[_ [_ [Hp _]]]|[E1 [w0 [Hs Hrest]]]]; [discriminate|].
  apply trial_switching in Hs. destruct Hs as [Hmin _].
  assert (E2 : too_few c' d = too_few c d).
  { unfold too_few. rewrite Hmin. reflexivity. }
  destruct Hrest as [[E3 _]|[_ [first [rest [-> Hrest]]]]].
  { rewrite E2 in E3. congruence. }
  destruct Hrest as [[Hp [Hl _]]|[a [Yr [dims [r [_ [_ [_ Hl]]]]]]]];
    [|discriminate].
  inversion Hl; subst. split; [|split; [reflexivity|discriminate]].
  unfold local_plan in Hp.
  destruct (0 <? num_conditions s)%nat eqn:Ec; [|discriminate].
  apply Nat.ltb_lt. exact Ec.
Qed.

(** X18.  The local subspace a region-search trial returns was extracted by
    [subspace_extraction] from the forest trained in this very trial (also
    when the trial restarted the trust-region optimizer in between), around
    the first challenger of the global acquisition function, with the
    chooser's bounds and partition of the dimensions; its data are rows of
    the collected data, and the membership mask has one entry for each of
    them. *)
Theorem local_subspace_from_trained_forest (s : setup) (c c' : chooser T)
  (d : data) (incumbent_value : option Q) (runhistory_empty : bool)
  (challengers_global : list (list float)) (w w' : world) (r : region)
  (Xl : list (list float)) (Yl : list Q) (incumbent_array : list float)
  (activate_dims : list nat) :
  trial s c d incumbent_value runhistory_empty challengers_global w
  = (Done (c', LocalSubspace r Xl Yl incumbent_array activate_dims), w') ->
  exists rest a g,
    challengers_global = incumbent_array :: rest
    /\ subspace_extraction a g = (Ok r, np_random w')
    /\ X a = Xl /\ challenger a = incumbent_array
    /\ model a = train (dX d) (dY d)
    /\ bounds a = ch_bounds c /\ cat_dims a = ch_cat_dims c
    /\ cont_dims a = ch_cont_dims c
    /\ length (in_ss_dims r) = length Xl
    /\ forall row, In row Xl -> In row (dX d).
Proof.
  intro H. apply trial_inv in H. cbv zeta in H.
  destruct H as [[_ [_ [Hp _]]]|[_ [w0 [Hs Hrest]]]]; [discriminate|].
  apply trial_switching in Hs.
  destruct Hs as [_ [Hm [Hb [Hcat [Hcont _]]]]].
  destruct Hrest as [[_ [Hp _]]|[_ [first [rest [-> Hrest]]]]];
    [discriminate|].
  destruct Hrest as [[_ [Hp _]]|[a [Yr [dims [r0 [Hplan [Hex [_ Hp]]]]]]]];
    [discriminate|].
  inversion Hp; subst.
  apply local_plan_fields in Hplan.
  destruct Hplan as [F1 [F2 [F3 [F4 [F5 [F6 _]]]]]].
  exists rest, a, (np_random w0).
  split; [reflexivity|]. split; [exact Hex|]. split; [reflexivity|].
  split; [exact F1|]. split; [congruence|]. split; [congruence|].
  split; [congruence|]. split; [congruence|].
  split; [eapply returned_mask_length; exact Hex|exact F6].
Qed.

(** X19.  In a search space without conditions the local subspace of a
    region-search trial is extracted from all the collected data, over all
    the hyperparameters, and keeps at least [min_configs_local] of the
    observations: the test of the number of observations that the trial
    passed is what [subspace_extraction] needs for its minimum. *)
Theorem flat_local_subspace_keeps_min_configs (s : setup) (c c' : chooser T)
  (d : data) (incumbent_value : option Q) (runhistory_empty : bool)
  (challengers_global : list (list float)) (w w' : world) (r : region)
  (Xl : list (list float)) (Yl : list Q) (incumbent_array : list float)
  (activate_dims : list nat) :
  trial s c d incumbent_value runhistory_empty challengers_global w
  = (Done (c', LocalSubspace r Xl Yl incumbent_array activate_dims), w') ->
  num_conditions s = 0%nat ->
  Xl = dX d /\ Yl = dY_raw d
  /\ activate_dims = seq 0 (length (hps_numerical s))
  /\ length (in_ss_dims r) = length (dX d)
  /\ (min_configs_local c <= count (in_ss_dims r))%Z.
Proof.
  intros H Hflat. apply trial_inv in H. cbv zeta in H.
  destruct H as [[_ [_ [Hp _]]]|[E1 [w0 [Hs Hrest]]]]; [discriminate|].
  apply trial_switching in Hs. destruct Hs as [Hmin _].
  destruct Hrest as [[_ [Hp _]]|[_ [first [rest [-> Hrest]]]]];
    [discriminate|].
  destruct Hrest as [[_ [Hp _]]|[a [Yr [dims [r0 [Hplan [Hex [_ Hp]]]]]]]];
    [discriminate|].
  inversion Hp; subst.
  apply local_plan_fields in Hplan.
  destruct Hplan as [_ [_ [_ [_ [_ [_ Hall]]]]]].
  destruct (Hall Hflat) as [HX [HY [Hd Hn]]].
  split; [exact HX|]. split; [exact HY|]. split; [exact Hd|].
  pose proof (returned_mask_length _ _ Hex) as Hlen.
  split; [rewrite Hlen, HX; reflexivity|].
  rewrite <- Hmin, <- Hn. eapply returned_min_count; [exact Hex|].
  rewrite Hn, Hmin, HX.
  rewrite Hflat in E1. simpl in E1. rewrite andb_true_r in E1.
  unfold too_few, Qlt_bool in E1. apply negb_false_iff in E1.
  apply Qle_bool_iff in E1.
  unfold Qle, Qdiv, Qmult, Qinv, frac_to_start_bi, inject_Z in E1.
  simpl in E1. lia.
Qed.

End RegionSearchTrialFacts.

Lemma region_search_trial_trains_once_witness :
  match fst (region_search_trial Trials.toy_ops Trials.toy_train
               Trials.toy_sample LocalTrials.s_flat Trials.c_plain
               RegionTrials.d_region (Some 0) false
               [LocalTrials.first_active] Trials.w0) with
  | Done (c', _) =>
      model_trees c'
      = Trials.toy_train (dX RegionTrials.d_region) (dY RegionTrials.d_region)
  | Failed _ => False
  end.
Proof.
  destruct (region_search_trial Trials.toy_ops Trials.toy_train
              Trials.toy_sample LocalTrials.s_flat Trials.c_plain
              RegionTrials.d_region (Some 0) false
              [LocalTrials.first_active] Trials.w0)
    as [[[c' p]|f] w'] eqn:E; simpl.
  - destruct (@region_search_trial_trains_once _ Trials.toy_ops
                Trials.toy_train Trials.toy_sample LocalTrials.s_flat
                Trials.c_plain c' RegionTrials.d_region (Some 0) false
                [LocalTrials.first_active] Trials.w0 w' p E) as [H _].
    exact H.
  - vm_compute in E. discriminate.
Defined.

Lemma global_challengers_only_in_conditional_space_witness :
  match fst (region_search_trial Trials.toy_ops Trials.toy_train
               Trials.toy_sample LocalTrials.s_conditional Trials.c_plain
               RegionTrials.d_region (Some 0) false
               [LocalTrials.first_inactive] Trials.w0) with
  | Done (_, GlobalChallengers l) => l = [LocalTrials.first_inactive]
  | _ => False
  end.
Proof.
  destruct (region_search_trial Trials.toy_ops Trials.toy_train
              Trials.toy_sample LocalTrials.s_conditional Trials.c_plain
              RegionTrials.d_region (Some 0) false
              [LocalTrials.first_inactive] Trials.w0)
    as [[[c' [M Y|l|r M Y inc dims]]|f] w'] eqn:E; simpl;
    try (vm_compute in E; discriminate).
  destruct (@global_challengers_only_in_conditional_space _ Trials.toy_ops
              Trials.toy_train Trials.toy_sample LocalTrials.s_conditional
              Trials.c_plain c' RegionTrials.d_region (Some 0) false
              [LocalTrials.first_inactive] l Trials.w0 w' E) as [_ [H _]].
  exact H.
Defined.

Lemma local_subspace_from_trained_forest_witness :
  match fst (region_search_trial Trials.toy_ops Trials.toy_train
               Trials.toy_sample LocalTrials.s_flat Trials.c_plain
               RegionTrials.d_region (Some 0) false
               [LocalTrials.first_active] Trials.w0) with
  | Done (_, LocalSubspace r M _ _ _) => length (in_ss_dims r) = length M
  | _ => False
  end.
Proof.
  destruct (region_search_trial Trials.toy_ops Trials.toy_train
              Trials.toy_sample LocalTrials.s_flat Trials.c_plain
              RegionTrials.d_region (Some 0) false
              [LocalTrials.first_active] Trials.w0)
    as [[[c' [M Y|l|r M Y inc dims]]|f] w'] eqn:E; simpl;
    try (vm_compute in E; discriminate).
  destruct (@local_subspace_from_trained_forest _ Trials.toy_ops
              Trials.toy_train Trials.toy_sample LocalTrials.s_flat
              Trials.c_plain c' RegionTrials.d_region (Some 0) false
              [LocalTrials.first_active] Trials.w0 w' r M Y inc dims E)
    as [rest [a [g [_ [_ [_ [_ [_ [_ [_ [_ [H _]]]]]]]]]]]].
  exact H.
Defined.

Lemma flat_local_subspace_keeps_min_configs_witness :
  match fst (region_search_trial Trials.toy_ops Trials.toy_train
               Trials.toy_sample LocalTrials.s_flat Trials.c_plain
               RegionTrials.d_region (Some 0) false
               [LocalTrials.first_active] Trials.w0) with
  | Done (_, LocalSubspace r _ _ _ _) =>
      (min_configs_local Trials.c_plain <= count (in_ss_dims r))%Z
  | _ => False
  end.
Proof.
  destruct (region_search_trial Trials.toy_ops Trials.toy_train
              Trials.toy_sample LocalTrials.s_flat Trials.c_plain
              RegionTrials.d_region (Some 0) false
              [LocalTrials.first_active] Trials.w0)
    as [[[c' [M Y|l|r M Y inc dims]]|f] w'] eqn:E; simpl;
    try (vm_compute in E; discriminate).
  destruct (@flat_local_subspace_keeps_min_configs _ Trials.toy_ops
              Trials.toy_train Trials.toy_sample LocalTrials.s_flat
              Trials.c_plain c' RegionTrials.d_region (Some 0) false
              [LocalTrials.first_active] Trials.w0 w' r M Y inc dims E
              eq_refl)
    as [_ [_ [_ [_ H]]]].
  exact H.
Defined.

(** ** The dimension lists of the constructor *)

Lemma where_type_range (p : nat -> bool) (types : list nat) :
  forall k i, In i (where_type p k types) ->
    (k <= i < k + length types)%nat.
Proof.
  induction types as [|t types IH]; intros k i H; simpl in *; [contradiction|].
  destruct (p t).
  - destruct H as [<-|H]; [lia|]. apply IH in H. lia.
  - apply IH in H. lia.
Qed.

Lemma where_from_absent (f : nat) (dims : list nat) :
  forall j, ~ In f dims -> where_from j f dims = [].
Proof.
  induction dims as [|d dims IH]; intros j H; simpl; [reflexivity|].
  destruct (Nat.eqb f d) eqn:E.
  - apply Nat.eqb_eq in E. exfalso. apply H. left. auto.
  - apply IH. intro Hin. apply H. right. exact Hin.
Qed.

(** a position selected by [p] occurs once in the list of the selected
    positions, any other position does not occur *)
Lemma where_from_where_type (p : nat -> bool) (types : list nat) :
  forall k j f, (k <= f < k + length types)%nat ->
    (p (nth (f - k) types 0%nat) = true ->
     exists m, where_from j f (where_type p k types) = [m])
    /\ (p (nth (f - k) types 0%nat) = false ->
        where_from j f (where_type p k types) = []).
Proof.
  induction types as [|t types IH]; intros k j f Hf; simpl in Hf; [lia|].
  assert (Habs : ~ In k (where_type p (S k) types)).
  { intro Hin. apply where_type_range in Hin. lia. }
  destruct (Nat.eq_dec f k) as [->|Hne].
  - rewrite Nat.sub_diag. cbn [nth where_type].
    destruct (p t) eqn:Ept.
    + split; [|discriminate]. intros _. exists j.
      cbn [where_from]. rewrite Nat.eqb_refl.
      rewrite (@where_from_absent _ _ (S j) Habs). reflexivity.
    + split; [discriminate|]. intros _. apply (@where_from_absent _ _ j Habs).
  - replace (f - k)%nat with (S (f - S k)) by lia. cbn [nth where_type].
    destruct (p t).
    + cbn [where_from].
      assert (E : Nat.eqb f k = false) by (apply Nat.eqb_neq; exact Hne).
      rewrite E. apply IH. lia.
    + apply IH. lia.
Qed.

Lemma features_below_wf (a : args) (n : nat) (t : tree) :
  (forall f, (f < n)%nat -> feature_ok a f = true) ->
  features_below n t = true -> wf_tree a t = true.
Proof.
  intro Hok. induction t as [|f s cs c0 IH0 c1 IH1]; simpl; [reflexivity|].
  intro H. apply andb_true_iff in H. destruct H as [H H1].
  apply andb_true_iff in H. destruct H as [Hf H0].
  apply Nat.ltb_lt in Hf.
  rewrite (Hok f Hf), (IH0 H0), (IH1 H1). reflexivity.
Qed.

(** X20.  The lists [cat_dims] and [cont_dims] that [__init__] computes from
    the vector of hyperparameter types partition the hyperparameters, which
    is what [subspace_extraction] relies on: called with them, with bounds
    and a challenger that have an entry for each hyperparameter, on data
    that have a column for each, and with a forest that splits on
    hyperparameters only, it returns a region, whatever the values, the two
    counts and the state of the generator are. *)
Theorem constructor_partition_makes_extraction_return (types : list nat)
  (a : args) (g : RandomState) :
  cat_dims a = init_cat_dims types ->
  cont_dims a = init_cont_dims types ->
  length (bounds a) = length types ->
  length (challenger a) = length types ->
  Forall (fun row => length row = length types) (X a) ->
  forallb (features_below (length types)) (model a) = true ->
  exists r g', subspace_extraction a g = (Ok r, g').
Proof.
  intros Hcat Hcont Hb Hch HX Hforest.
  assert (Hok : forall f, (f < length types)%nat -> feature_ok a f = true).
  { intros f Hf. unfold feature_ok.
    assert (H1 : (f <? length (challenger a))%nat = true)
      by (apply Nat.ltb_lt; lia).
    assert (H2 : forallb (fun row => (f <? length row)%nat) (X a) = true).
    { apply forallb_forall. intros row Hrow. apply Nat.ltb_lt.
      rewrite Forall_forall in HX. rewrite (HX row Hrow). exact Hf. }
    rewrite H1, H2, Hcat, Hcont. cbn [andb].
    unfold where_eq, init_cont_dims, init_cat_dims.
    destruct (where_from_where_type (fun t => Nat.eqb t 0) types
                (k := 0) 0 (f := f) ltac:(lia)) as [Hc1 Hc0].
    destruct (where_from_where_type (fun t => negb (Nat.eqb t 0)) types
                (k := 0) 0 (f := f) ltac:(lia)) as [Hk1 _].
    rewrite Nat.sub_0_r in Hc1, Hc0, Hk1.
    destruct (Nat.eqb (nth f types 0%nat) 0) eqn:Et.
    - destruct (Hc1 eq_refl) as [m ->]. reflexivity.
    - rewrite (Hc0 eq_refl). destruct (Hk1 eq_refl) as [m ->]. reflexivity. }
  assert (Hdims : forall p,
            forallb (fun d => (d <? length (bounds a))%nat)
                    (where_type p 0 types) = true).
  { intro p. apply forallb_forall. intros i Hi.
    apply where_type_range in Hi. apply Nat.ltb_lt. lia. }
  assert (Hwf : wf_args a = true).
  { unfold wf_args. rewrite Hcat, Hcont.
    unfold init_cat_dims, init_cont_dims. rewrite !Hdims.
    rewrite andb_true_r, andb_true_r. apply forallb_forall.
    intros t Ht. apply (@features_below_wf a (length types) t Hok).
    rewrite forallb_forall in Hforest. apply Hforest. exact Ht. }
  destruct (extraction_runs a g Hwf)
    as [st0 [g0 [st1 [g1 [st2 [g2 [_ [_ [_ [H _]]]]]]]]]].
  eauto.
Qed.

Lemma constructor_partition_makes_extraction_return_witness :
  exists r g', subspace_extraction Examples.a_mixed Examples.g0 = (Ok r, g').
Proof.
  apply (@constructor_partition_makes_extraction_return [3; 0]%nat
           Examples.a_mixed Examples.g0); try reflexivity.
  repeat constructor.
Defined.
